(** * Application Catalog Manager: admission control and synchronisation

    A shallow embedding of the precedence resolver, the converter, the
    admission webhooks and the synchroniser of the application catalog
    manager, with the properties its specification states about them.

    Go values are modelled as follows.
    - [string] is a Go string (a byte sequence); comparison with [<] in Go
      is the byte-wise lexicographic order, here [String.ltb].
    - a pointer that may be nil is an [option]; a slice whose nil state is
      observed by the code ([HelmSpec.Charts], [Selector.Datacenters]) is an
      [option (list _)], other slices are lists.
    - [map[string]string] (labels, annotations) is a [gmap string string];
      a nil map and an empty map are both the empty map.
    - the API server is an in-memory object store. *)

From Stdlib Require Import String Ascii Sorted Permutation.
From stdpp Require Import gmap strings list fin_maps.

(** ** API types (package v1alpha1) *)

Module v1alpha1.

Definition LabelManagedByApplicationCatalog : string :=
  "applicationcatalog.k8c.io/managed-by".
Definition LabelApplicationCatalogName : string :=
  "applicationcatalog.k8c.io/catalog-name".
Definition DefaultHelmRepository : string :=
  "oci://quay.io/kubermatic-mirror/helm-charts".

(** corev1.SecretKeySelector: a (name, key) reference into a secret. *)
Record SecretKeySelector := {
  sks_Name : string;
  sks_Key : string;
  sks_Optional : option bool
}.

Record RepositoryCredentials := {
  rc_Username : option SecretKeySelector;
  rc_Password : option SecretKeySelector;
  rc_RegistryConfigFile : option SecretKeySelector
}.

Record RepositorySettings := {
  BaseURL : string;
  Credentials : option RepositoryCredentials
}.

Record ChartMetadata := {
  AppName : string;
  md_DisplayName : string;
  md_Description : string;
  md_DocumentationURL : string;
  md_SourceURL : string;
  md_Logo : string;
  md_LogoFormat : string
}.

Record ChartVersion := {
  cv_ChartVersion : string;
  AppVersion : string;
  cv_RepositorySettings : option RepositorySettings
}.

Record ChartConfig := {
  ChartName : string;
  Metadata : option ChartMetadata;
  cc_RepositorySettings : option RepositorySettings;
  cc_DefaultValuesBlock : string;
  ChartVersions : list ChartVersion
}.

(** [Charts] is [None] for a nil slice and [Some []] for an empty one.
    [IncludeDefaults] is the field read by the reconciler and by the
    validating webhook. *)
Record HelmSpec := {
  hs_RepositorySettings : option RepositorySettings;
  Charts : option (list ChartConfig);
  IncludeDefaults : bool
}.

(** The object metadata the code reads (name, annotations) and the spec. *)
Record ApplicationCatalog := {
  ac_Name : string;
  ac_Annotations : gmap string string;
  Helm : option HelmSpec
}.

(** [s != ""] *)
Definition nonEmpty (s : string) : bool := negb (String.eqb s EmptyString).

Definition GetAppName (c : ChartConfig) : string :=
  match Metadata c with
  | Some m => if nonEmpty (AppName m) then AppName m else ChartName c
  | None => ChartName c
  end.

Definition GetHelmCharts (ac : ApplicationCatalog) : option (list ChartConfig) :=
  match Helm ac with
  | None => None
  | Some h => Charts h
  end.

Definition GetGlobalRepositorySettings (ac : ApplicationCatalog)
  : option RepositorySettings :=
  match Helm ac with
  | None => None
  | Some h => hs_RepositorySettings h
  end.

(** The three [if] statements of the source return early; each [let] below
    is the rest of the function after the [if] above it falls through. *)
Definition ResolveChartURL (ac : ApplicationCatalog) (chart : ChartConfig)
    (version : ChartVersion) : string :=
  let afterGlobal := DefaultHelmRepository in
  let afterChart :=
    match GetGlobalRepositorySettings ac with
    | Some g => if nonEmpty (BaseURL g) then BaseURL g else afterGlobal
    | None => afterGlobal
    end in
  let afterVersion :=
    match cc_RepositorySettings chart with
    | Some cs => if nonEmpty (BaseURL cs) then BaseURL cs else afterChart
    | None => afterChart
    end in
  match cv_RepositorySettings version with
  | Some vs => if nonEmpty (BaseURL vs) then BaseURL vs else afterVersion
  | None => afterVersion
  end.

Definition ResolveChartCredentials (ac : ApplicationCatalog) (chart : ChartConfig)
    (version : ChartVersion) : option RepositoryCredentials :=
  let afterGlobal := None in
  let afterChart :=
    match GetGlobalRepositorySettings ac with
    | Some g => if nonEmpty (BaseURL g) then Credentials g else afterGlobal
    | None => afterGlobal
    end in
  let afterVersion :=
    match cc_RepositorySettings chart with
    | Some cs => if nonEmpty (BaseURL cs) then Credentials cs else afterChart
    | None => afterChart
    end in
  match cv_RepositorySettings version with
  | Some vs => if nonEmpty (BaseURL vs) then Credentials vs else afterVersion
  | None => afterVersion
  end.

End v1alpha1.

(** ** The downstream resource (package appskubermaticv1 of the KKP SDK)

    Only the fields this program reads or writes are spelled out;
    [DefaultVersion] stands for the fields of the schema it never sets. *)

Module appskubermaticv1.

Definition HelmTemplateMethod : string := "helm".

Record HelmCredentials := {
  hc_Username : option v1alpha1.SecretKeySelector;
  hc_Password : option v1alpha1.SecretKeySelector;
  hc_RegistryConfigFile : option v1alpha1.SecretKeySelector
}.

Record HelmSource := {
  hs_ChartName : string;
  hs_ChartVersion : string;
  URL : string;
  hs_Credentials : option HelmCredentials
}.

Record ApplicationSource := { src_Helm : option HelmSource }.

Record ApplicationTemplate := { Source : ApplicationSource }.

Record ApplicationVersion := {
  Version : string;
  Template : ApplicationTemplate
}.

(** [Datacenters] is [None] for a nil slice. *)
Record DefaultingSelector := { Datacenters : option (list string) }.

Record ApplicationDefinitionSpec := {
  DisplayName : string;
  Description : string;
  Method : string;
  DefaultValuesBlock : string;
  DefaultVersion : string;
  Enforced : bool;
  Default : bool;
  Selector : DefaultingSelector;
  DocumentationURL : string;
  SourceURL : string;
  Logo : string;
  LogoFormat : string;
  Versions : list ApplicationVersion
}.

Record ApplicationDefinition := {
  Name : string;
  Labels : gmap string string;
  Annotations : gmap string string;
  Spec : ApplicationDefinitionSpec
}.

End appskubermaticv1.

(** ** Sorting

    [sort.Slice(s, less)] with [less] comparing a string key: the result is
    a permutation of the slice, ascending in the key.  The order Go leaves
    among entries of equal key is not specified, and [sort.Slice] is not
    stable.  [sortBy] is one such sort, the stable insertion sort: where no
    two entries share a key it is what every sort leaves, and only there
    is the place of an entry in its outcome a fact about the code. *)

Section Sorting.
Context {A : Type} (key : A → string).

Fixpoint insertBy (x : A) (l : list A) : list A :=
  match l with
  | [] => [x]
  | y :: l' => if String.ltb (key y) (key x) then y :: insertBy x l'
               else x :: y :: l'
  end.

Fixpoint sortBy (l : list A) : list A :=
  match l with
  | [] => []
  | x :: l' => insertBy x (sortBy l')
  end.

(** Ascending in the key: each entry's key is at most the next one's. *)
Definition ascendingBy (l : list A) : Prop :=
  Sorted (λ x y, String.le (key x) (key y)) l.

(** The last entry of the list that carries the key [k]. *)
Definition lastWithKey (k : string) (l : list A) : option A :=
  last (filter (λ x, key x = k) l).

(** The position of that entry. *)
Fixpoint lastIndexBy (k : string) (l : list A) : option nat :=
  match l with
  | [] => None
  | x :: l' =>
      match lastIndexBy k l' with
      | Some j => Some (S j)
      | None => if decide (key x = k) then Some 0 else None
      end
  end.

End Sorting.

(** ** The API server, as the client of controller-runtime sees it

    The server holds the catalogs and the application definitions, both
    cluster-scoped: each object is stored under its name.  [requests]
    records every write the program sends, in order.  The program is the
    only writer, so the object a patch was computed against is the object
    stored, and applying the patch stores the modified object.  The store
    answers every request: a call fails only for a name that is not found
    or exists already.  What else the real server refuses (an object whose
    name or label values are not valid, a transport failure) is outside
    this model, and a property that speaks of a call succeeding is a
    property of such a store. *)

Module client.
Import appskubermaticv1.

#[warnings="-register-all"]
Inductive error :=
| NotFound (name : string)
| AlreadyExists (name : string)
| Wrapped (context : string) (subject : string) (cause : error)
| RequeueAfter10Secs
| Aggregate (errs : list error).

Inductive Request :=
| CreateRequest (obj : ApplicationDefinition)
| PatchRequest (old new : ApplicationDefinition).

(** What the server keeps of an application definition under its name. *)
Record Stored := {
  st_Labels : gmap string string;
  st_Annotations : gmap string string;
  st_Spec : ApplicationDefinitionSpec
}.

Definition toObject (name : string) (s : Stored) : ApplicationDefinition :=
  {| Name := name; Labels := st_Labels s; Annotations := st_Annotations s;
     Spec := st_Spec s |}.

Definition toStored (o : ApplicationDefinition) : Stored :=
  {| st_Labels := Labels o; st_Annotations := Annotations o; st_Spec := Spec o |}.

Record Client := {
  catalogs : gmap string v1alpha1.ApplicationCatalog;
  objects : gmap string Stored;
  requests : list Request
}.

Definition send (c : Client) (objs : gmap string Stored) (r : Request) : Client :=
  {| catalogs := catalogs c; objects := objs; requests := requests c ++ [r] |}.

Definition Get (c : Client) (name : string) : option ApplicationDefinition :=
  toObject name <$> objects c !! name.

Definition Create (c : Client) (obj : ApplicationDefinition)
  : Client * option error :=
  match objects c !! Name obj with
  | Some _ => (send c (objects c) (CreateRequest obj), Some (AlreadyExists (Name obj)))
  | None =>
      (send c (<[Name obj := toStored obj]> (objects c)) (CreateRequest obj), None)
  end.

Definition Patch (c : Client) (old new : ApplicationDefinition)
  : Client * option error :=
  match objects c !! Name new with
  | Some _ =>
      (send c (<[Name new := toStored new]> (objects c)) (PatchRequest old new), None)
  | None => (send c (objects c) (PatchRequest old new), Some (NotFound (Name new)))
  end.

(** [labels.SelectorFromSet(labels.Set{key: value})] *)
Definition matchesLabel (key value : string) (o : ApplicationDefinition) : bool :=
  bool_decide (Labels o !! key = Some value).

Definition allObjects (c : Client) : list ApplicationDefinition :=
  (λ kv, toObject kv.1 kv.2) <$> map_to_list (objects c).

Definition List (c : Client) (key value : string) : list ApplicationDefinition :=
  filter (λ o, matchesLabel key value o = true) (allObjects c).

(** A patch request whose merge patch is empty changes nothing. *)
Definition emptyPatch (r : Request) : Prop :=
  match r with
  | PatchRequest old new => old = new
  | CreateRequest _ => False
  end.

(** [kerrors.NewAggregate]: nil when there is no error. *)
Definition NewAggregate (errs : list error) : option error :=
  match errs with
  | [] => None
  | _ => Some (Aggregate errs)
  end.

End client.

(** ** Package kubernetes *)

Module kubernetes.
Import appskubermaticv1 client.

Definition PatchObject (c : Client) (obj : ApplicationDefinition)
    (modify : option (ApplicationDefinition → ApplicationDefinition))
  : Client * option error :=
  match modify with
  | None => (c, None)
  | Some f =>
      let oldObj := obj in
      Patch c oldObj (f obj)
  end.

(** Modelled from the spec: [EnsureLabels] and [EnsureAnnotations] of this
    package are missing from the sources.  The reconciler calls them to
    put the ownership labels of the desired object on the existing one
    ("re-adding an entry with the same identity restores both labels"):
    every desired entry is set, every other entry of the object is kept. *)
Definition EnsureLabels (o : ApplicationDefinition) (toEnsure : gmap string string)
  : ApplicationDefinition :=
  {| Name := Name o; Labels := toEnsure ∪ Labels o;
     Annotations := Annotations o; Spec := Spec o |}.

(** Modelled from the spec: [EnsureAnnotations] is missing from the sources;
    it does for the annotations what [EnsureLabels] does for the labels. *)
Definition EnsureAnnotations (o : ApplicationDefinition)
    (toEnsure : gmap string string) : ApplicationDefinition :=
  {| Name := Name o; Labels := Labels o;
     Annotations := toEnsure ∪ Annotations o; Spec := Spec o |}.

End kubernetes.

(** ** Package synchronizer: converter and reconciler *)

Module synchronizer.
Import v1alpha1 appskubermaticv1 client.

Definition convertCredentials (creds : option RepositoryCredentials)
  : option HelmCredentials :=
  match creds with
  | None => None
  | Some cr =>
      Some {| hc_Username := rc_Username cr;
              hc_Password := rc_Password cr;
              hc_RegistryConfigFile := rc_RegistryConfigFile cr |}
  end.

Definition convertVersion (catalog : ApplicationCatalog) (chart : ChartConfig)
    (chartVersion : ChartVersion) : ApplicationVersion :=
  let url := ResolveChartURL catalog chart chartVersion in
  let creds := ResolveChartCredentials catalog chart chartVersion in
  {| Version := AppVersion chartVersion;
     Template := {| Source := {| src_Helm := Some
       {| hs_ChartName := ChartName chart;
          hs_ChartVersion := cv_ChartVersion chartVersion;
          URL := url;
          hs_Credentials :=
            match creds with
            | Some _ => convertCredentials creds
            | None => None
            end |} |} |} |}.

Definition convertVersions (catalog : ApplicationCatalog) (chart : ChartConfig)
  : list ApplicationVersion :=
  map (convertVersion catalog chart) (ChartVersions chart).

Definition metadataField (chart : ChartConfig) (f : ChartMetadata → string)
  : string :=
  match Metadata chart with
  | Some m => f m
  | None => EmptyString
  end.

Definition convertChartToApplicationDefinition (catalog : ApplicationCatalog)
    (chart : ChartConfig) : ApplicationDefinition :=
  let appName := GetAppName chart in
  {| Name := appName;
     Labels := {[ LabelManagedByApplicationCatalog := "true";
                  LabelApplicationCatalogName := ac_Name catalog ]};
     Annotations := ∅;
     Spec :=
       {| DisplayName := metadataField chart md_DisplayName;
          Description := metadataField chart md_Description;
          Method := HelmTemplateMethod;
          DefaultValuesBlock := cc_DefaultValuesBlock chart;
          DefaultVersion := EmptyString;
          Enforced := false;
          Default := false;
          Selector := {| Datacenters := None |};
          DocumentationURL := metadataField chart md_DocumentationURL;
          SourceURL := metadataField chart md_SourceURL;
          Logo := metadataField chart md_Logo;
          LogoFormat := metadataField chart md_LogoFormat;
          Versions := convertVersions catalog chart |} |}.

(** [for i, v := range existing { existingIndex[v.Version] = i }] *)
Fixpoint buildIndex (i : nat) (existing : list ApplicationVersion)
    (existingIndex : gmap string nat) : gmap string nat :=
  match existing with
  | [] => existingIndex
  | v :: rest => buildIndex (S i) rest (<[Version v := i]> existingIndex)
  end.

(** One iteration of the loop over [desired]: overwrite in place when the
    key is indexed, append otherwise. *)
Definition mergeStep (existingIndex : gmap string nat)
    (result : list ApplicationVersion) (d : ApplicationVersion)
  : list ApplicationVersion :=
  match existingIndex !! Version d with
  | Some idx => <[idx := d]> result
  | None => result ++ [d]
  end.

Definition mergeVersions (existing desired : list ApplicationVersion)
  : list ApplicationVersion :=
  match existing, desired with
  | [], _ => desired
  | _, [] => existing
  | _, _ =>
      let existingIndex := buildIndex 0 existing ∅ in
      foldl (mergeStep existingIndex) existing desired
  end.

(** [sort.Slice] of the versions with [less] on [Version]: one of the
    outcomes [spec.sortedByKey] admits (see the note on sorting above). *)
Definition sortVersions (vs : list ApplicationVersion) : list ApplicationVersion :=
  sortBy Version vs.

(** The spec that the closure passed to [PatchObject] assigns to
    [existing.Spec]: the desired spec after the preserved fields of the
    existing one have been promoted into it. *)
Definition mergedSpec (existing desired : ApplicationDefinitionSpec)
  : ApplicationDefinitionSpec :=
  {| DisplayName := DisplayName desired;
     Description := Description desired;
     Method := Method desired;
     DefaultValuesBlock :=
       if nonEmpty (DefaultValuesBlock existing)
          && negb (String.eqb (DefaultValuesBlock existing) "{}")
       then DefaultValuesBlock existing
       else DefaultValuesBlock desired;
     DefaultVersion := DefaultVersion desired;
     Enforced := if Enforced existing then true else Enforced desired;
     Default := if Default existing then true else Default desired;
     Selector :=
       match Datacenters (Selector existing) with
       | Some dcs => {| Datacenters := Some dcs |}
       | None => Selector desired
       end;
     DocumentationURL := DocumentationURL desired;
     SourceURL := SourceURL desired;
     Logo := Logo desired;
     LogoFormat := LogoFormat desired;
     Versions := sortVersions (mergeVersions (Versions existing) (Versions desired)) |}.

(** The closure passed to [PatchObject] by [updateApplicationDefinition]. *)
Definition updateModify (desired existing : ApplicationDefinition)
  : ApplicationDefinition :=
  let existing := kubernetes.EnsureLabels existing (Labels desired) in
  let existing := kubernetes.EnsureAnnotations existing (Annotations desired) in
  {| Name := Name existing; Labels := Labels existing;
     Annotations := Annotations existing;
     Spec := mergedSpec (Spec existing) (Spec desired) |}.

Definition updateApplicationDefinition (c : Client)
    (existing desired : ApplicationDefinition) : Client * option error :=
  kubernetes.PatchObject c existing (Some (updateModify desired)).

Definition isSystemApplication (appDef : ApplicationDefinition) : bool :=
  bool_decide (is_Some (Labels appDef !! "apps.kubermatic.k8c.io/managed-by")).

Definition reconcileApplicationDefinition (c : Client)
    (desired : ApplicationDefinition) : Client * option error :=
  match Get c (Name desired) with
  | None => Create c desired
  | Some existing =>
      if isSystemApplication existing then (c, None)
      else updateApplicationDefinition c existing desired
  end.

(** The closure passed to [PatchObject] by [removeManagedLabels]. *)
Definition removeLabels (appDef : ApplicationDefinition) : ApplicationDefinition :=
  {| Name := Name appDef;
     Labels := delete LabelApplicationCatalogName
                 (delete LabelManagedByApplicationCatalog (Labels appDef));
     Annotations := Annotations appDef;
     Spec := Spec appDef |}.

Definition removeManagedLabels (c : Client) (appDef : ApplicationDefinition)
  : Client * option error :=
  kubernetes.PatchObject c appDef (Some removeLabels).

(** [generatedApps == nil || !generatedApps[appDef.Name]] *)
Definition isOrphan (generatedApps : option (gset string))
    (appDef : ApplicationDefinition) : bool :=
  match generatedApps with
  | None => true
  | Some apps => bool_decide (Name appDef ∉ apps)
  end.

(** The loop of [unmanageOrphans] over the listed items. *)
Fixpoint unmanageItems (generatedApps : option (gset string))
    (items : list ApplicationDefinition) (c : Client) (errs : list error)
  : Client * list error :=
  match items with
  | [] => (c, errs)
  | appDef :: rest =>
      if isOrphan generatedApps appDef then
        let (c', err) := removeManagedLabels c appDef in
        unmanageItems generatedApps rest c'
          match err with
          | Some e => errs ++ [Wrapped "failed to unmanage" (Name appDef) e]
          | None => errs
          end
      else unmanageItems generatedApps rest c errs
  end.

Definition unmanageOrphans (c : Client) (catalogName : string)
    (generatedApps : option (gset string)) : Client * option error :=
  let items := List c LabelApplicationCatalogName catalogName in
  let (c', errs) := unmanageItems generatedApps items c [] in
  (c', NewAggregate errs).

Definition handleDeletion (c : Client) (catalogName : string)
  : Client * option error :=
  unmanageOrphans c catalogName None.

(** The loop of [reconcile] over the charts. *)
Fixpoint reconcileCharts (catalog : ApplicationCatalog) (charts : list ChartConfig)
    (c : Client) (errs : list error) (generatedApps : gset string)
  : Client * list error * gset string :=
  match charts with
  | [] => (c, errs, generatedApps)
  | chart :: rest =>
      let desired := convertChartToApplicationDefinition catalog chart in
      let generatedApps := {[ Name desired ]} ∪ generatedApps in
      let (c', err) := reconcileApplicationDefinition c desired in
      reconcileCharts catalog rest c'
        match err with
        | Some e => errs ++ [Wrapped "chart" (ChartName chart) e]
        | None => errs
        end
        generatedApps
  end.

Definition includesDefaults (catalog : ApplicationCatalog) : bool :=
  match Helm catalog with
  | Some h => IncludeDefaults h
  | None => false
  end.

Definition reconcile (c : Client) (name : string) : Client * option error :=
  match catalogs c !! name with
  | None => handleDeletion c name
  | Some catalog =>
      match GetHelmCharts catalog, includesDefaults catalog with
      | None, true => (c, Some RequeueAfter10Secs)
      | charts, _ =>
          let charts := default [] charts in
          let '(c1, errs, generatedApps) := reconcileCharts catalog charts c [] ∅ in
          let (c2, err) := unmanageOrphans c1 (ac_Name catalog) (Some generatedApps) in
          let errs := match err with Some e => errs ++ [e] | None => errs end in
          (c2, NewAggregate errs)
      end
  end.

End synchronizer.

(** ** The functions of Go's [strings] and [fmt] that the webhooks use *)

Module gostrings.

(** White space as [unicode.IsSpace] has it: the runes U+0009 to U+000D,
    U+0020, U+0085, U+00A0, U+1680, U+2000 to U+200A, U+2028, U+2029,
    U+202F, U+205F and U+3000, each as the bytes of its UTF-8 encoding.  A
    Go string is a sequence of bytes; no encoding of one of these runes
    starts another, and none ends another. *)
Definition spaceRunes : list (list nat) :=
  [[9]; [10]; [11]; [12]; [13]; [32]; [194; 133]; [194; 160];
   [225; 154; 128];
   [226; 128; 128]; [226; 128; 129]; [226; 128; 130]; [226; 128; 131];
   [226; 128; 132]; [226; 128; 133]; [226; 128; 134]; [226; 128; 135];
   [226; 128; 136]; [226; 128; 137]; [226; 128; 138];
   [226; 128; 168]; [226; 128; 169]; [226; 128; 175];
   [226; 129; 159]; [227; 128; 128]].

Definition runeBytes (rune : list nat) : list ascii := ascii_of_nat <$> rune.

(** The rest of [l] after the bytes [p], when [l] starts with them. *)
Fixpoint stripPrefix (p l : list ascii) : option (list ascii) :=
  match p with
  | [] => Some l
  | a :: p' =>
      match l with
      | b :: l' => if Ascii.eqb a b then stripPrefix p' l' else None
      | [] => None
      end
  end.

(** The rest of [l] after its first rune, when that rune is one of
    [runes]. *)
Definition afterRune (runes : list (list ascii)) (l : list ascii)
  : option (list ascii) :=
  head (omap (λ p, stripPrefix p l) runes).

(** The runes of [runes] are dropped from the start for as long as there
    is one; [n] bounds their number. *)
Fixpoint trimLeading (runes : list (list ascii)) (n : nat) (l : list ascii)
  : list ascii :=
  match n with
  | 0 => l
  | S n' =>
      match afterRune runes l with
      | Some rest => trimLeading runes n' rest
      | None => l
      end
  end.

(** The white space of the start goes, rune by rune. *)
Definition trimLeft (l : list ascii) : list ascii :=
  trimLeading (runeBytes <$> spaceRunes) (length l) l.

(** The white space of the end goes, rune by rune: read from the end, a
    rune is its bytes in reverse. *)
Definition trimRight (l : list ascii) : list ascii :=
  reverse (trimLeading ((λ rune, reverse (runeBytes rune)) <$> spaceRunes)
             (length l) (reverse l)).

(** [strings.TrimSpace] *)
Definition TrimSpace (s : string) : string :=
  string_of_list_ascii (trimRight (trimLeft (list_ascii_of_string s))).

(** [strings.Split(s, sep)] for a one-byte separator: [n] separators give
    [n + 1] fields, empty ones included. *)
Fixpoint Split (sep : ascii) (s : string) : list string :=
  match s with
  | EmptyString => [EmptyString]
  | String a s' =>
      if Ascii.eqb a sep then EmptyString :: Split sep s'
      else match Split sep s' with
           | field :: fields => String a field :: fields
           | [] => [String a EmptyString]
           end
  end.

(** [fmt.Sprintf("%v", names)] for a slice of strings. *)
Definition formatStrings (names : list string) : string :=
  String.append "[" (String.append (String.concat " " names) "]").

(** [s] occurs in [t]. *)
Definition occursIn (s t : string) : Prop :=
  ∃ before after, t = String.append before (String.append s after).

End gostrings.

(** ** Package defaulting

    The package (the built-in table, [GetDefaultCharts],
    [GetDefaultChartNames], [ValidateIncludeAnnotation] and
    [DefaultApplicationCatalog]) is missing from the sources; only its unit
    tests and its callers are there.  Its definitions are modelled from the
    behaviour table of the specification.  For an absent list with
    [includeDefaults] false or omitted the table has the built-in set
    injected, and so have the doc comments of [HelmSpec.Charts] and of
    package mutation ("If nil/omitted, the webhook will inject default
    charts") and the end-to-end test of a catalog without helm block; the
    unit test "includeDefaults=false, charts=nil" of the missing package
    expects no injection for a helm block without list, and is not
    followed.

    [defaultCharts] is the built-in table.  [ident] is the name that
    identifies an entry, for the filter, the merge and the order alike: the
    specification calls it the identity name, the user guide the chart
    name, and the properties below hold for either. *)

Module defaulting.
Import v1alpha1.

Section WithTable.
Variable ident : ChartConfig → string.
Variable defaultCharts : list ChartConfig.

Definition includeAnnotation : string := "defaultcatalog.k8c.io/include".

Definition sortCharts (charts : list ChartConfig) : list ChartConfig :=
  sortBy ident charts.

(** Modelled from the spec: [GetDefaultCharts] is missing from the sources.
    It returns the built-in set, sorted by name. *)
Definition GetDefaultCharts : list ChartConfig := sortCharts defaultCharts.

(** Modelled from the spec: [GetDefaultChartNames] is missing from the
    sources.  It returns the names of the built-in set, the valid set of
    the validator. *)
Definition GetDefaultChartNames : list string := ident <$> GetDefaultCharts.

(** Comma-separated identifiers, each trimmed of white space; the empty
    value stands for no filter. *)
Definition parseIncludeAnnotation (annotation : string) : list string :=
  gostrings.TrimSpace <$> gostrings.Split "," annotation.

(** Modelled from the spec: [ValidateIncludeAnnotation] is missing from the
    sources.  It returns the identifiers of the annotation that name no
    built-in default; an empty annotation is no filter and has none. *)
Definition ValidateIncludeAnnotation (annotation : string) : list string :=
  if nonEmpty annotation then
    filter (λ name, name ∉ GetDefaultChartNames) (parseIncludeAnnotation annotation)
  else [].

Definition filterDefaultsByName (charts : list ChartConfig)
    (includeList : list string) : list ChartConfig :=
  filter (λ chart, ident chart ∈ includeList) charts.

(** Modelled from the spec: the filter of [DefaultApplicationCatalog] is
    missing from the sources.  The built-in defaults the annotation
    selects, sorted by name; unknown identifiers select nothing. *)
Definition filteredDefaults (catalog : ApplicationCatalog) : list ChartConfig :=
  let annotation := default EmptyString (ac_Annotations catalog !! includeAnnotation) in
  sortCharts
    (if nonEmpty annotation
     then filterDefaultsByName GetDefaultCharts (parseIncludeAnnotation annotation)
     else GetDefaultCharts).

Definition overwrite (entries : gmap string ChartConfig) (chart : ChartConfig)
  : gmap string ChartConfig :=
  <[ident chart := chart]> entries.

(** Modelled from the spec: the merge of [DefaultApplicationCatalog] is
    missing from the sources.  Start from the defaults, overwrite by name
    with every user entry (the whole entry, not field by field), sort the
    outcome by name. *)
Definition mergeCharts (userCharts defaults : list ChartConfig) : list ChartConfig :=
  let entries := foldl overwrite (foldl overwrite ∅ defaults) userCharts in
  sortCharts (snd <$> map_to_list entries).

Definition withCharts (catalog : ApplicationCatalog) (charts : list ChartConfig)
  : ApplicationCatalog :=
  {| ac_Name := ac_Name catalog;
     ac_Annotations := ac_Annotations catalog;
     Helm := Some
       {| hs_RepositorySettings := GetGlobalRepositorySettings catalog;
          Charts := Some charts;
          IncludeDefaults := match Helm catalog with
                             | Some h => IncludeDefaults h
                             | None => false
                             end |} |}.

(** Modelled from the spec: [DefaultApplicationCatalog] is missing from the
    sources.  The cases are the four rows of the behaviour table of the
    specification: with [includeDefaults] false or omitted the built-in
    set is injected when the list is absent (there is no helm block, or
    its list is nil) and the catalog is returned as it is otherwise; with
    [includeDefaults] true an absent or empty list is replaced by the
    filtered defaults and a populated one is merged with them. *)
Definition DefaultApplicationCatalog (catalog : ApplicationCatalog)
  : ApplicationCatalog :=
  match Helm catalog with
  | None => withCharts catalog GetDefaultCharts
  | Some helm =>
      if IncludeDefaults helm then
        match Charts helm with
        | None | Some [] => withCharts catalog (filteredDefaults catalog)
        | Some userCharts =>
            withCharts catalog (mergeCharts userCharts (filteredDefaults catalog))
        end
      else
        match Charts helm with
        | None => withCharts catalog GetDefaultCharts
        | Some _ => catalog
        end
  end.

End WithTable.
End defaulting.

(** ** Admission requests and responses (controller-runtime) *)

Module admission.

(** [admissionv1.Operation] is a string type. *)
Definition Create : string := "CREATE".
Definition Update : string := "UPDATE".
Definition Delete : string := "DELETE".
Definition Connect : string := "CONNECT".

Record Request := {
  UID : string;
  req_Name : string;
  Operation : string;
  Object : string
}.

Inductive Response :=
| Allowed (message : string)
| Denied (message : string)
| Errored (code : nat) (message : string)
| PatchResponseFromRaw (original : string) (mutated : v1alpha1.ApplicationCatalog).

(** The response lets the request through. *)
Definition allows (r : Response) : bool :=
  match r with
  | Allowed _ | PatchResponseFromRaw _ _ => true
  | Denied _ | Errored _ _ => false
  end.

(** The decoder of a handler: the catalog in the request, or an error. *)
Definition Decoder : Type := Request → v1alpha1.ApplicationCatalog + string.

End admission.

(** ** Package validation: the validating webhook

    [quote] is [%q] of [fmt].  Listing the downstream resources cannot fail
    in this model of the API server, so [detectConflicts] returns its
    conflicts only and the response for a failed listing does not occur. *)

Module validation.
Import v1alpha1 appskubermaticv1 client admission.

Record ConflictInfo := {
  AppDefName : string;
  OwnerCatalog : string
}.

Record AdmissionHandler := {
  decoder : Decoder;
  h_client : Client
}.

Section WithFormat.
Variable quote : string → string.
Variable ident : ChartConfig → string.
Variable defaultCharts : list ChartConfig.

Definition duplicateOwner (existingChart chartName : string) : string :=
  String.concat EmptyString
    ["this catalog (duplicate: charts "; quote existingChart; " and ";
     quote chartName; " resolve to same appName)"].

(** The loop over the charts that fills [appNames] and reports the
    duplicates inside the catalog. *)
Fixpoint collectAppNames (charts : list ChartConfig)
    (appNames : gmap string string) (conflicts : list ConflictInfo)
  : gmap string string * list ConflictInfo :=
  match charts with
  | [] => (appNames, conflicts)
  | chart :: rest =>
      let appName := GetAppName chart in
      match appNames !! appName with
      | Some existingChart =>
          collectAppNames rest appNames
            (conflicts ++ [{| AppDefName := appName;
                              OwnerCatalog := duplicateOwner existingChart (ChartName chart) |}])
      | None => collectAppNames rest (<[appName := ChartName chart]> appNames) conflicts
      end
  end.

(** The loop over the listed items that fills [existing]. *)
Definition indexExisting (appNames : gmap string string)
    (items : list ApplicationDefinition) : gmap string ApplicationDefinition :=
  foldl (λ existing appDef,
           match appNames !! Name appDef with
           | Some _ => <[Name appDef := appDef]> existing
           | None => existing
           end) ∅ items.

(** One iteration of the loop over [appNames]. *)
Definition externalConflict (catalog : ApplicationCatalog)
    (existing : gmap string ApplicationDefinition) (appName : string)
  : option ConflictInfo :=
  match existing !! appName with
  | None => None
  | Some appDef =>
      let owner := default EmptyString (Labels appDef !! LabelApplicationCatalogName) in
      if String.eqb owner EmptyString || String.eqb owner (ac_Name catalog)
      then None
      else Some {| AppDefName := appName; OwnerCatalog := owner |}
  end.

(** Go ranges over the map [appNames] in no fixed order; the order of the
    conflicts reported after the duplicates is the order of this list. *)
Definition detectConflicts (c : Client) (catalog : ApplicationCatalog)
  : list ConflictInfo :=
  match default [] (GetHelmCharts catalog) with
  | [] => []
  | charts =>
      let (appNames, conflicts) := collectAppNames charts ∅ [] in
      let items := List c LabelManagedByApplicationCatalog "true" in
      let existing := indexExisting appNames items in
      conflicts ++ omap (externalConflict catalog existing) (map_to_list appNames).*1
  end.

Definition conflictLine (c : ConflictInfo) : string :=
  String.concat EmptyString
    ["  - ApplicationDefinition "; quote (AppDefName c);
     " is already managed by catalog "; quote (OwnerCatalog c); "
"].

Definition formatConflictMessage (conflicts : list ConflictInfo) : string :=
  match conflicts with
  | [] => EmptyString
  | _ =>
      String.concat EmptyString
        ["ApplicationCatalog conflicts detected:
";
         String.concat EmptyString (conflictLine <$> conflicts);
         "
To resolve this conflict, either:
";
         "  1. Remove the conflicting chart from this catalog
";
         "  2. Use a different appName in metadata.appName for the chart
";
         "  3. Delete the other catalog or remove the chart from it first"]
  end.

Definition invalidNamesMessage (invalidNames validNames : list string) : string :=
  String.concat EmptyString
    ["invalid chart names in annotation defaultcatalog.k8c.io/include: ";
     gostrings.formatStrings invalidNames; ". Valid names are: ";
     gostrings.formatStrings validNames].

Definition handleValidation (h : AdmissionHandler) (req : Request) : Response :=
  match decoder h req with
  | inr err => Errored 400 (String.append "failed to decode request: " err)
  | inl catalog =>
      let invalidNames :=
        match Helm catalog with
        | Some helm =>
            if IncludeDefaults helm then
              let annotation :=
                default EmptyString
                  (ac_Annotations catalog !! defaulting.includeAnnotation) in
              defaulting.ValidateIncludeAnnotation ident defaultCharts annotation
            else []
        | None => []
        end in
      match invalidNames with
      | _ :: _ =>
          Denied (invalidNamesMessage invalidNames
                    (defaulting.GetDefaultChartNames ident defaultCharts))
      | [] =>
          match detectConflicts (h_client h) catalog with
          | [] => Allowed "no conflicts detected"
          | conflicts => Denied (formatConflictMessage conflicts)
          end
      end
  end.

Definition Handle (h : AdmissionHandler) (req : Request) : Response :=
  if String.eqb (Operation req) Create || String.eqb (Operation req) Update
  then handleValidation h req
  else if String.eqb (Operation req) Delete
  then Allowed "delete operations do not require validation"
  else Allowed (String.append (quote (Operation req))
                  " operations do not require validation").

End WithFormat.
End validation.

(** ** Package mutation: the mutating webhook

    The response carries the defaulted catalog, from which
    [PatchResponseFromRaw] derives the patch; marshalling the catalog does
    not fail. *)

Module mutation.
Import v1alpha1 admission.

Record AdmissionHandler := { decoder : Decoder }.

Section WithFormat.
Variable quote : string → string.
Variable ident : ChartConfig → string.
Variable defaultCharts : list ChartConfig.

Definition handleMutation (h : AdmissionHandler) (req : Request) : Response :=
  match decoder h req with
  | inr err => Errored 400 (String.append "failed to decode request: " err)
  | inl catalog =>
      let catalog := defaulting.DefaultApplicationCatalog ident defaultCharts catalog in
      PatchResponseFromRaw (Object req) catalog
  end.

Definition Handle (h : AdmissionHandler) (req : Request) : Response :=
  if String.eqb (Operation req) Create || String.eqb (Operation req) Update
  then handleMutation h req
  else Allowed (String.append (quote (Operation req))
                  " operations do not require mutation").

End WithFormat.
End mutation.

(** ** The statements of the specification, as definitions *)

Module spec.
Import v1alpha1 appskubermaticv1 client.

(** The layers of repository settings of a chart version, strongest first:
    the settings of the version, those of the chart, and the global ones,
    which are the repository settings of the catalog's helm block. *)
Definition layers (ac : ApplicationCatalog) (chart : ChartConfig)
    (version : ChartVersion) : list (option RepositorySettings) :=
  [cv_RepositorySettings version; cc_RepositorySettings chart;
   match Helm ac with
   | Some helm => hs_RepositorySettings helm
   | None => None
   end].

(** A layer counts when its settings are present with a non-empty URL. *)
Definition counts (layer : option RepositorySettings) : bool :=
  match layer with
  | Some s => nonEmpty (BaseURL s)
  | None => false
  end.

(** The first layer that counts, if any. *)
Fixpoint winningLayer (ls : list (option RepositorySettings))
  : option RepositorySettings :=
  match ls with
  | [] => None
  | layer :: rest => if counts layer then layer else winningLayer rest
  end.

(** What unmanaging leaves of a stored object: the two ownership labels
    are gone, every other label, the annotations and the spec are as they
    were. *)
Definition stripped (s : Stored) : Stored :=
  {| st_Labels := delete LabelApplicationCatalogName
                    (delete LabelManagedByApplicationCatalog (st_Labels s));
     st_Annotations := st_Annotations s;
     st_Spec := st_Spec s |}.

(** The object stored under [name] is labelled with the catalog as its
    owner and is not among the identities produced in this pass (on
    deletion of the catalog there is no such set). *)
Definition orphanOf (catalogName : string) (generatedApps : option (gset string))
    (name : string) (s : Stored) : bool :=
  bool_decide (st_Labels s !! LabelApplicationCatalogName = Some catalogName)
  && match generatedApps with
     | None => true
     | Some apps => bool_decide (name ∉ apps)
     end.

(** A resource that another catalog owns under an identity the incoming
    catalog produces: it carries the managed-by label with the value
    "true", and its catalog-name label is non-empty and differs from the
    name of the incoming catalog. *)
Definition crossConflict (c : Client) (catalog : ApplicationCatalog)
    (appName owner : string) : Prop :=
  (∃ chart, chart ∈ default [] (GetHelmCharts catalog) ∧ GetAppName chart = appName)
  ∧ ∃ s, objects c !! appName = Some s
         ∧ st_Labels s !! LabelManagedByApplicationCatalog = Some "true"
         ∧ st_Labels s !! LabelApplicationCatalogName = Some owner
         ∧ owner ≠ EmptyString
         ∧ owner ≠ ac_Name catalog.

(** The merge of the defaulting engine as the claim words it: each default
    that collides with a user entry is replaced by that entry, the user
    entries that collide with no default are appended, the outcome is
    sorted by name. *)
Definition claimedMerge (ident : ChartConfig → string)
    (userCharts defaults : list ChartConfig) : list ChartConfig :=
  sortBy ident
    (((λ d, default d (lastWithKey ident (ident d) userCharts)) <$> defaults)
     ++ filter (λ u, ident u ∉ ident <$> defaults) userCharts).

(** [includeDefaults] is false or omitted. *)
Definition withoutDefaults (catalog : ApplicationCatalog) : Prop :=
  match Helm catalog with
  | Some helm => IncludeDefaults helm = false
  | None => True
  end.

(** The entry list of the catalog is absent: there is no helm block, or
    its list is nil. *)
Definition listAbsent (catalog : ApplicationCatalog) : Prop :=
  match Helm catalog with
  | Some helm => Charts helm = None
  | None => True
  end.

(** What a sort of the versions by their key may leave: a rearrangement
    that is ascending in the key.  Nothing is said of the order among
    entries of one key. *)
Definition sortedByKey (vs sorted : list ApplicationVersion) : Prop :=
  sorted ≡ₚ vs ∧ ascendingBy Version sorted.

(** What the denial says of a conflict: the identity and the owner, each
    quoted. *)
Definition conflictText (quote : string → string) (appName owner : string)
  : string :=
  String.append "ApplicationDefinition "
    (String.append (quote appName)
       (String.append " is already managed by catalog " (quote owner))).

(** The owner named for a duplicate inside the catalog: both source chart
    names, each quoted. *)
Definition duplicateText (quote : string → string) (first second : string)
  : string :=
  String.append "this catalog (duplicate: charts "
    (String.append (quote first)
       (String.append " and "
          (String.append (quote second) " resolve to same appName)"))).

(** Every byte of the string passes the test. *)
Fixpoint allBytes (test : ascii → bool) (s : string) : bool :=
  match s with
  | EmptyString => true
  | String a s' => test a && allBytes test s'
  end.

(** Blank: space, tab, line feed, vertical tab, form feed, carriage
    return. *)
Definition blankByte (a : ascii) : bool :=
  let n := nat_of_ascii a in
  (n =? 32)%nat || ((9 <=? n)%nat && (n <=? 13)%nat).

(** A byte of an identifier: printable ASCII, neither blank nor a comma. *)
Definition identifierByte (a : ascii) : bool :=
  let n := nat_of_ascii a in
  (33 <=? n)%nat && (n <=? 126)%nat && negb (n =? 44)%nat.

(** One field of the filter annotation as it is written: an identifier,
    not empty, between two stretches of blanks. *)
Record Field := {
  before : string;
  identifier : string;
  after : string
}.

Definition wellWritten (field : Field) : Prop :=
  allBytes blankByte (before field) = true
  ∧ identifier field ≠ EmptyString
  ∧ allBytes identifierByte (identifier field) = true
  ∧ allBytes blankByte (after field) = true.

(** The annotation in which the fields are written one after the other,
    separated by commas; no field at all is the empty value. *)
Definition written (fields : list Field) : string :=
  String.concat ","
    ((λ field,
        String.append (before field)
          (String.append (identifier field) (after field))) <$> fields).

End spec.

(** ** Sample data *)

Module sample.
Import v1alpha1 appskubermaticv1 client admission.

(** [%q] on strings of printable ASCII: the string between double quotes,
    with a backslash before each double quote and each backslash in it. *)
Fixpoint escape (s : string) : string :=
  match s with
  | EmptyString => EmptyString
  | String a s' =>
      if Ascii.eqb a "034" || Ascii.eqb a "092"
      then String "092" (String a (escape s'))
      else String a (escape s')
  end.

Definition quote (s : string) : string :=
  String "034" (String.append (escape s) (String "034" EmptyString)).

Definition noDecoder : Decoder := λ _, inr "no object".

Definition emptyClient : Client :=
  {| catalogs := ∅; objects := ∅; requests := [] |}.

Definition deleteRequest : Request :=
  {| UID := "1"; req_Name := "c1"; Operation := Delete; Object := EmptyString |}.

Definition nginxChart : ChartConfig :=
  {| ChartName := "nginx"; Metadata := None; cc_RepositorySettings := None;
     cc_DefaultValuesBlock := "replicas: 1";
     ChartVersions :=
       [{| cv_ChartVersion := "1.0.0"; AppVersion := "v1.0.0";
           cv_RepositorySettings := None |}] |}.

Definition catalogC2 : ApplicationCatalog :=
  {| ac_Name := "c2"; ac_Annotations := ∅;
     Helm := Some {| hs_RepositorySettings := None;
                     Charts := Some [nginxChart];
                     IncludeDefaults := false |} |}.

(** The downstream resource of [nginxChart] after a user has edited its
    default-values block. *)
Definition editedNginx : ApplicationDefinition :=
  let converted := synchronizer.convertChartToApplicationDefinition catalogC2 nginxChart in
  {| Name := Name converted; Labels := Labels converted;
     Annotations := Annotations converted;
     Spec :=
       {| DisplayName := EmptyString; Description := EmptyString;
          Method := HelmTemplateMethod;
          DefaultValuesBlock := "replicas: 5";
          DefaultVersion := EmptyString;
          Enforced := true; Default := false;
          Selector := {| Datacenters := Some ["dc-1"] |};
          DocumentationURL := EmptyString; SourceURL := EmptyString;
          Logo := EmptyString; LogoFormat := EmptyString;
          Versions := Versions (Spec converted) |} |}.

Definition clientWithEditedNginx : Client :=
  {| catalogs := {[ "c2" := catalogC2 ]};
     objects := {[ "nginx" := toStored editedNginx ]};
     requests := [] |}.

(** Two entries that collapse to the identity "nginx". *)
Definition duplicateCatalog : ApplicationCatalog :=
  {| ac_Name := "c3"; ac_Annotations := ∅;
     Helm := Some {| hs_RepositorySettings := None;
                     Charts := Some [nginxChart; nginxChart];
                     IncludeDefaults := false |} |}.

(** A small table standing for the built-in one. *)
Definition plainChart (name : string) : ChartConfig :=
  {| ChartName := name; Metadata := None; cc_RepositorySettings := None;
     cc_DefaultValuesBlock := EmptyString;
     ChartVersions :=
       [{| cv_ChartVersion := "1.0.0"; AppVersion := "v1.0.0";
           cv_RepositorySettings := None |}] |}.

Definition defaultCharts : list ChartConfig :=
  [plainChart "ingress-nginx"; plainChart "argo-cd"; plainChart "cert-manager"].

Definition syncedCatalog (annotation : option string)
    (charts : option (list ChartConfig)) : ApplicationCatalog :=
  {| ac_Name := "test-catalog";
     ac_Annotations :=
       match annotation with
       | Some a => {[ defaulting.includeAnnotation := a ]}
       | None => ∅
       end;
     Helm := Some {| hs_RepositorySettings := None; Charts := charts;
                     IncludeDefaults := true |} |}.

(** Two user entries of one name that is no default name. *)
Definition twiceMyApp : list ChartConfig :=
  [plainChart "my-app";
   {| ChartName := "my-app"; Metadata := None; cc_RepositorySettings := None;
      cc_DefaultValuesBlock := "replicas: 2"; ChartVersions := [] |}].

(** The catalog of the unit test "includeDefaults=false, charts=nil". *)
Definition unsyncedCatalog : ApplicationCatalog :=
  {| ac_Name := "test-catalog"; ac_Annotations := ∅;
     Helm := Some {| hs_RepositorySettings := None; Charts := None;
                     IncludeDefaults := false |} |}.

Definition version (v : string) (url : string) : ApplicationVersion :=
  {| Version := v;
     Template := {| Source := {| src_Helm := Some
       {| hs_ChartName := EmptyString; hs_ChartVersion := EmptyString;
          URL := url; hs_Credentials := None |} |} |} |}.

(** A catalog without a helm block. *)
Definition catalogC1 : ApplicationCatalog :=
  {| ac_Name := "c1"; ac_Annotations := ∅; Helm := None |}.

(** A chart that lists its versions newest first, as the built-in charts
    do, in a catalog of its own on a cluster without downstream resources. *)
Definition aikitChart : ChartConfig :=
  {| ChartName := "aikit"; Metadata := None; cc_RepositorySettings := None;
     cc_DefaultValuesBlock := EmptyString;
     ChartVersions :=
       [{| cv_ChartVersion := "0.18.0"; AppVersion := "v0.18.0";
           cv_RepositorySettings := None |};
        {| cv_ChartVersion := "0.16.0"; AppVersion := "v0.16.0";
           cv_RepositorySettings := None |}] |}.

Definition catalogC4 : ApplicationCatalog :=
  {| ac_Name := "c4"; ac_Annotations := ∅;
     Helm := Some {| hs_RepositorySettings := None;
                     Charts := Some [aikitChart];
                     IncludeDefaults := false |} |}.

Definition freshCluster : Client :=
  {| catalogs := {[ "c4" := catalogC4 ]}; objects := ∅; requests := [] |}.

(** A catalog that declares the identity "nginx" as well. *)
Definition catalogC3 : ApplicationCatalog :=
  {| ac_Name := "c3"; ac_Annotations := ∅;
     Helm := Some {| hs_RepositorySettings := None;
                     Charts := Some [nginxChart];
                     IncludeDefaults := false |} |}.

Definition createRequest : Request :=
  {| UID := "2"; req_Name := "c3"; Operation := Create; Object := EmptyString |}.

End sample.

(** ** The controller around the reconciler (package synchronizer)

    [time.Duration] is a signed count of nanoseconds.  The logger of the
    configuration matters only through being nil or not. *)

Module controller.
Import client.

Definition Second : Z := 1000000000.
Definition Minute : Z := 60 * Second.

Record ControllerConfig := {
  Log : option unit;
  ReconciliationInterval : Z
}.

Definition validate (cfg : ControllerConfig) : option string :=
  match Log cfg with
  | None => Some "log cannot be nil"
  | Some _ =>
      if (ReconciliationInterval cfg <? 0)%Z
      then Some "reconciliation interval must be a non-negative duration"
      else None
  end.

(** [Add] checks the configuration and then builds the controller with the
    manager.  [build] is what [builder...Build(reconciler)] returns for the
    configuration, nil or an error; [Add] returns it as it is. *)
Definition Add (build : ControllerConfig → option string)
    (cfg : option ControllerConfig) : option string :=
  match cfg with
  | None => Some "failed to instantiate controller: config is nil"
  | Some cfg =>
      match validate cfg with
      | Some err => Some (String.append "failed to instantiate controller: " err)
      | None => build cfg
      end
  end.

(** [reconcile.Result] *)
Record Result := { RequeueAfter : Z }.

(** [errors.Is(err, errRequeueAfter10Secs)]: the error itself, the cause of
    a wrapped error, or a member of an aggregate. *)
Fixpoint isRequeueAfter10Secs (err : error) : bool :=
  match err with
  | RequeueAfter10Secs => true
  | Wrapped _ _ cause => isRequeueAfter10Secs cause
  | Aggregate errs =>
      (fix any (l : list error) : bool :=
         match l with
         | [] => false
         | e :: l' => isRequeueAfter10Secs e || any l'
         end) errs
  | NotFound _ | AlreadyExists _ => false
  end.

Definition Reconcile (cfg : ControllerConfig) (c : Client) (name : string)
  : Client * Result * option error :=
  let (c', err) := synchronizer.reconcile c name in
  match err with
  | Some e =>
      if isRequeueAfter10Secs e
      then (c', {| RequeueAfter := 10 * Second |}, None)
      else (c', {| RequeueAfter := 0 |}, Some e)
  | None =>
      if (0 <? ReconciliationInterval cfg)%Z
      then (c', {| RequeueAfter := ReconciliationInterval cfg |}, None)
      else (c', {| RequeueAfter := 0 |}, None)
  end.

End controller.

(** ** Package log: the format flag

    [Format] is a string type.  [strings.ToLower] is modelled on bytes: the
    ASCII capitals are lowered, every other byte is kept, which decides the
    comparison with "json" and "console" as Go does. *)

Module aclog.

Definition FormatJSON : string := "JSON".
Definition FormatConsole : string := "Console".
Definition AvailableFormats : list string := [FormatJSON; FormatConsole].

Definition lowerAscii (a : ascii) : ascii :=
  let n := nat_of_ascii a in
  if (65 <=? n)%nat && (n <=? 90)%nat then ascii_of_nat (n + 32) else a.

Fixpoint ToLower (s : string) : string :=
  match s with
  | EmptyString => EmptyString
  | String a s' => String (lowerAscii a) (ToLower s')
  end.

(** The method [Set] of [Format]: the new value of the format, or the error. *)
Definition Set_ (f : string) (s : string) : string * option string :=
  let lowered := ToLower s in
  if String.eqb lowered "json" then (FormatJSON, None)
  else if String.eqb lowered "console" then (FormatConsole, None)
  else (f, Some (String.append "invalid format '" (String.append s "'"))).

Record Options := {
  Debug : bool;
  Format : string
}.

Definition NewDefaultOptions : Options := {| Debug := false; Format := FormatJSON |}.

(** The method [Validate] of [Options]: nil when the format is an available
    one.  [quote] is [%q] of [fmt]. *)
Definition Validate (quote : string → string) (o : Options) : option string :=
  if existsb (String.eqb (Format o)) AvailableFormats then None
  else Some (String.concat EmptyString
               ["invalid log-format specified "; quote (Format o);
                "; available: "; gostrings.formatStrings AvailableFormats]).


End aclog.

(** ** Outcomes of a reconciliation, as definitions *)

Module outcome.
Import v1alpha1 appskubermaticv1 client synchronizer.

(** What one call of [reconcileApplicationDefinition] leaves under the name
    of the desired object, given what was there: the desired object when
    there was none, the object itself when it is a system application, the
    updated object otherwise. *)
Definition reconciled (desired : ApplicationDefinition) (found : option Stored)
  : Stored :=
  match found with
  | None => toStored desired
  | Some s =>
      if isSystemApplication (toObject (Name desired) s) then s
      else toStored (updateModify desired (toObject (Name desired) s))
  end.

(** The requests that call sends. *)
Definition requested (desired : ApplicationDefinition) (found : option Stored)
  : list Request :=
  match found with
  | None => [CreateRequest desired]
  | Some s =>
      if isSystemApplication (toObject (Name desired) s) then []
      else [PatchRequest (toObject (Name desired) s)
              (updateModify desired (toObject (Name desired) s))]
  end.

(** The store after the loop of [reconcile] over the charts. *)
Definition afterCharts (catalog : ApplicationCatalog) (charts : list ChartConfig)
    (objs : gmap string Stored) : gmap string Stored :=
  foldl (λ m chart,
           let desired := convertChartToApplicationDefinition catalog chart in
           <[Name desired := reconciled desired (m !! Name desired)]> m)
    objs charts.

(** The identities a catalog produces. *)
Definition identities (charts : list ChartConfig) : list string :=
  GetAppName <$> charts.

(** The charts [reconcile] ranges over: none when the getter returns nil. *)
Definition chartsOf (catalog : ApplicationCatalog) : list ChartConfig :=
  default [] (GetHelmCharts catalog).

(** The catalog asks for the defaults and has no charts yet: [reconcile]
    waits for the defaulting webhook. *)
Definition awaitsDefaults (catalog : ApplicationCatalog) : bool :=
  match GetHelmCharts catalog with
  | None => includesDefaults catalog
  | Some _ => false
  end.

(** The versions of a chart are listed in ascending order of their
    application version. *)
Definition versionsAscending (chart : ChartConfig) : Prop :=
  ascendingBy AppVersion (ChartVersions chart).

(** The client after the catalog stored under [name] has been deleted. *)
Definition withoutCatalog (c : Client) (name : string) : Client :=
  {| catalogs := delete name (catalogs c); objects := objects c;
     requests := requests c |}.

End outcome.

(** ** Clusters and handlers for the instances of the further properties *)

Module scene.
Import v1alpha1 appskubermaticv1 client admission.

(** A cluster on which the catalog "c2" has been applied and nothing has
    been synchronised yet. *)
Definition beforeFirstPass : Client :=
  {| catalogs := {[ "c2" := sample.catalogC2 ]}; objects := ∅; requests := [] |}.

(** An object that another catalog owns. *)
Definition foreignObject : Stored :=
  {| st_Labels := {[ LabelManagedByApplicationCatalog := "true";
                     LabelApplicationCatalogName := "other" ]};
     st_Annotations := ∅;
     st_Spec := Spec sample.editedNginx |}.

(** The cluster of [sample.clientWithEditedNginx] with that object beside
    the resource of the catalog. *)
Definition crowdedCluster : Client :=
  {| catalogs := {[ "c2" := sample.catalogC2 ]};
     objects := {[ "nginx" := toStored sample.editedNginx;
                   "redis" := foreignObject ]};
     requests := [] |}.

(** The catalog "c2" has been deleted; its resource still carries its
    labels. *)
Definition afterDeletion : Client :=
  {| catalogs := ∅;
     objects := {[ "nginx" := toStored sample.editedNginx ]};
     requests := [] |}.

(** The validator on the cluster the first pass leaves, asked about the
    catalog "c3". *)
Definition validatorAfterFirstPass : validation.AdmissionHandler :=
  {| validation.decoder := λ _, inl sample.catalogC3;
     validation.h_client := (synchronizer.reconcile beforeFirstPass "c2").1 |}.

(** The validator on an empty cluster, asked about a catalog with two
    charts of one identity. *)
Definition validatorOfDuplicates : validation.AdmissionHandler :=
  {| validation.decoder := λ _, inl sample.duplicateCatalog;
     validation.h_client := sample.emptyClient |}.

(** The validator on [crowdedCluster], asked about the catalog "c2". *)
Definition validatorOfCrowdedCluster : validation.AdmissionHandler :=
  {| validation.decoder := λ _, inl sample.catalogC2;
     validation.h_client := crowdedCluster |}.

(** The fields of a filter annotation: one identifier that names no
    default, written between blanks, among two that do. *)
Definition filterFields : list spec.Field :=
  [{| spec.before := EmptyString; spec.identifier := "ingress-nginx";
      spec.after := EmptyString |};
   {| spec.before := " "; spec.identifier := "non-existent";
      spec.after := " " |};
   {| spec.before := EmptyString; spec.identifier := "cert-manager";
      spec.after := EmptyString |}].

(** A catalog with that annotation, [includeDefaults] true and no list. *)
Definition filteredCatalog : ApplicationCatalog :=
  sample.syncedCatalog (Some "ingress-nginx, non-existent ,cert-manager") None.

Definition validatorOfFilteredCatalog : validation.AdmissionHandler :=
  {| validation.decoder := λ _, inl filteredCatalog;
     validation.h_client := sample.emptyClient |}.

(** Handlers whose decoder fails. *)
Definition deafValidator : validation.AdmissionHandler :=
  {| validation.decoder := sample.noDecoder;
     validation.h_client := sample.emptyClient |}.

Definition deafMutator : mutation.AdmissionHandler :=
  {| mutation.decoder := sample.noDecoder |}.

End scene.

(** * Properties *)

(** ** Precedence resolver *)

Section Resolver.
Import v1alpha1 spec.

Lemma winningLayer_counts ls s :
  winningLayer ls = Some s → nonEmpty (BaseURL s) = true.
Proof.
  induction ls as [|[t|] ls IH]; simpl; try done.
  destruct (nonEmpty (BaseURL t)) eqn:E; [|done].
  by intros [= <-].
Qed.

Lemma winningLayer_first ls s :
  winningLayer ls = Some s →
  ∃ i, ls !! i = Some (Some s) ∧ ∀ j layer, j < i → ls !! j = Some layer → counts layer = false.
Proof.
  induction ls as [|layer ls IH]; simpl; [done|].
  destruct (counts layer) eqn:E.
  - intros ->. exists 0. split; [done|]. intros j l Hj. lia.
  - intros [i [Hi Hlt]]%IH. exists (S i). split; [done|].
    intros [|j] l Hj Hl; simpl in Hl; [by simplify_eq|].
    apply (Hlt j); [lia|done].
Qed.

Lemma winningLayer_none ls :
  winningLayer ls = None → ∀ layer, layer ∈ ls → counts layer = false.
Proof.
  induction ls as [|l ls IH]; simpl; intros H layer Hin.
  - by apply elem_of_nil in Hin.
  - destruct (counts l) eqn:E.
    + subst l. by destruct layer.
    + apply elem_of_cons in Hin as [->|Hin]; auto.
Qed.

(** C1. The resolved URL is the base URL of the first layer, in the order
    version, chart, catalog, whose settings are present with a non-empty
    base URL, and the hard-coded default when there is none; the resolved
    credentials are the credentials stored at that same layer, and nil when
    the default wins.  Both functions are total. *)
Theorem C1_resolution_takes_first_layer_with_url
    (ac : ApplicationCatalog) (chart : ChartConfig) (version : ChartVersion) :
  match winningLayer (layers ac chart version) with
  | Some s =>
      ResolveChartURL ac chart version = BaseURL s
      ∧ ResolveChartCredentials ac chart version = Credentials s
      ∧ BaseURL s ≠ EmptyString
      ∧ ∃ i, layers ac chart version !! i = Some (Some s)
             ∧ ∀ j layer, j < i → layers ac chart version !! j = Some layer →
                 counts layer = false
  | None =>
      ResolveChartURL ac chart version = DefaultHelmRepository
      ∧ ResolveChartCredentials ac chart version = None
      ∧ ∀ layer, layer ∈ layers ac chart version → counts layer = false
  end.
Proof.
  destruct (winningLayer (layers ac chart version)) as [s|] eqn:Hw.
  - pose proof (winningLayer_counts _ _ Hw) as Hne.
    pose proof (winningLayer_first _ _ Hw) as Hfirst.
    split_and!; [| |by destruct (BaseURL s)|done];
      revert Hw;
      unfold layers, ResolveChartURL, ResolveChartCredentials,
        GetGlobalRepositorySettings; simpl;
      destruct (cv_RepositorySettings version) as [vs|],
        (cc_RepositorySettings chart) as [cs|],
        (Helm ac) as [[[g|] ? ?]|]; simpl;
      repeat case_match; intros; simplify_eq; done.
  - pose proof (winningLayer_none _ Hw) as Hnone.
    split_and!; [| |done];
      revert Hw;
      unfold layers, ResolveChartURL, ResolveChartCredentials,
        GetGlobalRepositorySettings; simpl;
      destruct (cv_RepositorySettings version) as [vs|],
        (cc_RepositorySettings chart) as [cs|],
        (Helm ac) as [[[g|] ? ?]|]; simpl;
      repeat case_match; intros; simplify_eq; done.
Qed.

End Resolver.

(** ** Operations the webhooks let through *)

Section OtherOperations.
Import v1alpha1 admission.

(** C10. For a request whose operation is neither Create nor Update, both
    webhooks answer with an allow response that depends on the operation
    alone: neither the object of the request, nor the decoder, nor the
    state of the cluster is looked at, and the mutating webhook returns no
    patch. *)
Theorem C10_other_operations_allowed
    (quote : string → string) (ident : ChartConfig → string)
    (defaultCharts : list ChartConfig)
    (hv hv' : validation.AdmissionHandler) (hm hm' : mutation.AdmissionHandler)
    (req req' : Request) :
  Operation req ≠ Create → Operation req ≠ Update →
  Operation req' = Operation req →
  (∃ message, validation.Handle quote ident defaultCharts hv req = Allowed message)
  ∧ validation.Handle quote ident defaultCharts hv req
    = validation.Handle quote ident defaultCharts hv' req'
  ∧ (∃ message, mutation.Handle quote ident defaultCharts hm req = Allowed message)
  ∧ mutation.Handle quote ident defaultCharts hm req
    = mutation.Handle quote ident defaultCharts hm' req'.
Proof.
  intros Hc Hu Hop.
  unfold validation.Handle, mutation.Handle. rewrite Hop.
  apply String.eqb_neq in Hc, Hu. rewrite Hc, Hu. simpl.
  split_and!; try done.
  - destruct (String.eqb (Operation req) Delete); eauto.
  - eauto.
Qed.

Lemma C10_other_operations_allowed_witness :
  (∃ message,
     validation.Handle sample.quote ChartName []
       {| validation.decoder := sample.noDecoder;
          validation.h_client := sample.emptyClient |}
       sample.deleteRequest = Allowed message)
  ∧ ∃ message,
      mutation.Handle sample.quote ChartName []
        {| mutation.decoder := sample.noDecoder |} sample.deleteRequest
      = Allowed message.
Proof.
  destruct (C10_other_operations_allowed sample.quote ChartName []
              {| validation.decoder := sample.noDecoder;
                 validation.h_client := sample.emptyClient |}
              {| validation.decoder := sample.noDecoder;
                 validation.h_client := sample.emptyClient |}
              {| mutation.decoder := sample.noDecoder |}
              {| mutation.decoder := sample.noDecoder |}
              sample.deleteRequest sample.deleteRequest)
    as (Hv & _ & Hm & _); [discriminate | discriminate | reflexivity |].
  split; assumption.
Defined.

End OtherOperations.

(** ** Sorting by a key *)

Section SortingFacts.
Context {A : Type} (key : A → string).

Lemma compare_refl (s : string) : String.compare s s = Eq.
Proof.
  pose proof (String.compare_antisym s s) as H.
  by destruct (String.compare s s).
Qed.

Lemma ltb_false_le (s t : string) : String.ltb s t = false → String.le t s.
Proof.
  unfold String.ltb, String.le, String.leb.
  rewrite (String.compare_antisym s t).
  by destruct (String.compare t s).
Qed.

Lemma ltb_true_le (s t : string) : String.ltb s t = true → String.le s t.
Proof.
  unfold String.ltb, String.le, String.leb. by destruct (String.compare s t).
Qed.

Lemma le_ltb_false (s t : string) : String.le s t → String.ltb t s = false.
Proof.
  unfold String.ltb, String.le, String.leb.
  rewrite (String.compare_antisym s t).
  by destruct (String.compare t s).
Qed.

Lemma insertBy_Permutation x (l : list A) : insertBy key x l ≡ₚ x :: l.
Proof.
  induction l as [|y l IH]; simpl; [done|].
  case_match; [|done]. rewrite IH. apply Permutation_swap.
Qed.

Lemma sortBy_Permutation (l : list A) : sortBy key l ≡ₚ l.
Proof.
  induction l as [|x l IH]; simpl; [done|].
  by rewrite insertBy_Permutation, IH.
Qed.

Lemma insertBy_ascending x (l : list A) :
  ascendingBy key l → ascendingBy key (insertBy key x l).
Proof.
  unfold ascendingBy. induction 1 as [|y l Hs IH Hhd]; simpl.
  - by repeat constructor.
  - destruct (String.ltb (key y) (key x)) eqn:E.
    + constructor; [done|].
      destruct Hhd as [|z l' Hyz]; simpl.
      * constructor. by apply ltb_true_le.
      * case_match; constructor; [done|by apply ltb_true_le].
    + constructor; [by constructor|]. constructor. by apply ltb_false_le.
Qed.

Lemma sortBy_ascending (l : list A) : ascendingBy key (sortBy key l).
Proof.
  induction l as [|x l IH]; simpl; [constructor|].
  by apply insertBy_ascending.
Qed.

(** Sorting a list that is ascending already leaves it as it is. *)
Lemma sortBy_fixed (l : list A) : ascendingBy key l → sortBy key l = l.
Proof.
  unfold ascendingBy. induction 1 as [|x l Hs IH Hhd]; simpl; [done|].
  rewrite IH. destruct Hhd as [|y l' Hxy]; simpl; [done|].
  by rewrite (le_ltb_false _ _ Hxy).
Qed.

Lemma lastIndexBy_None k (l : list A) :
  lastIndexBy key k l = None ↔ k ∉ key <$> l.
Proof.
  induction l as [|x l IH]; simpl.
  - split; [intros _; apply not_elem_of_nil|done].
  - rewrite not_elem_of_cons. destruct (lastIndexBy key k l) as [j|].
    + split; [done|]. intros [_ Hl]. by apply IH in Hl.
    + case_decide; split; try done.
      * intros [Hne _]. congruence.
      * intros _. split; [congruence|]. by apply IH.
Qed.

Lemma lastIndexBy_Some k (l : list A) j :
  lastIndexBy key k l = Some j →
  ∃ x, l !! j = Some x ∧ key x = k
       ∧ ∀ j' y, j < j' → l !! j' = Some y → key y ≠ k.
Proof.
  revert j. induction l as [|x l IH]; simpl; intros j; [done|].
  destruct (lastIndexBy key k l) as [i|] eqn:E.
  - intros [= <-]. destruct (IH i eq_refl) as (y & Hy & Hk & Hlast).
    exists y. split_and!; try done.
    intros [|j'] z Hlt Hz; [lia|]. apply (Hlast j'); [lia|done].
  - case_decide as Hx; [|done]. intros [= <-]. exists x. split_and!; try done.
    intros [|j'] z Hlt Hz; [lia|]. simpl in Hz.
    apply lastIndexBy_None in E. intros Hk. apply E.
    apply list_elem_of_fmap. exists z. split; [done|].
    apply list_elem_of_lookup. eauto.
Qed.

Lemma filter_key_none k (l : list A) :
  (∀ y, y ∈ l → key y ≠ k) → filter (λ y, key y = k) l = [].
Proof.
  induction l as [|x l IH]; intros H; [done|].
  rewrite filter_cons_False by (apply H; left).
  apply IH. intros y Hy. apply H. by right.
Qed.

Lemma lastWithKey_at k (l : list A) j x :
  l !! j = Some x → key x = k →
  (∀ j' y, j < j' → l !! j' = Some y → key y ≠ k) →
  lastWithKey key k l = Some x.
Proof.
  intros Hj Hk Hlast. unfold lastWithKey.
  rewrite <-(take_drop_middle l j x Hj), filter_app, filter_cons.
  rewrite decide_True by done.
  assert (filter (λ y, key y = k) (drop (S j) l) = []) as ->.
  { apply filter_key_none. intros y Hy.
    apply list_elem_of_lookup in Hy as [i Hi]. rewrite lookup_drop in Hi.
    apply (Hlast (S j + i)); [lia|done]. }
  by rewrite last_snoc.
Qed.

Lemma lastWithKey_Some k (l : list A) x :
  lastWithKey key k l = Some x → x ∈ l ∧ key x = k.
Proof.
  unfold lastWithKey. intros H.
  assert (x ∈ filter (λ y, key y = k) l) as Hin.
  { destruct (filter (λ y, key y = k) l) as [|y f] using rev_ind; [done|].
    rewrite last_snoc in H. injection H as ->. set_solver. }
  by apply list_elem_of_filter in Hin as [? ?].
Qed.

Lemma lastWithKey_is_Some k (l : list A) :
  k ∈ key <$> l → is_Some (lastWithKey key k l).
Proof.
  intros (x & Hk & Hx)%list_elem_of_fmap. unfold lastWithKey.
  assert (x ∈ filter (λ y, key y = k) l) as Hin
    by by apply list_elem_of_filter.
  destruct (filter (λ y, key y = k) l) as [|y f] using rev_ind.
  - by apply elem_of_nil in Hin.
  - rewrite last_snoc. eauto.
Qed.

(** Two lists in ascending order of a key that no two entries share are
    equal when they hold the same entries. *)
Lemma ascending_unique (l1 l2 : list A) :
  ascendingBy key l1 → ascendingBy key l2 →
  NoDup (key <$> l1) → l1 ≡ₚ l2 → l1 = l2.
Proof.
  unfold ascendingBy. intros H1 H2.
  apply Sorted_StronglySorted in H1;
    [|intros x y z; unfold String.le; apply (transitivity (R:=String.le))].
  apply Sorted_StronglySorted in H2;
    [|intros x y z; unfold String.le; apply (transitivity (R:=String.le))].
  revert l2 H2. induction H1 as [|x l1 Hs1 IH Hx]; intros l2 H2 Hnd Hperm.
  - by apply Permutation_nil_l in Hperm.
  - destruct H2 as [|y l2 Hs2 Hy].
    { by apply Permutation_nil_r in Hperm. }
    rewrite fmap_cons, NoDup_cons in Hnd. destruct Hnd as [Hxl Hnd].
    assert (x = y) as <-.
    { assert (x ∈ y :: l2) as Hxin by (rewrite <-Hperm; left).
      assert (y ∈ x :: l1) as Hyin by (rewrite Hperm; left).
      apply elem_of_cons in Hxin as [?|Hxin]; [done|].
      apply elem_of_cons in Hyin as [?|Hyin]; [done|].
      rewrite Forall_forall in Hx, Hy.
      pose proof (Hx y Hyin) as Hxy. pose proof (Hy x Hxin) as Hyx.
      assert (key x = key y) as Hk by by apply (anti_symm String.le).
      exfalso. apply Hxl. rewrite Hk. apply list_elem_of_fmap. eauto. }
    f_equal. apply IH; [done|done|]. by apply Permutation_cons_inv in Hperm.
Qed.

Lemma sortBy_unique (l1 l2 : list A) :
  NoDup (key <$> l1) → l1 ≡ₚ l2 → sortBy key l1 = sortBy key l2.
Proof.
  intros Hnd Hperm. apply ascending_unique.
  - apply sortBy_ascending.
  - apply sortBy_ascending.
  - by rewrite sortBy_Permutation.
  - by rewrite !sortBy_Permutation.
Qed.

Lemma lastWithKey_NoDup k (l : list A) x :
  NoDup (key <$> l) → lastWithKey key k l = Some x ↔ x ∈ l ∧ key x = k.
Proof.
  intros Hnd. split; [apply lastWithKey_Some|]. intros [Hin Hk].
  apply list_elem_of_lookup in Hin as [i Hi].
  apply (lastWithKey_at k l i x Hi Hk).
  intros j y Hlt Hj Hy.
  assert (i = j); [|lia].
  apply (NoDup_lookup (key <$> l) i j k); [done| |].
  - by rewrite list_lookup_fmap, Hi, <-Hk.
  - by rewrite list_lookup_fmap, Hj, <-Hy.
Qed.

Lemma lastWithKey_None k (l : list A) :
  lastWithKey key k l = None ↔ k ∉ key <$> l.
Proof.
  split.
  - intros Hnone Hin. apply lastWithKey_is_Some in Hin as [x Hx]. congruence.
  - intros Hnot. destruct (lastWithKey key k l) as [x|] eqn:Hx; [|done].
    apply lastWithKey_Some in Hx as [Hin Hk]. exfalso. apply Hnot.
    apply list_elem_of_fmap. eauto.
Qed.

(** In a list that repeats no key an entry is the last of its key. *)
Lemma lastIndexBy_NoDup (l : list A) i x :
  NoDup (key <$> l) → l !! i = Some x → lastIndexBy key (key x) l = Some i.
Proof.
  intros Hnd Hi.
  destruct (lastIndexBy key (key x) l) as [j|] eqn:Hj.
  - apply lastIndexBy_Some in Hj as (y & Hy & Hk & _). f_equal.
    apply (NoDup_lookup (key <$> l) j i (key x)); [done| |].
    + by rewrite list_lookup_fmap, Hy, <-Hk.
    + by rewrite list_lookup_fmap, Hi.
  - apply lastIndexBy_None in Hj. exfalso. apply Hj.
    apply list_elem_of_fmap. exists x. split; [done|].
    apply list_elem_of_lookup; eauto.
Qed.

(** In a list that repeats no key two entries of one key are one entry. *)
Lemma same_key_NoDup (l : list A) x y :
  NoDup (key <$> l) → x ∈ l → y ∈ l → key x = key y → x = y.
Proof.
  intros Hnd [i Hi]%list_elem_of_lookup [j Hj]%list_elem_of_lookup Hk.
  assert (i = j) as ->; [|congruence].
  apply (NoDup_lookup (key <$> l) i j (key x)); [done| |].
  - by rewrite list_lookup_fmap, Hi.
  - by rewrite list_lookup_fmap, Hj, Hk.
Qed.

End SortingFacts.

Lemma filter_none {A} (P : A → Prop) `{∀ x, Decision (P x)} (l : list A) :
  (∀ x, x ∈ l → ¬ P x) → filter P l = [].
Proof.
  induction l as [|x l IH]; intros HP; [done|].
  rewrite filter_cons_False by (apply HP; left).
  apply IH. intros y Hy. apply HP. by right.
Qed.

Lemma NoDup_fmap_filter {A B} (f : A → B) (P : A → Prop)
    `{∀ x, Decision (P x)} (l : list A) :
  NoDup (f <$> l) → NoDup (f <$> filter P l).
Proof.
  induction l as [|x l IH]; [done|]. rewrite fmap_cons, NoDup_cons.
  intros [Hx Hl]. rewrite filter_cons. case_decide; [|by apply IH].
  rewrite fmap_cons, NoDup_cons. split; [|by apply IH].
  intros (y & Hy & Hin)%list_elem_of_fmap. apply Hx.
  apply list_elem_of_fmap. exists y. split; [done|].
  by apply list_elem_of_filter in Hin as [_ ?].
Qed.

(** ** Merging versions *)

Section VersionMerge.
Import appskubermaticv1 synchronizer.

Lemma buildIndex_lookup (l : list ApplicationVersion) i m k :
  buildIndex i l m !! k =
    match lastIndexBy Version k l with
    | Some j => Some (i + j)
    | None => m !! k
    end.
Proof.
  revert i m. induction l as [|v l IH]; intros i m; simpl; [done|].
  rewrite IH. destruct (lastIndexBy Version k l) as [j|].
  - f_equal. lia.
  - case_decide as Hv.
    + rewrite Hv, lookup_insert_eq. f_equal. lia.
    + by rewrite lookup_insert_ne.
Qed.

Lemma existingIndex_lookup (existing : list ApplicationVersion) k :
  buildIndex 0 existing ∅ !! k = lastIndexBy Version k existing.
Proof.
  rewrite buildIndex_lookup. by destruct (lastIndexBy Version k existing).
Qed.

(** The loop of [mergeVersions], with the index of the existing list. *)
Section Loop.
Variable existing : list ApplicationVersion.
Variable idx : gmap string nat.
Hypothesis Hidx : ∀ k, idx !! k = lastIndexBy Version k existing.

(** The part of a step that overwrites in place. *)
Local Abbreviation overwriteStep :=
  (λ (P : list ApplicationVersion) (d : ApplicationVersion),
     match idx !! Version d with
     | Some i => <[i:=d]> P
     | None => P
     end).

Local Abbreviation isNew := (λ d : ApplicationVersion, idx !! Version d = None).

Lemma idx_Some k i :
  idx !! k = Some i →
  ∃ v, existing !! i = Some v ∧ Version v = k
       ∧ ∀ j w, i < j → existing !! j = Some w → Version w ≠ k.
Proof. rewrite Hidx. apply lastIndexBy_Some. Qed.

Lemma idx_None k : idx !! k = None ↔ k ∉ Version <$> existing.
Proof. rewrite Hidx. apply lastIndexBy_None. Qed.

Lemma idx_bound k i : idx !! k = Some i → i < length existing.
Proof. intros (v & Hv & _)%idx_Some. by apply lookup_lt_Some in Hv. Qed.

Lemma mergeLoop_split (ds P Q : list ApplicationVersion) :
  length P = length existing →
  foldl (mergeStep idx) (P ++ Q) ds =
    foldl overwriteStep P ds ++ Q ++ filter isNew ds.
Proof.
  revert P Q. induction ds as [|d ds IH]; intros P Q HP; simpl.
  - by rewrite app_nil_r.
  - unfold mergeStep at 2. destruct (idx !! Version d) as [i|] eqn:Hd.
    + rewrite filter_cons_False by (simpl; congruence).
      rewrite insert_app_l by (rewrite HP; by eapply idx_bound).
      apply IH. by rewrite length_insert.
    + rewrite filter_cons_True by done.
      rewrite <-(assoc_L (++)), IH by done.
      by rewrite <-(assoc_L (++)).
Qed.

Lemma overwrite_length (ds P : list ApplicationVersion) :
  length (foldl overwriteStep P ds) = length P.
Proof.
  revert P. induction ds as [|d ds IH]; intros P; simpl; [done|].
  rewrite IH. case_match; [apply length_insert|done].
Qed.

(** Every position keeps its key. *)
Lemma overwrite_keys (ds : list ApplicationVersion) i v :
  existing !! i = Some v →
  ∃ w, foldl overwriteStep existing ds !! i = Some w ∧ Version w = Version v.
Proof.
  intros Hv. induction ds as [|d ds IH] using rev_ind; [by eauto|].
  rewrite foldl_snoc. destruct IH as (w & Hw & Hk).
  destruct (idx !! Version d) as [j|] eqn:Hd; [|by eauto].
  destruct (decide (j = i)) as [->|Hne].
  - exists d. split.
    + apply list_lookup_insert_eq. by apply lookup_lt_Some in Hw.
    + apply idx_Some in Hd as (v' & Hv' & ? & _). congruence.
  - exists w. by rewrite list_lookup_insert_ne.
Qed.

(** What a position holds is the existing entry or a desired one of its key. *)
Lemma overwrite_content (ds : list ApplicationVersion) i w :
  foldl overwriteStep existing ds !! i = Some w →
  existing !! i = Some w ∨ (w ∈ ds ∧ idx !! Version w = Some i).
Proof.
  revert w. induction ds as [|d ds IH] using rev_ind; intros w; [by left|].
  rewrite foldl_snoc. destruct (idx !! Version d) as [j|] eqn:Hd.
  - destruct (decide (j = i)) as [->|Hne].
    + intros Hw. apply list_lookup_insert_Some in Hw as [(_ & -> & _)|[? _]]; [|done].
      right. split; [set_solver|done].
    + rewrite list_lookup_insert_ne by done.
      intros [?|[? ?]]%IH; [by left|right; split; [set_solver|done]].
  - intros [?|[? ?]]%IH; [by left|right; split; [set_solver|done]].
Qed.

(** The last desired entry of an indexed key sits at the indexed place. *)
Lemma overwrite_last (ds : list ApplicationVersion) k i :
  idx !! k = Some i → k ∈ Version <$> ds →
  foldl overwriteStep existing ds !! i = lastWithKey Version k ds.
Proof.
  intros Hk. induction ds as [|d ds IH] using rev_ind; intros Hin.
  - by apply elem_of_nil in Hin.
  - rewrite foldl_snoc. unfold lastWithKey. rewrite filter_app.
    destruct (decide (Version d = k)) as [Hd|Hd].
    + rewrite Hd, Hk, filter_cons_True, filter_nil, last_snoc by done.
      apply list_lookup_insert_eq. rewrite overwrite_length. by eapply idx_bound.
    + rewrite filter_cons_False, filter_nil, app_nil_r by done.
      rewrite fmap_app, elem_of_app in Hin. destruct Hin as [Hin|Hin];
        [|apply list_elem_of_singleton in Hin; congruence].
      unfold lastWithKey in IH. rewrite <-(IH Hin).
      destruct (idx !! Version d) as [j|] eqn:Hj; [|done].
      apply list_lookup_insert_ne. intros ->.
      apply idx_Some in Hk as (v & Hv & ? & _).
      apply idx_Some in Hj as (v' & Hv' & ? & _). congruence.
Qed.

(** Past the existing entries come the desired entries of new keys. *)
Lemma mergeLoop_closed (ds : list ApplicationVersion) :
  foldl (mergeStep idx) existing ds =
    foldl overwriteStep existing ds ++ filter isNew ds.
Proof.
  rewrite <-(app_nil_r existing) at 1.
  by rewrite mergeLoop_split.
Qed.

Lemma overwrite_no_other_key (ds : list ApplicationVersion) k :
  idx !! k = None → filter (λ w, Version w = k) (foldl overwriteStep existing ds) = [].
Proof.
  intros Hk. apply filter_key_none. intros w [j Hj]%list_elem_of_lookup Hw.
  assert (is_Some (existing !! j)) as [v Hv].
  { apply lookup_lt_is_Some. rewrite <-(overwrite_length ds).
    by apply lookup_lt_Some in Hj. }
  destruct (overwrite_keys ds j v Hv) as (w' & Hw' & Hkey).
  apply idx_None in Hk. apply Hk. apply list_elem_of_fmap.
  exists v. split; [congruence|]. apply list_elem_of_lookup; eauto.
Qed.

Lemma mergeLoop_last (ds : list ApplicationVersion) k :
  k ∈ Version <$> ds →
  lastWithKey Version k (foldl (mergeStep idx) existing ds)
  = lastWithKey Version k ds.
Proof.
  intros Hin. rewrite mergeLoop_closed.
  destruct (idx !! k) as [i|] eqn:Hk.
  - destruct (lastWithKey_is_Some Version k ds Hin) as [d Hd].
    rewrite Hd. destruct (lastWithKey_Some _ _ _ _ Hd) as [_ Hdk].
    pose proof (idx_bound _ _ Hk) as Hi.
    apply (lastWithKey_at Version k _ i); [|done|].
    + rewrite lookup_app_l by by rewrite overwrite_length.
      by rewrite (overwrite_last ds k i).
    + intros j w Hlt Hw. apply lookup_app_Some in Hw as [Hw|[Hge Hw]].
      * assert (is_Some (existing !! j)) as [v Hv].
        { apply lookup_lt_is_Some. rewrite <-(overwrite_length ds).
          by apply lookup_lt_Some in Hw. }
        destruct (overwrite_keys ds j v Hv) as (w' & Hw' & Hkey).
        apply idx_Some in Hk as (_ & _ & _ & Hlast).
        specialize (Hlast j v Hlt Hv). congruence.
      * apply list_elem_of_lookup_2, list_elem_of_filter in Hw as [Hnew _].
        congruence.
  - unfold lastWithKey. rewrite filter_app, overwrite_no_other_key by done.
    simpl. rewrite list_filter_filter. f_equal.
    apply list_filter_iff. intros d. split; [by intros [? _]|].
    intros <-. done.
Qed.

End Loop.

Lemma filter_all {A} (P : A → Prop) `{∀ x, Decision (P x)} (l : list A) :
  (∀ x, x ∈ l → P x) → filter P l = l.
Proof.
  induction l as [|x l IH]; intros HP; [done|].
  rewrite filter_cons_True by (apply HP; left).
  f_equal. apply IH. intros y Hy. apply HP. by right.
Qed.

(** [mergeVersions] in closed form: the existing entries, each overwritten
    in place by the last desired entry of its key when that key is indexed
    at its place, followed by the desired entries of new keys. *)
Lemma mergeVersions_closed (existing desired : list ApplicationVersion) :
  mergeVersions existing desired =
    foldl (λ P d, match buildIndex 0 existing ∅ !! Version d with
                  | Some i => <[i:=d]> P
                  | None => P
                  end) existing desired
    ++ filter (λ d, buildIndex 0 existing ∅ !! Version d = None) desired.
Proof.
  destruct existing as [|v existing], desired as [|d desired]; try done.
  - change (mergeVersions [] (d :: desired)) with (d :: desired).
    change (buildIndex 0 [] ∅) with (∅ : gmap string nat).
    rewrite filter_all; [|intros; apply lookup_empty].
    generalize (d :: desired). intros ds.
    assert (foldl (λ (P : list ApplicationVersion) d0,
                     match (∅ : gmap string nat) !! Version d0 with
                     | Some i => <[i:=d0]> P
                     | None => P
                     end) [] ds = []) as ->; [|done].
    induction ds as [|x ds IH]; [done|]. simpl. by rewrite lookup_empty.
  - simpl. by rewrite app_nil_r.
  - apply mergeLoop_closed, existingIndex_lookup.
Qed.

Lemma mergeVersions_key_in_place (existing desired : list ApplicationVersion) i v :
  existing !! i = Some v →
  ∃ w, mergeVersions existing desired !! i = Some w ∧ Version w = Version v.
Proof.
  intros Hv. rewrite mergeVersions_closed.
  destruct (overwrite_keys existing _ (existingIndex_lookup existing) desired i v Hv)
    as (w & Hw & Hk).
  exists w. split; [|done]. by apply lookup_app_l_Some.
Qed.

Lemma mergeVersions_kept (existing desired : list ApplicationVersion) i v :
  existing !! i = Some v → Version v ∉ Version <$> desired →
  mergeVersions existing desired !! i = Some v.
Proof.
  intros Hv Hnot. rewrite mergeVersions_closed.
  destruct (overwrite_keys existing _ (existingIndex_lookup existing) desired i v Hv)
    as (w & Hw & Hk).
  apply lookup_app_l_Some. rewrite Hw.
  apply (overwrite_content existing _ (existingIndex_lookup existing)) in Hw
    as [Hw|[Hin _]]; [congruence|].
  exfalso. apply Hnot. rewrite <-Hk. apply list_elem_of_fmap. eauto.
Qed.

Lemma mergeVersions_replaced (existing desired : list ApplicationVersion) k i :
  lastIndexBy Version k existing = Some i → k ∈ Version <$> desired →
  mergeVersions existing desired !! i = lastWithKey Version k desired.
Proof.
  intros Hi Hin. rewrite <-existingIndex_lookup in Hi.
  destruct (lastWithKey_is_Some Version k desired Hin) as [d Hd].
  rewrite mergeVersions_closed, Hd. apply lookup_app_l_Some.
  rewrite <-Hd.
  by apply (overwrite_last existing _ (existingIndex_lookup existing)).
Qed.

Lemma mergeVersions_appended (existing desired : list ApplicationVersion) :
  drop (length existing) (mergeVersions existing desired)
  = filter (λ d, Version d ∉ Version <$> existing) desired.
Proof.
  rewrite mergeVersions_closed, drop_app_length'.
  - apply list_filter_iff. intros d.
    apply (idx_None existing _ (existingIndex_lookup existing)).
  - symmetry. apply overwrite_length.
Qed.

Lemma mergeVersions_last (existing desired : list ApplicationVersion) k :
  k ∈ Version <$> desired →
  lastWithKey Version k (mergeVersions existing desired)
  = lastWithKey Version k desired.
Proof.
  intros Hin. rewrite mergeVersions_closed.
  rewrite <-(mergeLoop_closed existing _ (existingIndex_lookup existing)).
  by apply mergeLoop_last; [apply existingIndex_lookup|].
Qed.

Lemma mergeVersions_origin (existing desired : list ApplicationVersion) w :
  w ∈ mergeVersions existing desired → w ∈ existing ∨ w ∈ desired.
Proof.
  rewrite mergeVersions_closed, elem_of_app.
  intros [[i Hi]%list_elem_of_lookup|[_ ?]%list_elem_of_filter]; [|by right].
  apply (overwrite_content existing _ (existingIndex_lookup existing)) in Hi
    as [Hi|[? _]]; [left|by right].
  apply list_elem_of_lookup; eauto.
Qed.

(** An existing entry that is not the last of its key stays as it is. *)
Lemma mergeVersions_other_index (existing desired : list ApplicationVersion)
    k i j v :
  lastIndexBy Version k existing = Some i →
  existing !! j = Some v → Version v = k → j ≠ i →
  mergeVersions existing desired !! j = Some v.
Proof.
  intros Hi Hv Hk Hne. rewrite mergeVersions_closed.
  destruct (overwrite_keys existing _ (existingIndex_lookup existing) desired j v Hv)
    as (w & Hw & Hkey).
  apply lookup_app_l_Some. rewrite Hw.
  apply (overwrite_content existing _ (existingIndex_lookup existing)) in Hw
    as [Hw|[_ Hidx]]; [congruence|].
  rewrite existingIndex_lookup, Hkey, Hk, Hi in Hidx. congruence.
Qed.

(** The keys of the merge: those of the existing list, then the new ones. *)
Lemma mergeVersions_keys (existing desired : list ApplicationVersion) :
  Version <$> mergeVersions existing desired
  = (Version <$> existing)
    ++ (Version <$> filter (λ d, Version d ∉ Version <$> existing) desired).
Proof.
  pose proof (existingIndex_lookup existing) as Hidx.
  rewrite mergeVersions_closed, fmap_app. f_equal.
  - apply list_eq. intros i. rewrite !list_lookup_fmap.
    destruct (existing !! i) as [v|] eqn:Hv.
    + destruct (overwrite_keys existing _ Hidx desired i v Hv) as (w & -> & Hk).
      simpl. by rewrite Hk.
    + simpl. apply fmap_None, lookup_ge_None. rewrite overwrite_length.
      by apply lookup_ge_None.
  - f_equal. apply list_filter_iff. intros d. apply (idx_None existing _ Hidx).
Qed.

Lemma mergeVersions_keys_NoDup (existing desired : list ApplicationVersion) :
  NoDup (Version <$> existing) → NoDup (Version <$> desired) →
  NoDup (Version <$> mergeVersions existing desired).
Proof.
  intros He Hd. rewrite mergeVersions_keys. apply NoDup_app.
  split_and!; [done| |by apply NoDup_fmap_filter].
  intros k Hk (d & -> & Hin)%list_elem_of_fmap.
  by apply list_elem_of_filter in Hin as [? _].
Qed.

(** Every desired entry that is the last of its key is in the merge. *)
Lemma mergeVersions_desired (existing desired : list ApplicationVersion) d :
  lastWithKey Version (Version d) desired = Some d →
  d ∈ mergeVersions existing desired.
Proof.
  intros Hd.
  assert (Version d ∈ Version <$> desired) as Hin.
  { apply lastWithKey_Some in Hd as [? _]. apply list_elem_of_fmap. eauto. }
  pose proof (mergeVersions_last existing desired (Version d) Hin) as Hlast.
  rewrite Hd in Hlast. by apply lastWithKey_Some in Hlast as [? _].
Qed.

(** What the sort of the versions leaves is one of the outcomes a sort by
    the key may leave; only this is used of it where entries may share a
    key. *)
Lemma sortVersions_sortedByKey (vs : list ApplicationVersion) :
  spec.sortedByKey vs (sortVersions vs).
Proof. split; [apply sortBy_Permutation|apply sortBy_ascending]. Qed.

(** Where no two entries share a key, a sort by the key has one outcome. *)
Lemma sortedByKey_unique (vs sorted sorted' : list ApplicationVersion) :
  NoDup (Version <$> vs) →
  spec.sortedByKey vs sorted → spec.sortedByKey vs sorted' → sorted = sorted'.
Proof.
  intros Hnd [Hp Ha] [Hp' Ha']. apply (ascending_unique Version); try done.
  - by rewrite Hp.
  - by rewrite Hp, Hp'.
Qed.

(** C5, as amended.  The version merge keeps the key of every existing
    entry at its place, so no key is deleted.  It keeps the entry itself
    when the catalog no longer declares its key, and also when the entry
    is not the last existing one of its key; at the last place of each key
    the catalog still declares it puts the last desired entry of that key.
    It appends the desired entries of new keys after the existing ones and
    takes its entries from the two lists only.  The list the reconciler
    then stores is a rearrangement of the merge, ascending in the
    application-version key.  When neither list repeats a key, the entry
    of each declared key is replaced by the desired entry of that key, the
    merge repeats no key, the stored list is the only list a sort by the
    key can leave, and the entry it holds under a declared key is the
    desired one. *)
Theorem C5_version_merge_keeps_updates_appends_sorts
    (existing desired : list ApplicationVersion) :
  let merged := mergeVersions existing desired in
  let stored := sortVersions merged in
  (∀ i v, existing !! i = Some v →
     ∃ w, merged !! i = Some w ∧ Version w = Version v)
  ∧ (∀ v, v ∈ existing → Version v ∈ Version <$> stored)
  ∧ (∀ i v, existing !! i = Some v → Version v ∉ Version <$> desired →
       merged !! i = Some v)
  ∧ (∀ k i, lastIndexBy Version k existing = Some i → k ∈ Version <$> desired →
       merged !! i = lastWithKey Version k desired)
  ∧ (∀ k i j v, lastIndexBy Version k existing = Some i →
       existing !! j = Some v → Version v = k → j ≠ i →
       merged !! j = Some v)
  ∧ drop (length existing) merged
    = filter (λ d, Version d ∉ Version <$> existing) desired
  ∧ (∀ w, w ∈ merged → w ∈ existing ∨ w ∈ desired)
  ∧ spec.sortedByKey merged stored
  ∧ (NoDup (Version <$> existing) → NoDup (Version <$> desired) →
     (∀ i v d, existing !! i = Some v → d ∈ desired → Version d = Version v →
        merged !! i = Some d)
     ∧ NoDup (Version <$> merged)
     ∧ (∀ sorted, spec.sortedByKey merged sorted → sorted = stored)
     ∧ (∀ d, d ∈ desired → d ∈ stored)
     ∧ (∀ w d, w ∈ stored → d ∈ desired → Version w = Version d → w = d)).
Proof.
  intros merged stored. subst merged stored.
  pose proof (sortVersions_sortedByKey (mergeVersions existing desired))
    as [Hperm Hasc].
  split_and!.
  - apply mergeVersions_key_in_place.
  - intros v [i Hi]%list_elem_of_lookup.
    destruct (mergeVersions_key_in_place existing desired i v Hi) as (w & Hw & <-).
    apply list_elem_of_fmap. exists w. split; [done|].
    rewrite Hperm. apply list_elem_of_lookup; eauto.
  - apply mergeVersions_kept.
  - apply mergeVersions_replaced.
  - apply mergeVersions_other_index.
  - apply mergeVersions_appended.
  - apply mergeVersions_origin.
  - done.
  - intros He Hd.
    pose proof (mergeVersions_keys_NoDup existing desired He Hd) as Hnd.
    assert (∀ d, d ∈ desired → d ∈ mergeVersions existing desired) as Hin.
    { intros d Hdin. apply mergeVersions_desired.
      by apply (lastWithKey_NoDup Version). }
    split_and!; [|done| | |].
    + intros i v d Hv Hdin Hk.
      rewrite (mergeVersions_replaced existing desired (Version v) i).
      * apply (lastWithKey_NoDup Version); [done|]. by split.
      * by apply (lastIndexBy_NoDup Version).
      * rewrite <-Hk. apply list_elem_of_fmap. eauto.
    + intros sorted Hsorted.
      by apply (sortedByKey_unique (mergeVersions existing desired)).
    + intros d Hdin. rewrite Hperm. by apply Hin.
    + intros w d Hw Hdin Hk. rewrite Hperm in Hw.
      apply (same_key_NoDup Version (mergeVersions existing desired));
        [done|done|by apply Hin|done].
Qed.

End VersionMerge.

(** An existing list that holds two entries of one key: the catalog still
    declares the key, and the merge replaces the second entry only.  The
    first one, with the source the catalog no longer has, stays in the
    merge and in whatever a sort of the merge leaves. *)
Lemma C5_counterexample_repeated_key :
  let existing :=
    [sample.version "v1.0.0" "https://old.example.com";
     sample.version "v1.0.0" "https://older.example.com"] in
  let desired := [sample.version "v1.0.0" "https://new.example.com"] in
  let merged := synchronizer.mergeVersions existing desired in
  merged
  = [sample.version "v1.0.0" "https://old.example.com";
     sample.version "v1.0.0" "https://new.example.com"]
  ∧ "v1.0.0" ∈ appskubermaticv1.Version <$> desired
  ∧ sample.version "v1.0.0" "https://old.example.com"
    ∈ synchronizer.sortVersions merged
  ∧ ∀ sorted, spec.sortedByKey merged sorted →
      sample.version "v1.0.0" "https://old.example.com" ∈ sorted.
Proof.
  intros existing desired merged.
  assert (merged
          = [sample.version "v1.0.0" "https://old.example.com";
             sample.version "v1.0.0" "https://new.example.com"]) as Hmerged
    by (vm_compute; reflexivity).
  split_and!; [done|by left| |].
  - rewrite Hmerged. vm_compute. left.
  - intros sorted [Hperm _]. rewrite Hperm, Hmerged. left.
Qed.

(** ** Updating an existing downstream resource *)

Section Update.
Import v1alpha1 appskubermaticv1 client synchronizer.

Lemma updateModify_name desired existing :
  Name (updateModify desired existing) = Name existing.
Proof. done. Qed.

(** C6. When the reconciler finds a downstream resource that is not
    externally managed, the object it stores afterwards keeps four fields
    of the existing one: an enforced flag that is true, a default flag that
    is true, a datacenter selector that is set, and the default-values
    block unless that block is empty or "{}", in which case the block of
    the catalog is stored.  So a block edited by a user is still there
    after the reconciliation. *)
Theorem C6_update_keeps_cluster_fields
    (c : Client) (existing desired : ApplicationDefinition) :
  Get c (Name desired) = Some existing →
  isSystemApplication existing = false →
  ∃ c' stored,
    reconcileApplicationDefinition c desired = (c', None)
    ∧ Get c' (Name desired) = Some stored
    ∧ (Enforced (Spec existing) = true → Enforced (Spec stored) = true)
    ∧ (Default (Spec existing) = true → Default (Spec stored) = true)
    ∧ (∀ dcs, Datacenters (Selector (Spec existing)) = Some dcs →
         Datacenters (Selector (Spec stored)) = Some dcs)
    ∧ (DefaultValuesBlock (Spec existing) ≠ EmptyString →
       DefaultValuesBlock (Spec existing) ≠ "{}" →
       DefaultValuesBlock (Spec stored) = DefaultValuesBlock (Spec existing))
    ∧ (DefaultValuesBlock (Spec existing) = EmptyString
       ∨ DefaultValuesBlock (Spec existing) = "{}" →
       DefaultValuesBlock (Spec stored) = DefaultValuesBlock (Spec desired)).
Proof.
  intros Hget Hsys.
  assert (Name existing = Name desired) as Hname.
  { unfold Get in Hget. destruct (objects c !! Name desired); by simplify_eq/=. }
  unfold reconcileApplicationDefinition. rewrite Hget, Hsys.
  unfold updateApplicationDefinition, kubernetes.PatchObject, Patch.
  rewrite updateModify_name, Hname.
  unfold Get in Hget. destruct (objects c !! Name desired) as [s|] eqn:Hs; [|done].
  eexists _, _. split; [done|]. split.
  { unfold Get, send; simpl. rewrite lookup_insert_eq. simpl. done. }
  simpl. split_and!.
  - by intros ->.
  - by intros ->.
  - by intros dcs ->.
  - intros H1 H2. apply String.eqb_neq in H1, H2.
    unfold nonEmpty. by rewrite H1, H2.
  - intros [H|H]; rewrite H; done.
Qed.

Lemma C6_update_keeps_cluster_fields_witness :
  ∃ c' stored,
    reconcileApplicationDefinition sample.clientWithEditedNginx
      (convertChartToApplicationDefinition sample.catalogC2 sample.nginxChart)
    = (c', None)
    ∧ Get c' "nginx" = Some stored
    ∧ Enforced (Spec stored) = true
    ∧ Datacenters (Selector (Spec stored)) = Some ["dc-1"]
    ∧ DefaultValuesBlock (Spec stored) = "replicas: 5".
Proof.
  destruct (C6_update_keeps_cluster_fields sample.clientWithEditedNginx
              sample.editedNginx
              (convertChartToApplicationDefinition sample.catalogC2 sample.nginxChart))
    as (c' & stored & Hrun & Hget & Henf & _ & Hdc & Hdvb & _).
  - vm_compute. reflexivity.
  - vm_compute. reflexivity.
  - exists c', stored. split_and!; try done.
    + by apply Henf.
    + by apply Hdc.
    + by apply Hdvb.
Defined.

End Update.

(** ** Unmanaging orphans *)

Section Orphans.
Import v1alpha1 appskubermaticv1 client synchronizer spec.

Lemma toStored_toObject name s : toStored (toObject name s) = s.
Proof. by destruct s. Qed.

Lemma toObject_toStored o : toObject (Name o) (toStored o) = o.
Proof. by destruct o. Qed.

Lemma elem_of_allObjects c o :
  o ∈ allObjects c ↔ objects c !! Name o = Some (toStored o).
Proof.
  unfold allObjects. rewrite list_elem_of_fmap. split.
  - intros ([k s] & -> & Hks). apply elem_of_map_to_list in Hks. simpl.
    by rewrite toStored_toObject.
  - intros H. exists (Name o, toStored o). split.
    + simpl. by rewrite toObject_toStored.
    + by apply elem_of_map_to_list.
Qed.

Lemma allObjects_names c : Name <$> allObjects c = (map_to_list (objects c)).*1.
Proof. unfold allObjects. rewrite <-list_fmap_compose. done. Qed.

Lemma List_names_NoDup c key value : NoDup (Name <$> List c key value).
Proof.
  apply NoDup_fmap_filter. rewrite allObjects_names.
  apply NoDup_fst_map_to_list.
Qed.

Lemma elem_of_List c key value o :
  o ∈ List c key value ↔
  objects c !! Name o = Some (toStored o) ∧ Labels o !! key = Some value.
Proof.
  unfold List. rewrite list_elem_of_filter, elem_of_allObjects.
  unfold matchesLabel. rewrite bool_decide_eq_true. tauto.
Qed.

(** The loop over the listed items patches each orphan once and touches
    nothing else. *)
Lemma unmanageItems_spec generatedApps items :
  ∀ c errs,
    NoDup (Name <$> items) →
    (∀ o, o ∈ items → objects c !! Name o = Some (toStored o)) →
    ∃ c',
      unmanageItems generatedApps items c errs = (c', errs)
      ∧ catalogs c' = catalogs c
      ∧ (∀ o, o ∈ items →
           objects c' !! Name o =
             Some (if isOrphan generatedApps o then toStored (removeLabels o)
                   else toStored o))
      ∧ (∀ n, n ∉ Name <$> items → objects c' !! n = objects c !! n)
      ∧ requests c' =
          requests c ++
          ((λ o, PatchRequest o (removeLabels o)) <$>
             filter (λ o, isOrphan generatedApps o = true) items).
Proof.
  induction items as [|o rest IH]; intros c errs Hnd Hst; simpl.
  - exists c. split_and!; try done.
    + intros o Ho. by apply elem_of_nil in Ho.
    + by rewrite app_nil_r.
  - rewrite fmap_cons, NoDup_cons in Hnd. destruct Hnd as [Ho Hnd].
    assert (∀ o', o' ∈ rest → Name o' ≠ Name o) as Hne.
    { intros o' Ho' Heq. apply Ho. apply list_elem_of_fmap. eauto. }
    destruct (isOrphan generatedApps o) eqn:Horph.
    + unfold removeManagedLabels, kubernetes.PatchObject, Patch.
      change (Name (removeLabels o)) with (Name o).
      rewrite (Hst o) by left. simpl.
      destruct (IH (send c (<[Name o := toStored (removeLabels o)]> (objects c))
                      (PatchRequest o (removeLabels o))) errs Hnd)
        as (c' & Hrun & Hcat & Hin & Hout & Hreq).
      { intros o' Ho'. simpl. rewrite lookup_insert_ne by (symmetry; by apply Hne).
        apply Hst. by right. }
      exists c'. split_and!; try done.
      * intros o' [->|Ho']%elem_of_cons.
        -- rewrite Hout by done. simpl. by rewrite lookup_insert_eq, Horph.
        -- by apply Hin.
      * intros n Hn. rewrite not_elem_of_cons in Hn. destruct Hn as [Hn1 Hn2].
        rewrite Hout by done. simpl. by rewrite lookup_insert_ne.
      * rewrite Hreq. simpl. rewrite filter_cons_True by done.
        by rewrite <-(assoc_L (++)).
    + destruct (IH c errs Hnd) as (c' & Hrun & Hcat & Hin & Hout & Hreq).
      { intros o' Ho'. apply Hst. by right. }
      exists c'. split_and!; try done.
      * intros o' [->|Ho']%elem_of_cons.
        -- rewrite Hout by done. rewrite Horph. apply Hst. by left.
        -- by apply Hin.
      * intros n Hn. rewrite not_elem_of_cons in Hn. destruct Hn as [Hn1 Hn2].
        by apply Hout.
      * rewrite Hreq. by rewrite filter_cons_False by (rewrite Horph; done).
Qed.

Lemma isOrphan_orphanOf catalogName generatedApps name s :
  orphanOf catalogName generatedApps name s =
    bool_decide (st_Labels s !! LabelApplicationCatalogName = Some catalogName)
    && isOrphan generatedApps (toObject name s).
Proof. done. Qed.

(** What [unmanageOrphans] does to the store. *)
Lemma unmanageOrphans_spec c catalogName generatedApps :
  ∃ c',
    unmanageOrphans c catalogName generatedApps = (c', None)
    ∧ catalogs c' = catalogs c
    ∧ (∀ name,
         objects c' !! name =
           (λ s, if orphanOf catalogName generatedApps name s
                 then stripped s else s) <$> objects c !! name)
    ∧ requests c' =
        requests c ++
        ((λ o, PatchRequest o (removeLabels o)) <$>
           filter (λ o, isOrphan generatedApps o = true)
             (List c LabelApplicationCatalogName catalogName)).
Proof.
  unfold unmanageOrphans.
  destruct (unmanageItems_spec generatedApps
              (List c LabelApplicationCatalogName catalogName) c [])
    as (c' & Hrun & Hcat & Hin & Hout & Hreq).
  { apply List_names_NoDup. }
  { intros o Ho. by apply elem_of_List in Ho as [? _]. }
  rewrite Hrun. exists c'. split_and!; try done.
  intros name. destruct (objects c !! name) as [s|] eqn:Hs; simpl.
  - rewrite isOrphan_orphanOf.
    destruct (decide (st_Labels s !! LabelApplicationCatalogName = Some catalogName))
      as [Hown|Hown].
    + rewrite bool_decide_eq_true_2 by done. simpl.
      assert (toObject name s ∈ List c LabelApplicationCatalogName catalogName) as Ho.
      { apply elem_of_List. simpl. by rewrite toStored_toObject. }
      specialize (Hin _ Ho). simpl in Hin. rewrite Hin.
      destruct (isOrphan generatedApps (toObject name s)); [done|].
      by rewrite toStored_toObject.
    + rewrite bool_decide_eq_false_2 by done. simpl.
      rewrite Hout, Hs; [done|].
      intros (o & -> & Ho)%list_elem_of_fmap.
      apply elem_of_List in Ho as [Hst Hlab]. rewrite Hs in Hst.
      injection Hst as ->. by apply Hown.
  - rewrite Hout; [done|].
    intros (o & -> & Ho)%list_elem_of_fmap.
    apply elem_of_List in Ho as [Hst _]. by rewrite Hs in Hst.
Qed.

(** The identities produced in a pass are those of the charts. *)
Lemma reconcileCharts_generated catalog charts :
  ∀ c errs generatedApps,
    (reconcileCharts catalog charts c errs generatedApps).2
    = list_to_set (GetAppName <$> charts) ∪ generatedApps.
Proof.
  induction charts as [|chart rest IH]; intros c errs generatedApps; simpl.
  - by rewrite (left_id_L ∅ (∪)).
  - destruct (reconcileApplicationDefinition c
                (convertChartToApplicationDefinition catalog chart)) as [c' err].
    rewrite IH. simpl.
    by rewrite (assoc_L (∪)), (comm_L (∪) (list_to_set _) {[ _ ]}).
Qed.

(** C7. Unmanaging orphans rewrites the store object by object: an object
    labelled with the catalog as its owner and absent from the identities
    produced in this pass (every such object when the catalog is deleted)
    loses the managed-by and the catalog-name label and nothing else: its
    other labels, its annotations and its spec are as before.  Every other
    object is as before, no object is deleted, and the only requests sent
    are patches.  A reconcile of a catalog that is not found does this to
    every object labelled with its name; a reconcile of a catalog that is
    found ends with it, the identities produced being those of the entries
    of the catalog. *)
Theorem C7_unmanage_strips_ownership_labels_only
    (c : Client) (catalogName : string) (generatedApps : option (gset string)) :
  (∃ c',
     unmanageOrphans c catalogName generatedApps = (c', None)
     ∧ catalogs c' = catalogs c
     ∧ (∀ name,
          objects c' !! name =
            (λ s, if orphanOf catalogName generatedApps name s
                  then stripped s else s) <$> objects c !! name)
     ∧ dom (objects c') = dom (objects c)
     ∧ ∃ sent, requests c' = requests c ++ sent
               ∧ Forall (λ r, ∃ o, r = PatchRequest o (removeLabels o)) sent)
  ∧ (∀ s,
       st_Labels (stripped s) !! LabelManagedByApplicationCatalog = None
       ∧ st_Labels (stripped s) !! LabelApplicationCatalogName = None
       ∧ (∀ l, l ≠ LabelManagedByApplicationCatalog →
               l ≠ LabelApplicationCatalogName →
               st_Labels (stripped s) !! l = st_Labels s !! l)
       ∧ st_Annotations (stripped s) = st_Annotations s
       ∧ st_Spec (stripped s) = st_Spec s)
  ∧ (catalogs c !! catalogName = None →
     reconcile c catalogName = unmanageOrphans c catalogName None)
  ∧ (∀ catalog charts,
       catalogs c !! catalogName = Some catalog →
       GetHelmCharts catalog = Some charts →
       objects (reconcile c catalogName).1
       = objects
           (unmanageOrphans (reconcileCharts catalog charts c [] ∅).1.1
              (ac_Name catalog)
              (Some (list_to_set (GetAppName <$> charts)))).1).
Proof.
  split_and!.
  - destruct (unmanageOrphans_spec c catalogName generatedApps)
      as (c' & Hrun & Hcat & Hobj & Hreq).
    exists c'. split_and!; try done.
    + apply set_eq. intros n. rewrite !elem_of_dom, Hobj.
      by rewrite fmap_is_Some.
    + eexists. split; [done|]. apply Forall_fmap, Forall_forall.
      intros o _. by exists o.
  - intros s. unfold stripped; simpl. split_and!; try done.
    + rewrite lookup_delete_ne by done. apply lookup_delete_eq.
    + apply lookup_delete_eq.
    + intros l H1 H2. by rewrite !lookup_delete_ne.
  - intros Hgone. unfold reconcile. by rewrite Hgone.
  - intros catalog charts Hfound Hcharts. unfold reconcile.
    rewrite Hfound, Hcharts. simpl.
    pose proof (reconcileCharts_generated catalog charts c [] ∅) as Hgen.
    destruct (reconcileCharts catalog charts c [] ∅) as [[c1 errs] apps].
    simpl in *. subst apps. rewrite (right_id_L ∅ (∪)).
    destruct (unmanageOrphans c1 (ac_Name catalog)
                (Some (list_to_set (GetAppName <$> charts)))) as [c2 err].
    by destruct err.
Qed.

End Orphans.

(** ** Conflict detection *)

Section Conflicts.
Import v1alpha1 appskubermaticv1 client admission validation spec.

Lemma append_cons a s t :
  String.append (String a s) t = String a (String.append s t).
Proof. reflexivity. Qed.

Lemma append_nil_r (s : string) : String.append s EmptyString = s.
Proof. induction s as [|a s IH]; [done|]. by rewrite append_cons, IH. Qed.

Lemma append_assoc (s t u : string) :
  String.append (String.append s t) u = String.append s (String.append t u).
Proof. induction s as [|a s IH]; [done|]. by rewrite !append_cons, IH. Qed.

Lemma occursIn_refl s : gostrings.occursIn s s.
Proof. exists EmptyString, EmptyString. simpl. by rewrite append_nil_r. Qed.

Lemma occursIn_append_l s t u :
  gostrings.occursIn s t → gostrings.occursIn s (String.append t u).
Proof.
  intros (b & a & ->). exists b, (String.append a u).
  by rewrite !append_assoc.
Qed.

Lemma occursIn_append_r s t u :
  gostrings.occursIn s u → gostrings.occursIn s (String.append t u).
Proof.
  intros (b & a & ->). exists (String.append t b), a.
  by rewrite !append_assoc.
Qed.

Lemma occursIn_concat s (l : list string) :
  s ∈ l → gostrings.occursIn s (String.concat EmptyString l).
Proof.
  induction l as [|x l IH]; [by intros ?%elem_of_nil|].
  intros [->|Hin]%elem_of_cons.
  - destruct l; simpl; [apply occursIn_refl|].
    apply occursIn_append_l, occursIn_refl.
  - destruct l as [|y l]; [by apply elem_of_nil in Hin|].
    change (String.concat EmptyString (x :: y :: l))
      with (String.append x (String.concat EmptyString (y :: l))).
    by apply occursIn_append_r, IH.
Qed.

Lemma occursIn_trans s t u :
  gostrings.occursIn s t → gostrings.occursIn t u → gostrings.occursIn s u.
Proof.
  intros (b & a & ->) (b' & a' & ->).
  exists (String.append b' b), (String.append a a').
  by rewrite !append_assoc.
Qed.

Section WithFormat.
Variable quote : string → string.

(** Every conflict has its line in the message. *)
Lemma formatConflictMessage_lists conflicts conflict :
  conflict ∈ conflicts →
  gostrings.occursIn (conflictLine quote conflict)
    (formatConflictMessage quote conflicts).
Proof.
  intros Hin. unfold formatConflictMessage.
  destruct conflicts as [|c0 cs]; [by apply elem_of_nil in Hin|].
  eapply occursIn_trans; [|apply occursIn_concat; right; left].
  apply occursIn_concat, list_elem_of_fmap. eauto.
Qed.

(** The loop over the charts: the names it indexes, and when it reports no
    duplicate. *)
Lemma collectAppNames_spec charts :
  ∀ appNames conflicts,
    ∃ appNames' duplicates,
      collectAppNames quote charts appNames conflicts
      = (appNames', conflicts ++ duplicates)
      ∧ (∀ n, is_Some (appNames' !! n) ↔
              is_Some (appNames !! n) ∨ n ∈ GetAppName <$> charts)
      ∧ (duplicates = [] ↔
           NoDup (GetAppName <$> charts)
           ∧ ∀ chart, chart ∈ charts → appNames !! GetAppName chart = None).
Proof.
  induction charts as [|chart rest IH]; intros appNames conflicts; simpl.
  - exists appNames, []. rewrite app_nil_r. split_and!; try done.
    + intros n. split; [by left|]. intros [?|?%elem_of_nil]; done.
    + split; [|done]. intros _. split; [constructor|].
      by intros ? ?%elem_of_nil.
  - destruct (appNames !! GetAppName chart) as [existingChart|] eqn:Hc.
    + destruct (IH appNames
                  (conflicts ++
                   [{| AppDefName := GetAppName chart;
                       OwnerCatalog := duplicateOwner quote existingChart (ChartName chart) |}]))
        as (m' & dups & Hrun & Hdom & Hdups).
      exists m', ({| AppDefName := GetAppName chart;
                     OwnerCatalog := duplicateOwner quote existingChart (ChartName chart) |}
                  :: dups).
      split_and!.
      * rewrite Hrun. by rewrite <-(assoc_L (++)).
      * intros n. rewrite Hdom, elem_of_cons. split; [tauto|].
        intros [?|[->|?]]; [tauto| |tauto]. left. by rewrite Hc.
      * split; [done|]. intros [_ H]. specialize (H chart).
        rewrite Hc in H. discriminate H. by left.
    + destruct (IH (<[GetAppName chart := ChartName chart]> appNames) conflicts)
        as (m' & dups & Hrun & Hdom & Hdups).
      exists m', dups. split_and!; [done| |].
      * intros n. rewrite Hdom, elem_of_cons.
        destruct (decide (n = GetAppName chart)) as [->|Hne].
        -- rewrite lookup_insert_eq. split; [auto|]. intros _. left. eauto.
        -- rewrite lookup_insert_ne by done. split; [tauto|].
           intros [?|[?|?]]; tauto.
      * rewrite Hdups, NoDup_cons. split.
        -- intros [Hnd Hfresh]. split_and!; [|done|].
           ++ intros (c' & Heq & Hin)%list_elem_of_fmap.
              specialize (Hfresh c' Hin). rewrite <-Heq in Hfresh.
              by rewrite lookup_insert_eq in Hfresh.
           ++ intros c' [->|Hin]%elem_of_cons; [done|].
              specialize (Hfresh c' Hin).
              destruct (decide (GetAppName chart = GetAppName c')) as [Heq|Hne].
              ** rewrite Heq, lookup_insert_eq in Hfresh. done.
              ** by rewrite lookup_insert_ne in Hfresh.
        -- intros [[Hnotin Hnd] Hfresh]. split; [done|].
           intros c' Hin. rewrite lookup_insert_ne.
           ++ apply Hfresh. by right.
           ++ intros Heq. apply Hnotin. apply list_elem_of_fmap. eauto.
Qed.

(** The loop over the listed items: [existing] holds the listed objects
    whose names are indexed. *)
Lemma indexExisting_spec (appNames : gmap string string) items :
  NoDup (Name <$> items) →
  ∀ n o, indexExisting appNames items !! n = Some o ↔
         o ∈ items ∧ Name o = n ∧ is_Some (appNames !! n).
Proof.
  unfold indexExisting.
  induction items as [|item items IH] using rev_ind; intros Hnd n o.
  - simpl. rewrite lookup_empty. split; [done|]. by intros [?%elem_of_nil _].
  - rewrite fmap_app, NoDup_app in Hnd. destruct Hnd as (Hnd & Hdisj & _).
    rewrite foldl_snoc, elem_of_app, list_elem_of_singleton.
    destruct (appNames !! Name item) as [x|] eqn:Hitem.
    + destruct (decide (n = Name item)) as [->|Hne].
      * rewrite lookup_insert_eq. split.
        -- intros [= ->]. split_and!; [by right|done|by rewrite Hitem].
        -- intros ([Hin| ->] & Hname & _); [|done].
           exfalso. apply (Hdisj (Name item)).
           ++ apply list_elem_of_fmap. eauto.
           ++ simpl. by left.
      * rewrite lookup_insert_ne by done. rewrite (IH Hnd). split.
        -- intros (? & ? & ?). split_and!; auto.
        -- intros ([?| ->] & ? & ?); [done|]. congruence.
    + rewrite (IH Hnd). split.
      * intros (? & ? & ?). split_and!; auto.
      * intros ([?| ->] & Hname & Hsome); [done|].
        rewrite <-Hname, Hitem in Hsome. by destruct Hsome.
Qed.

Lemma externalConflict_Some catalog existing appName conflict :
  externalConflict catalog existing appName = Some conflict ↔
  ∃ appDef owner,
    existing !! appName = Some appDef
    ∧ Labels appDef !! LabelApplicationCatalogName = Some owner
    ∧ owner ≠ EmptyString ∧ owner ≠ ac_Name catalog
    ∧ conflict = {| AppDefName := appName; OwnerCatalog := owner |}.
Proof.
  unfold externalConflict. destruct (existing !! appName) as [appDef|].
  - destruct (Labels appDef !! LabelApplicationCatalogName) as [owner|] eqn:Hown;
      simpl.
    + destruct (String.eqb_spec owner EmptyString) as [->|Hne]; simpl.
      { split; [done|]. intros (? & ? & ? & ? & ? & _); congruence. }
      destruct (String.eqb_spec owner (ac_Name catalog)) as [->|Hne']; simpl.
      { split; [done|]. intros (? & ? & ? & ? & ? & ? & _); congruence. }
      split.
      * intros [= <-]. by exists appDef, owner.
      * intros (? & ? & ? & ? & ? & ? & ->). congruence.
    + split; [done|]. intros (? & ? & ? & ? & _); congruence.
  - split; [done|]. by intros (? & ? & ? & _).
Qed.

(** The loop over the charts reports every chart that comes after a chart
    of its identity, with the name of an earlier chart of that identity. *)
Lemma collectAppNames_duplicates charts :
  ∀ appNames conflicts j chart,
    charts !! j = Some chart →
    match appNames !! GetAppName chart with
    | Some first =>
        {| AppDefName := GetAppName chart;
           OwnerCatalog := duplicateOwner quote first (ChartName chart) |}
        ∈ (collectAppNames quote charts appNames conflicts).2
    | None =>
        (∃ i earlier, i < j ∧ charts !! i = Some earlier
                      ∧ GetAppName earlier = GetAppName chart) →
        ∃ i earlier,
          i < j ∧ charts !! i = Some earlier
          ∧ GetAppName earlier = GetAppName chart
          ∧ {| AppDefName := GetAppName chart;
               OwnerCatalog :=
                 duplicateOwner quote (ChartName earlier) (ChartName chart) |}
            ∈ (collectAppNames quote charts appNames conflicts).2
    end.
Proof.
  induction charts as [|c rest IH]; intros appNames conflicts j chart Hj;
    [done|].
  cbn [collectAppNames]. cbv zeta.
  destruct j as [|j]; simpl in Hj.
  - injection Hj as ->.
    destruct (appNames !! GetAppName chart) as [first|] eqn:Hc.
    + destruct (collectAppNames_spec rest appNames
                  (conflicts ++
                   [{| AppDefName := GetAppName chart;
                       OwnerCatalog :=
                         duplicateOwner quote first (ChartName chart) |}]))
        as (m & dups & -> & _).
      simpl. rewrite !elem_of_app, list_elem_of_singleton. tauto.
    + intros (i & ? & Hlt & _). lia.
  - specialize (IH appNames) as IHsame.
    destruct (appNames !! GetAppName c) as [firstc|] eqn:Hc.
    + specialize (IHsame
                    (conflicts ++
                     [{| AppDefName := GetAppName c;
                         OwnerCatalog :=
                           duplicateOwner quote firstc (ChartName c) |}])
                    j chart Hj).
      destruct (appNames !! GetAppName chart) as [first|] eqn:Hchart; [done|].
      intros (i & earlier & Hlt & Hi & Hid). destruct i as [|i]; simpl in Hi.
      { injection Hi as ->. congruence. }
      destruct IHsame as (i' & e' & Hlt' & Hi' & Hid' & Hin').
      { exists i, earlier. split_and!; [lia|done|done]. }
      exists (S i'), e'. split_and!; [lia|done|done|done].
    + specialize (IH (<[GetAppName c := ChartName c]> appNames) conflicts
                    j chart Hj).
      destruct (decide (GetAppName chart = GetAppName c)) as [Heq|Hne].
      * rewrite Heq, lookup_insert_eq in IH. rewrite Heq, Hc. intros _.
        exists 0, c. split_and!; [lia|done|done|]. by rewrite <-Heq in IH |- *.
      * rewrite lookup_insert_ne in IH by done.
        destruct (appNames !! GetAppName chart) as [first|]; [done|].
        intros (i & earlier & Hlt & Hi & Hid). destruct i as [|i]; simpl in Hi.
        { injection Hi as ->. congruence. }
        destruct IH as (i' & e' & Hlt' & Hi' & Hid' & Hin').
        { exists i, earlier. split_and!; [lia|done|done]. }
        exists (S i'), e'. split_and!; [lia|done|done|done].
Qed.

(** What the validator reports: the duplicates inside the catalog, then
    the cross-catalog conflicts. *)
Lemma detectConflicts_parts c catalog :
  ∃ duplicates external,
    detectConflicts quote c catalog = duplicates ++ external
    ∧ (duplicates = [] ↔
       NoDup (GetAppName <$> default [] (GetHelmCharts catalog)))
    ∧ (∀ conflict,
         conflict ∈ external ↔
         crossConflict c catalog (AppDefName conflict) (OwnerCatalog conflict))
    ∧ ∀ j chart,
        default [] (GetHelmCharts catalog) !! j = Some chart →
        (∃ i earlier, i < j
           ∧ default [] (GetHelmCharts catalog) !! i = Some earlier
           ∧ GetAppName earlier = GetAppName chart) →
        ∃ i earlier,
          i < j ∧ default [] (GetHelmCharts catalog) !! i = Some earlier
          ∧ GetAppName earlier = GetAppName chart
          ∧ {| AppDefName := GetAppName chart;
               OwnerCatalog :=
                 duplicateOwner quote (ChartName earlier) (ChartName chart) |}
            ∈ duplicates.
Proof.
  unfold detectConflicts, crossConflict.
  destruct (default [] (GetHelmCharts catalog)) as [|chart0 rest] eqn:Hcharts.
  { exists [], []. split_and!; try done.
    - split; [constructor|done].
    - intros conflict. split.
      + by intros ?%elem_of_nil.
      + by intros [(chart & ?%elem_of_nil & _) _]. }
  remember (chart0 :: rest) as charts eqn:Hcs. clear Hcs.
  destruct (collectAppNames_spec charts ∅ []) as (m & dups & Hrun & Hdom & Hdups).
  pose proof (collectAppNames_duplicates charts ∅ []) as Hnamed.
  rewrite Hrun in Hnamed |- *. simpl in Hnamed |- *.
  exists dups. eexists. split; [reflexivity|]. split_and!.
  { rewrite Hdups. split; [by intros [? _]|].
    intros Hnd. split; [done|]. intros; apply lookup_empty. }
  2:{ intros j chart Hj Hearlier. specialize (Hnamed j chart Hj).
      rewrite lookup_empty in Hnamed. by apply Hnamed. }
  intros conflict. rewrite list_elem_of_omap. split.
  - intros (n & Hn & Hext).
    apply externalConflict_Some in Hext as (o & owner & Hex & Hown & H1 & H2 & ->).
    apply indexExisting_spec in Hex as (Ho & Hname & Hm); [|apply List_names_NoDup].
    apply elem_of_List in Ho as [Hst Hman]. simpl. split.
    + apply Hdom in Hm as [[? Hm]|Hm]; [by rewrite lookup_empty in Hm|].
      apply list_elem_of_fmap in Hm as (chart & -> & Hin). eauto.
    + exists (toStored o). rewrite <-Hname. split_and!; done.
  - intros [(chart & Hin & Hname) (s & Hs & Hman & Hown & H1 & H2)].
    assert (is_Some (m !! AppDefName conflict)) as Hm.
    { apply Hdom. right. apply list_elem_of_fmap. eauto. }
    exists (AppDefName conflict). split.
    + destruct Hm as [x Hx]. apply list_elem_of_fmap.
      exists (AppDefName conflict, x). split; [done|].
      by apply elem_of_map_to_list.
    + apply externalConflict_Some.
      exists (toObject (AppDefName conflict) s), (OwnerCatalog conflict).
      split_and!; try done; [|by destruct conflict].
      apply indexExisting_spec; [apply List_names_NoDup|].
      split_and!; try done. apply elem_of_List. simpl.
      by rewrite toStored_toObject.
Qed.

(** What the cross-catalog check reports, duplicates apart. *)
Lemma detectConflicts_external c catalog :
  ∃ duplicates external,
    detectConflicts quote c catalog = duplicates ++ external
    ∧ (NoDup (GetAppName <$> default [] (GetHelmCharts catalog)) → duplicates = [])
    ∧ ∀ conflict,
        conflict ∈ external ↔
        crossConflict c catalog (AppDefName conflict) (OwnerCatalog conflict).
Proof.
  destruct (detectConflicts_parts c catalog)
    as (duplicates & external & Hsplit & Hdups & Hext & _).
  exists duplicates, external. split_and!; [done| |done]. apply Hdups.
Qed.

(** The line of a conflict carries its text. *)
Lemma conflictLine_text appName owner :
  gostrings.occursIn (conflictText quote appName owner)
    (conflictLine quote {| AppDefName := appName; OwnerCatalog := owner |}).
Proof.
  exists "  - "%string, (String "010" EmptyString).
  unfold conflictLine, conflictText. rewrite !append_assoc. reflexivity.
Qed.

End WithFormat.

(** C2, as amended.  For a create or update whose object decodes to a
    catalog with a valid filter annotation, the validator answers with the
    allow response or with a denial.  It denies exactly when the cluster
    holds a cross-catalog conflict (an object under an identity of the
    catalog, labelled managed-by "true", whose catalog-name label is
    non-empty and differs from the name of the catalog) or two entries of
    the catalog have one identity; so a catalog of pairwise distinct
    identities is denied exactly when there is a cross-catalog conflict,
    and an object owned by the same catalog, or without an owner, is none.
    The message of a denial names every conflict: for each cross-catalog
    conflict the identity and the owning catalog, and for each entry that
    comes after an entry of its identity the identity and the chart names
    of the two. *)
Theorem C2_denied_iff_cross_catalog_conflict
    (quote : string → string) (ident : ChartConfig → string)
    (defaultCharts : list ChartConfig)
    (h : AdmissionHandler) (req : Request) (catalog : ApplicationCatalog) :
  Operation req = Create ∨ Operation req = Update →
  decoder h req = inl catalog →
  (∀ helm, Helm catalog = Some helm → IncludeDefaults helm = true →
     defaulting.ValidateIncludeAnnotation ident defaultCharts
       (default EmptyString (ac_Annotations catalog !! defaulting.includeAnnotation))
     = []) →
  let response := Handle quote ident defaultCharts h req in
  let charts := default [] (GetHelmCharts catalog) in
  (response = Allowed "no conflicts detected"
   ∨ ∃ message, response = Denied message)
  ∧ (allows response = false ↔
     (∃ appName owner, crossConflict (h_client h) catalog appName owner)
     ∨ ¬ NoDup (GetAppName <$> charts))
  ∧ (NoDup (GetAppName <$> charts) →
     (allows response = false ↔
      ∃ appName owner, crossConflict (h_client h) catalog appName owner))
  ∧ ∀ message,
      response = Denied message →
      (∀ appName owner,
         crossConflict (h_client h) catalog appName owner →
         gostrings.occursIn (conflictText quote appName owner) message)
      ∧ ∀ j chart,
          charts !! j = Some chart →
          (∃ i earlier, i < j ∧ charts !! i = Some earlier
                        ∧ GetAppName earlier = GetAppName chart) →
          ∃ i earlier,
            i < j ∧ charts !! i = Some earlier
            ∧ GetAppName earlier = GetAppName chart
            ∧ gostrings.occursIn
                (conflictText quote (GetAppName chart)
                   (duplicateText quote (ChartName earlier) (ChartName chart)))
                message.
Proof.
  intros Hop Hdec Hann response charts.
  set (conflicts := detectConflicts quote (h_client h) catalog).
  assert (response =
          match conflicts with
          | [] => Allowed "no conflicts detected"
          | _ => Denied (formatConflictMessage quote conflicts)
          end) as Hresp.
  { subst response conflicts. unfold Handle, handleValidation.
    assert (String.eqb (Operation req) Create || String.eqb (Operation req) Update
            = true) as ->.
    { destruct Hop as [-> | ->]; done. }
    rewrite Hdec.
    assert (match Helm catalog with
            | Some helm =>
                if IncludeDefaults helm then
                  defaulting.ValidateIncludeAnnotation ident defaultCharts
                    (default EmptyString
                       (ac_Annotations catalog !! defaulting.includeAnnotation))
                else []
            | None => []
            end = []) as ->.
    { destruct (Helm catalog) as [helm|] eqn:Hhelm; [|done].
      destruct (IncludeDefaults helm) eqn:Hinc; [|done]. by apply (Hann helm). }
    by destruct (detectConflicts quote (h_client h) catalog). }
  destruct (detectConflicts_parts quote (h_client h) catalog)
    as (dups & ext & Hsplit & Hdups & Hext & Hnamed).
  fold conflicts in Hsplit. fold charts in Hdups, Hnamed.
  clearbody conflicts.
  assert (allows response = false ↔ conflicts ≠ []) as Hdenied.
  { rewrite Hresp. by destruct conflicts. }
  assert ((∃ appName owner, crossConflict (h_client h) catalog appName owner)
          ↔ ext ≠ []) as Hcross.
  { split.
    - intros (appName & owner & Hc) Hnil.
      assert ({| AppDefName := appName; OwnerCatalog := owner |} ∈ ext) as Hin
        by by apply Hext.
      rewrite Hnil in Hin. by apply elem_of_nil in Hin.
    - destruct ext as [|conflict ext']; [done|]. intros _.
      exists (AppDefName conflict), (OwnerCatalog conflict).
      apply Hext. by left. }
  split_and!.
  - rewrite Hresp. destruct conflicts; [by left|right; by eexists].
  - rewrite Hdenied, Hcross, Hsplit, <-Hdups. split.
    + intros Hne. destruct ext; [right|by left].
      intros ->. by apply Hne.
    + intros [Hne|Hne] [? ?]%app_eq_nil; by apply Hne.
  - intros Hnd. rewrite Hdenied, Hcross, Hsplit.
    apply Hdups in Hnd as ->. done.
  - intros message Hmessage. rewrite Hresp in Hmessage.
    assert (message = formatConflictMessage quote conflicts) as ->.
    { destruct conflicts; [done|]. by injection Hmessage. }
    split.
    + intros appName owner Hc.
      eapply occursIn_trans; [apply conflictLine_text|].
      apply formatConflictMessage_lists. rewrite Hsplit, elem_of_app.
      right. by apply Hext.
    + intros j chart Hj Hearlier.
      destruct (Hnamed j chart Hj Hearlier) as (i & e & Hlt & Hi & Hid & Hin).
      exists i, e. split_and!; try done.
      eapply occursIn_trans;
        [apply (conflictLine_text quote (GetAppName chart)
                  (duplicateOwner quote (ChartName e) (ChartName chart)))|].
      apply formatConflictMessage_lists. rewrite Hsplit, elem_of_app.
      by left.
Qed.

End Conflicts.

Lemma C2_denied_iff_cross_catalog_conflict_witness :
  admission.allows
    (validation.Handle sample.quote v1alpha1.ChartName []
       {| validation.decoder := λ _, inl sample.catalogC3;
          validation.h_client := sample.clientWithEditedNginx |}
       sample.createRequest) = false.
Proof.
  destruct (C2_denied_iff_cross_catalog_conflict sample.quote
              v1alpha1.ChartName []
              {| validation.decoder := λ _, inl sample.catalogC3;
                 validation.h_client := sample.clientWithEditedNginx |}
              sample.createRequest sample.catalogC3)
    as (_ & Hdenied & _).
  - left. reflexivity.
  - reflexivity.
  - intros helm Hhelm Hinc. vm_compute in Hhelm.
    injection Hhelm as <-. discriminate Hinc.
  - apply Hdenied. left. exists "nginx", "c2". split.
    + exists sample.nginxChart. split; [vm_compute; left|reflexivity].
    + eexists. split; [vm_compute; reflexivity|].
      split_and!; [vm_compute; reflexivity|vm_compute; reflexivity|done|done].
Defined.

(** The validator denies a catalog with two entries of one identity on an
    empty cluster, where no downstream resource exists at all. *)
Lemma C2_counterexample_duplicate_identities :
  admission.allows
    (validation.Handle sample.quote v1alpha1.ChartName []
       {| validation.decoder := λ _, inl sample.duplicateCatalog;
          validation.h_client := sample.emptyClient |}
       sample.createRequest) = false
  ∧ ¬ ∃ appName owner,
        spec.crossConflict sample.emptyClient sample.duplicateCatalog appName owner.
Proof.
  split; [vm_compute; reflexivity|].
  intros (appName & owner & _ & s & Hs & _).
  change (client.objects sample.emptyClient) with (∅ : gmap string client.Stored) in Hs.
  by rewrite lookup_empty in Hs.
Qed.

(** ** The defaulting engine *)

Section Defaulting.
Import v1alpha1 defaulting spec.

Variable ident : ChartConfig → string.

(** The map after overwriting with a list of entries: under each name the
    last entry of that name, and what was there for the other names. *)
Lemma overwrite_lookup (charts : list ChartConfig) entries k :
  foldl (overwrite ident) entries charts !! k =
    match lastWithKey ident k charts with
    | Some chart => Some chart
    | None => entries !! k
    end.
Proof.
  induction charts as [|chart charts IH] using rev_ind; [done|].
  rewrite foldl_snoc. unfold overwrite at 1, lastWithKey.
  rewrite filter_app, filter_cons, filter_nil.
  destruct (decide (ident chart = k)) as [<-|Hne].
  - by rewrite lookup_insert_eq, last_snoc.
  - rewrite lookup_insert_ne, app_nil_r by done. apply IH.
Qed.

Lemma merged_lookup (userCharts defaults : list ChartConfig) k :
  foldl (overwrite ident) (foldl (overwrite ident) ∅ defaults) userCharts !! k =
    match lastWithKey ident k userCharts with
    | Some chart => Some chart
    | None => lastWithKey ident k defaults
    end.
Proof.
  rewrite !overwrite_lookup, lookup_empty.
  by destruct (lastWithKey ident k userCharts), (lastWithKey ident k defaults).
Qed.

Lemma merged_key (userCharts defaults : list ChartConfig) k chart :
  foldl (overwrite ident) (foldl (overwrite ident) ∅ defaults) userCharts !! k
  = Some chart → ident chart = k.
Proof.
  rewrite merged_lookup.
  destruct (lastWithKey ident k userCharts) as [u|] eqn:Hu.
  - intros [= <-]. by apply lastWithKey_Some in Hu as [_ ?].
  - by intros [_ ?]%lastWithKey_Some.
Qed.

Lemma merged_values_NoDup (userCharts defaults : list ChartConfig) :
  NoDup (ident <$>
           (map_to_list
              (foldl (overwrite ident) (foldl (overwrite ident) ∅ defaults)
                 userCharts)).*2).
Proof.
  rewrite <-list_fmap_compose.
  rewrite (list_fmap_ext _ fst); [apply NoDup_fst_map_to_list|].
  intros i [k chart] Hi. simpl.
  apply list_elem_of_lookup_2, elem_of_map_to_list in Hi.
  by apply merged_key in Hi.
Qed.

Lemma replaced_key (userCharts : list ChartConfig) d :
  ident (default d (lastWithKey ident (ident d) userCharts)) = ident d.
Proof.
  destruct (lastWithKey ident (ident d) userCharts) as [u|] eqn:Hu; [|done].
  by apply lastWithKey_Some in Hu as [_ ?].
Qed.

Lemma claimed_keys_NoDup (userCharts defaults : list ChartConfig) :
  NoDup (ident <$> defaults) → NoDup (ident <$> userCharts) →
  NoDup (ident <$>
           (((λ d, default d (lastWithKey ident (ident d) userCharts)) <$> defaults)
            ++ filter (λ u, ident u ∉ ident <$> defaults) userCharts)).
Proof.
  intros HD HU. rewrite fmap_app, <-list_fmap_compose.
  rewrite (list_fmap_ext _ ident defaults);
    [| intros i d _; apply replaced_key].
  apply NoDup_app. split_and!; [done| |by apply NoDup_fmap_filter].
  intros k Hk (u & -> & Hu)%list_elem_of_fmap.
  by apply list_elem_of_filter in Hu as [? _].
Qed.

(** When no two defaults and no two user entries share a name, the merge
    is the list the claim describes. *)
Lemma mergeCharts_claimed (userCharts defaults : list ChartConfig) :
  NoDup (ident <$> defaults) → NoDup (ident <$> userCharts) →
  mergeCharts ident userCharts defaults = claimedMerge ident userCharts defaults.
Proof.
  intros HD HU. unfold mergeCharts, claimedMerge, sortCharts.
  pose proof (merged_values_NoDup userCharts defaults) as Hnd1.
  pose proof (claimed_keys_NoDup userCharts defaults HD HU) as Hnd2.
  apply sortBy_unique; [done|].
  apply NoDup_Permutation; [by eapply NoDup_fmap_1|by eapply NoDup_fmap_1|].
  intros x. rewrite elem_of_app, list_elem_of_filter.
  rewrite (list_elem_of_fmap snd), (list_elem_of_fmap _ defaults).
  split.
  - intros ([k chart] & -> & Hin). simpl.
    apply elem_of_map_to_list in Hin. pose proof (merged_key _ _ _ _ Hin) as <-.
    rewrite merged_lookup in Hin.
    destruct (lastWithKey ident (ident chart) userCharts) as [u|] eqn:Hu.
    + injection Hin as ->.
      destruct (decide (ident chart ∈ ident <$> defaults)) as [Hc|Hc].
      * left. apply list_elem_of_fmap in Hc as (d & Hk & Hd).
        exists d. split; [|done]. by rewrite <-Hk, Hu.
      * right. split; [done|]. by apply lastWithKey_Some in Hu as [? _].
    + left. exists chart. rewrite Hu. split; [done|].
      by apply lastWithKey_Some in Hin as [? _].
  - intros [(d & -> & Hd)|[Hnew Hu]].
    + destruct (lastWithKey ident (ident d) userCharts) as [u|] eqn:Hu; simpl.
      * exists (ident u, u). split; [done|]. apply elem_of_map_to_list.
        rewrite merged_lookup.
        pose proof (lastWithKey_Some _ _ _ _ Hu) as [_ Hk]. by rewrite Hk, Hu.
      * exists (ident d, d). split; [done|]. apply elem_of_map_to_list.
        rewrite merged_lookup, Hu. by apply lastWithKey_NoDup.
    + exists (ident x, x). split; [done|]. apply elem_of_map_to_list.
      rewrite merged_lookup.
      by rewrite (proj2 (lastWithKey_NoDup ident (ident x) userCharts x HU)).
Qed.

Variable defaultCharts : list ChartConfig.

Lemma GetDefaultCharts_Permutation :
  GetDefaultCharts ident defaultCharts ≡ₚ defaultCharts.
Proof. apply sortBy_Permutation. Qed.

Lemma filteredDefaults_NoDup catalog :
  NoDup (ident <$> defaultCharts) →
  NoDup (ident <$> filteredDefaults ident defaultCharts catalog).
Proof.
  intros Hnd. unfold filteredDefaults, sortCharts.
  rewrite sortBy_Permutation.
  assert (NoDup (ident <$> GetDefaultCharts ident defaultCharts)) as Hg
    by by rewrite GetDefaultCharts_Permutation.
  case_match; [by apply NoDup_fmap_filter|done].
Qed.

(** Without a filter (no annotation, or an empty one) the defaults that
    take part are the whole built-in set. *)
Lemma filteredDefaults_no_filter catalog :
  default EmptyString (ac_Annotations catalog !! includeAnnotation) = EmptyString →
  filteredDefaults ident defaultCharts catalog = GetDefaultCharts ident defaultCharts.
Proof.
  intros Hnone. unfold filteredDefaults. rewrite Hnone. simpl.
  apply sortBy_fixed, sortBy_ascending.
Qed.

Lemma elem_of_claimed (userCharts defaults : list ChartConfig) x :
  x ∈ claimedMerge ident userCharts defaults ↔
  (∃ d, (x = default d (lastWithKey ident (ident d) userCharts)) ∧ d ∈ defaults)
  ∨ ((ident x ∉ ident <$> defaults) ∧ x ∈ userCharts).
Proof.
  unfold claimedMerge. rewrite sortBy_Permutation, elem_of_app, list_elem_of_filter.
  by rewrite (list_elem_of_fmap _ defaults).
Qed.

(** C3, as amended.  For a catalog with [includeDefaults] true and a
    populated list in which no two entries share a name (the built-in
    names being distinct as well), the defaulting engine stores the list
    obtained from the annotation-filtered, name-sorted defaults by
    replacing each default whose name a user entry carries with that whole
    entry, appending the user entries of other names and sorting by name.
    The list is ascending in the name, holds every name once and every user
    entry as the user wrote it; without a filter annotation its length is
    the number of built-in defaults plus the number of user entries whose
    name is no default name. *)
Theorem C3_merge_replaces_by_name_appends_sorts
    (catalog : ApplicationCatalog) (helm : HelmSpec)
    (userCharts : list ChartConfig) :
  Helm catalog = Some helm →
  IncludeDefaults helm = true →
  Charts helm = Some userCharts →
  userCharts ≠ [] →
  NoDup (ident <$> defaultCharts) →
  NoDup (ident <$> userCharts) →
  let selected := filteredDefaults ident defaultCharts catalog in
  let result := claimedMerge ident userCharts selected in
  GetHelmCharts (DefaultApplicationCatalog ident defaultCharts catalog)
  = Some result
  ∧ ascendingBy ident result
  ∧ NoDup (ident <$> result)
  ∧ (∀ u, u ∈ userCharts → u ∈ result)
  ∧ (∀ d, d ∈ selected → ident d ∉ ident <$> userCharts → d ∈ result)
  ∧ (default EmptyString (ac_Annotations catalog !! includeAnnotation)
     = EmptyString →
     length result =
       length defaultCharts
       + length (filter (λ u, ident u ∉ ident <$> defaultCharts) userCharts)).
Proof.
  intros Hhelm Hinc Hcharts Hne HD HU selected result.
  pose proof (filteredDefaults_NoDup catalog HD) as Hsel. fold selected in Hsel.
  split_and!.
  - unfold DefaultApplicationCatalog.
    rewrite Hhelm, Hinc, Hcharts. fold selected.
    destruct userCharts as [|u us]; [done|]. unfold GetHelmCharts; simpl.
    by rewrite mergeCharts_claimed.
  - apply sortBy_ascending.
  - unfold result, claimedMerge. rewrite sortBy_Permutation.
    by apply claimed_keys_NoDup.
  - intros u Hu. apply elem_of_claimed.
    destruct (decide (ident u ∈ ident <$> selected)) as [Hc|Hc]; [left|by right].
    apply list_elem_of_fmap in Hc as (d & Hk & Hd). exists d. split; [|done].
    by rewrite <-Hk, (proj2 (lastWithKey_NoDup ident (ident u) userCharts u HU)).
  - intros d Hd Hfree. apply elem_of_claimed. left. exists d. split; [|done].
    by rewrite (proj2 (lastWithKey_None ident (ident d) userCharts)).
  - intros Hnone. unfold result, claimedMerge.
    rewrite sortBy_Permutation, length_app, length_fmap.
    unfold selected. rewrite (filteredDefaults_no_filter catalog Hnone).
    rewrite GetDefaultCharts_Permutation. f_equal. f_equal.
    apply list_filter_iff. intros u. by rewrite GetDefaultCharts_Permutation.
Qed.

(** C4. For a catalog whose [includeDefaults] is false or omitted: when
    its entry list is absent (there is no helm block, or the list of the
    block is nil), the defaulting engine stores the whole built-in set,
    each entry once and sorted by name, and leaves the name, the
    annotations, the global repository settings and the flag of the
    catalog as they were; defaulting the outcome again changes nothing, so
    the injection happens once.  When the list is present, empty or
    populated, the engine returns the catalog unchanged.  So the engine
    changes such a catalog exactly when its list is absent. *)
Theorem C4_without_defaults_injects_once_else_identity
    (catalog : ApplicationCatalog) :
  withoutDefaults catalog →
  let defaulted := DefaultApplicationCatalog ident defaultCharts catalog in
  (listAbsent catalog →
     (∃ injected,
        GetHelmCharts defaulted = Some injected
        ∧ injected ≡ₚ defaultCharts
        ∧ ascendingBy ident injected)
     ∧ ac_Name defaulted = ac_Name catalog
     ∧ ac_Annotations defaulted = ac_Annotations catalog
     ∧ GetGlobalRepositorySettings defaulted
       = GetGlobalRepositorySettings catalog
     ∧ withoutDefaults defaulted
     ∧ ¬ listAbsent defaulted)
  ∧ (¬ listAbsent catalog → defaulted = catalog)
  ∧ DefaultApplicationCatalog ident defaultCharts defaulted = defaulted.
Proof.
  destruct catalog as [name annotations [[settings [charts|] include]|]];
    unfold withoutDefaults, listAbsent, DefaultApplicationCatalog,
      GetHelmCharts, GetGlobalRepositorySettings; simpl.
  - intros ->. split_and!; [done|done|done].
  - intros ->. simpl. split_and!; [|by intros []|done].
    intros _. split_and!; try done.
    exists (GetDefaultCharts ident defaultCharts). split_and!; [done| |].
    + apply GetDefaultCharts_Permutation.
    + apply sortBy_ascending.
  - intros _. split_and!; [|by intros []|done].
    intros _. split_and!; try done.
    exists (GetDefaultCharts ident defaultCharts). split_and!; [done| |].
    + apply GetDefaultCharts_Permutation.
    + apply sortBy_ascending.
Qed.

End Defaulting.

Lemma C3_merge_replaces_by_name_appends_sorts_witness :
  v1alpha1.ChartName <$>
    default []
      (v1alpha1.GetHelmCharts
         (defaulting.DefaultApplicationCatalog v1alpha1.ChartName
            sample.defaultCharts
            (sample.syncedCatalog None
               (Some [sample.plainChart "my-custom-app";
                      sample.plainChart "ingress-nginx"]))))
  = ["argo-cd"; "cert-manager"; "ingress-nginx"; "my-custom-app"].
Proof.
  destruct (C3_merge_replaces_by_name_appends_sorts v1alpha1.ChartName
              sample.defaultCharts
              (sample.syncedCatalog None
                 (Some [sample.plainChart "my-custom-app";
                        sample.plainChart "ingress-nginx"]))
              {| v1alpha1.hs_RepositorySettings := None;
                 v1alpha1.Charts := Some [sample.plainChart "my-custom-app";
                                          sample.plainChart "ingress-nginx"];
                 v1alpha1.IncludeDefaults := true |}
              [sample.plainChart "my-custom-app"; sample.plainChart "ingress-nginx"])
    as (Hresult & _).
  - reflexivity.
  - reflexivity.
  - reflexivity.
  - discriminate.
  - apply (bool_decide_unpack _). vm_compute. exact I.
  - apply (bool_decide_unpack _). vm_compute. exact I.
  - rewrite Hresult. vm_compute. reflexivity.
Defined.

(** Two user entries of one name that is no default name count once after
    defaulting, whichever of the chart name and the effective app name
    identifies an entry. *)
Lemma C3_counterexample_repeated_user_name :
  length
    (default []
       (v1alpha1.GetHelmCharts
          (defaulting.DefaultApplicationCatalog v1alpha1.ChartName
             sample.defaultCharts
             (sample.syncedCatalog None (Some sample.twiceMyApp))))) = 4
  ∧ length
      (default []
         (v1alpha1.GetHelmCharts
            (defaulting.DefaultApplicationCatalog v1alpha1.GetAppName
               sample.defaultCharts
               (sample.syncedCatalog None (Some sample.twiceMyApp))))) = 4
  ∧ length sample.defaultCharts
    + length
        (filter (λ u, v1alpha1.ChartName u
                      ∉ v1alpha1.ChartName <$> sample.defaultCharts)
           sample.twiceMyApp) = 5.
Proof. split_and!; vm_compute; reflexivity. Qed.

Lemma C4_without_defaults_injects_once_else_identity_witness :
  (∃ injected,
     v1alpha1.GetHelmCharts
       (defaulting.DefaultApplicationCatalog v1alpha1.ChartName
          sample.defaultCharts sample.unsyncedCatalog) = Some injected
     ∧ injected ≡ₚ sample.defaultCharts
     ∧ ascendingBy v1alpha1.ChartName injected)
  ∧ defaulting.DefaultApplicationCatalog v1alpha1.ChartName
      sample.defaultCharts sample.catalogC2
    = sample.catalogC2.
Proof.
  split.
  - destruct (C4_without_defaults_injects_once_else_identity v1alpha1.ChartName
                sample.defaultCharts sample.unsyncedCatalog) as (Hinject & _).
    + reflexivity.
    + destruct Hinject as [Hcharts _]; [reflexivity|]. exact Hcharts.
  - destruct (C4_without_defaults_injects_once_else_identity v1alpha1.ChartName
                sample.defaultCharts sample.catalogC2) as (_ & Hsame & _).
    + reflexivity.
    + apply Hsame. vm_compute. discriminate.
Defined.

(** ** The filter annotation *)

Section AnnotationText.
Import spec gostrings.

Lemma list_ascii_of_string_append (s t : string) :
  list_ascii_of_string (String.append s t)
  = list_ascii_of_string s ++ list_ascii_of_string t.
Proof. induction s as [|a s IH]; [done|]. simpl. by rewrite IH. Qed.

Lemma allBytes_Forall test (s : string) :
  allBytes test s = true
  ↔ Forall (λ a, test a = true) (list_ascii_of_string s).
Proof.
  induction s as [|a s IH]; simpl; [split; [constructor|done]|].
  by rewrite andb_true_iff, Forall_cons, IH.
Qed.

(** A blank is a white-space rune of one byte, read from either end. *)
Lemma afterRune_blank a rest :
  blankByte a = true →
  afterRune (runeBytes <$> spaceRunes) (a :: rest) = Some rest.
Proof.
  destruct a as [[] [] [] [] [] [] [] []]; intros H; vm_compute in H;
    try discriminate H; reflexivity.
Qed.

Lemma afterRune_blank_end a rest :
  blankByte a = true →
  afterRune ((λ rune, reverse (runeBytes rune)) <$> spaceRunes) (a :: rest)
  = Some rest.
Proof.
  destruct a as [[] [] [] [] [] [] [] []]; intros H; vm_compute in H;
    try discriminate H; reflexivity.
Qed.

(** No white-space rune starts or ends with a byte of an identifier. *)
Lemma afterRune_identifier a rest :
  identifierByte a = true →
  afterRune (runeBytes <$> spaceRunes) (a :: rest) = None.
Proof.
  destruct a as [[] [] [] [] [] [] [] []]; intros H; vm_compute in H;
    try discriminate H; reflexivity.
Qed.

Lemma afterRune_identifier_end a rest :
  identifierByte a = true →
  afterRune ((λ rune, reverse (runeBytes rune)) <$> spaceRunes) (a :: rest)
  = None.
Proof.
  destruct a as [[] [] [] [] [] [] [] []]; intros H; vm_compute in H;
    try discriminate H; reflexivity.
Qed.

Lemma not_comma a :
  blankByte a = true ∨ identifierByte a = true → a ≠ ","%char.
Proof. intros H ->. vm_compute in H. by destruct H. Qed.

Lemma trimLeading_blanks runes pad a rest n :
  (∀ b l, blankByte b = true → afterRune runes (b :: l) = Some l) →
  (∀ b l, identifierByte b = true → afterRune runes (b :: l) = None) →
  Forall (λ b, blankByte b = true) pad →
  identifierByte a = true →
  length pad ≤ n →
  trimLeading runes n (pad ++ a :: rest) = a :: rest.
Proof.
  intros Hblank Hid Hpad Ha. revert n.
  induction Hpad as [|b pad Hb Hpad IH]; intros n Hn; simpl.
  - destruct n; [done|]. simpl. by rewrite Hid.
  - destruct n as [|n]; [simpl in Hn; lia|]. simpl.
    rewrite Hblank by done. apply IH. simpl in Hn. lia.
Qed.

(** Trimming a field that is well written gives its identifier. *)
Lemma TrimSpace_field (field : Field) :
  wellWritten field →
  TrimSpace (String.append (before field)
               (String.append (identifier field) (after field)))
  = identifier field.
Proof.
  intros (Hb & Hne & Hi & Ha).
  apply allBytes_Forall in Hb, Hi, Ha.
  unfold TrimSpace. rewrite !list_ascii_of_string_append.
  rewrite <-(string_of_list_ascii_of_string (identifier field)) at 2.
  f_equal.
  destruct (list_ascii_of_string (identifier field)) as [|x name] eqn:Hname.
  { exfalso. apply Hne.
    by rewrite <-(string_of_list_ascii_of_string (identifier field)), Hname. }
  set (pad := list_ascii_of_string (before field)) in *.
  set (pad' := list_ascii_of_string (after field)) in *.
  assert (trimLeft (pad ++ (x :: name) ++ pad') = (x :: name) ++ pad') as ->.
  { unfold trimLeft. apply trimLeading_blanks.
    - apply afterRune_blank.
    - apply afterRune_identifier.
    - done.
    - by apply Forall_cons in Hi as [? _].
    - rewrite length_app. lia. }
  unfold trimRight. rewrite reverse_app.
  destruct (reverse (x :: name)) as [|y reversed] eqn:Hrev.
  { apply (f_equal reverse) in Hrev. by rewrite reverse_involutive in Hrev. }
  rewrite trimLeading_blanks.
  - by rewrite <-Hrev, reverse_involutive.
  - apply afterRune_blank_end.
  - apply afterRune_identifier_end.
  - apply Forall_forall. intros b Hin. rewrite Forall_forall in Ha.
    apply Ha. by apply elem_of_reverse.
  - rewrite Forall_forall in Hi. apply Hi.
    apply elem_of_reverse. rewrite Hrev. by left.
  - rewrite length_reverse, length_app. lia.
Qed.

Lemma Split_no_separator sep (s : string) :
  Forall (λ a, a ≠ sep) (list_ascii_of_string s) → Split sep s = [s].
Proof.
  induction s as [|a s IH]; [done|]. simpl. intros [Ha Hs]%Forall_cons.
  apply Ascii.eqb_neq in Ha. rewrite Ha, IH; done.
Qed.

Lemma Split_append sep (s t : string) :
  Forall (λ a, a ≠ sep) (list_ascii_of_string s) →
  Split sep (String.append s (String sep t)) = s :: Split sep t.
Proof.
  induction s as [|a s IH]; simpl.
  - intros _. by rewrite Ascii.eqb_refl.
  - intros [Ha Hs]%Forall_cons. apply Ascii.eqb_neq in Ha.
    rewrite Ha, IH; done.
Qed.

(** Fields without a comma, joined by commas, split into themselves. *)
Lemma Split_joined (texts : list string) :
  texts ≠ [] →
  Forall (λ text, Forall (λ a, a ≠ ","%char) (list_ascii_of_string text))
    texts →
  Split "," (String.concat "," texts) = texts.
Proof.
  induction texts as [|x texts IH]; [done|]. intros _ [Hx Hrest]%Forall_cons.
  destruct texts as [|y texts].
  - by apply Split_no_separator.
  - change (String.concat "," (x :: y :: texts))
      with (String.append x (String "," (String.concat "," (y :: texts)))).
    rewrite Split_append by done. f_equal. by apply IH.
Qed.

Lemma append_empty (s t : string) :
  String.append s t = EmptyString → s = EmptyString ∧ t = EmptyString.
Proof. by destruct s. Qed.

(** The text of one field. *)
Local Abbreviation text field :=
  (String.append (before field)
     (String.append (identifier field) (after field))).

Lemma text_no_comma (field : Field) :
  wellWritten field →
  Forall (λ a, a ≠ ","%char) (list_ascii_of_string (text field)).
Proof.
  intros (Hb & _ & Hi & Ha). apply allBytes_Forall in Hb, Hi, Ha.
  rewrite !list_ascii_of_string_append, !Forall_app. split_and!.
  - eapply Forall_impl; [exact Hb|]. intros a H. apply not_comma. by left.
  - eapply Forall_impl; [exact Hi|]. intros a H. apply not_comma. by right.
  - eapply Forall_impl; [exact Ha|]. intros a H. apply not_comma. by left.
Qed.

(** An annotation that is written from at least one field is not empty. *)
Lemma written_empty (fields : list Field) :
  Forall wellWritten fields → written fields = EmptyString → fields = [].
Proof.
  destruct fields as [|field fields]; [done|].
  intros [(_ & Hne & _) _]%Forall_cons Hempty. exfalso. apply Hne.
  unfold written in Hempty. rewrite fmap_cons in Hempty.
  destruct (_ <$> fields) as [|y texts].
  - simpl in Hempty. apply append_empty in Hempty as [_ Hempty].
    by apply append_empty in Hempty as [? _].
  - change (String.concat "," (text field :: y :: texts))
      with (String.append (text field)
              (String "," (String.concat "," (y :: texts)))) in Hempty.
    by apply append_empty in Hempty as [_ ?].
Qed.

(** The identifiers read from an annotation are those written in it. *)
Lemma parse_written (fields : list Field) :
  fields ≠ [] → Forall wellWritten fields →
  defaulting.parseIncludeAnnotation (written fields) = identifier <$> fields.
Proof.
  intros Hne Hfields. unfold defaulting.parseIncludeAnnotation, written.
  rewrite Split_joined.
  - rewrite <-list_fmap_compose. apply Forall_fmap_ext_1.
    eapply Forall_impl; [exact Hfields|].
    intros field Hfield. simpl. by apply TrimSpace_field.
  - by destruct fields.
  - apply Forall_fmap. eapply Forall_impl; [exact Hfields|].
    intros field. apply text_no_comma.
Qed.

Lemma occursIn_joined sep s (l : list string) :
  s ∈ l → occursIn s (String.concat sep l).
Proof.
  induction l as [|x l IH]; [by intros ?%elem_of_nil|].
  intros [->|Hin]%elem_of_cons.
  - destruct l; simpl; [apply occursIn_refl|].
    apply occursIn_append_l, occursIn_refl.
  - destruct l as [|y l]; [by apply elem_of_nil in Hin|].
    change (String.concat sep (x :: y :: l))
      with (String.append x (String.append sep (String.concat sep (y :: l)))).
    by apply occursIn_append_r, occursIn_append_r, IH.
Qed.

Lemma occursIn_formatStrings name (names : list string) :
  name ∈ names → occursIn name (formatStrings names).
Proof.
  intros Hin. unfold formatStrings.
  by apply occursIn_append_r, occursIn_append_l, occursIn_joined.
Qed.

End AnnotationText.

Section AnnotationStrictness.
Import v1alpha1 admission defaulting spec gostrings.
Variable ident : ChartConfig → string.
Variable defaultCharts : list ChartConfig.

Lemma GetDefaultChartNames_valid name :
  name ∈ GetDefaultChartNames ident defaultCharts ↔ name ∈ ident <$> defaultCharts.
Proof.
  unfold GetDefaultChartNames.
  by rewrite (GetDefaultCharts_Permutation ident defaultCharts).
Qed.

(** The defaults that take part: all of them when nothing is written in
    the annotation, those whose name is written in it otherwise. *)
Lemma elem_of_filteredDefaults catalog (fields : list Field) chart :
  default EmptyString (ac_Annotations catalog !! includeAnnotation)
  = written fields →
  Forall wellWritten fields →
  chart ∈ filteredDefaults ident defaultCharts catalog ↔
  chart ∈ defaultCharts ∧ (fields = [] ∨ ident chart ∈ identifier <$> fields).
Proof.
  intros Hann Hfields. unfold filteredDefaults, sortCharts.
  rewrite Hann, sortBy_Permutation.
  destruct (decide (fields = [])) as [->|Hne].
  - simpl. rewrite (GetDefaultCharts_Permutation ident defaultCharts).
    split; [intros ?; split; [done|by left]|by intros [? _]].
  - assert (nonEmpty (written fields) = true) as ->.
    { unfold nonEmpty. apply negb_true_iff, String.eqb_neq.
      intros Hempty. by apply written_empty in Hempty. }
    rewrite parse_written by done. unfold filterDefaultsByName.
    rewrite list_elem_of_filter,
      (GetDefaultCharts_Permutation ident defaultCharts).
    split; [intros [? ?]; split; [done|by right]|].
    by intros [? [?|?]].
Qed.

Lemma elem_of_mergeCharts (userCharts defaults : list ChartConfig) chart :
  chart ∈ mergeCharts ident userCharts defaults ↔
  ∃ k, foldl (overwrite ident) (foldl (overwrite ident) ∅ defaults) userCharts
       !! k = Some chart.
Proof.
  unfold mergeCharts, sortCharts.
  rewrite sortBy_Permutation, list_elem_of_fmap. split.
  - intros ([k c] & -> & Hin). exists k. by apply elem_of_map_to_list.
  - intros [k Hk]. exists (k, chart). split; [done|].
    by apply elem_of_map_to_list.
Qed.

(** C8. Take a catalog with [includeDefaults] true whose filter annotation
    is written from identifiers separated by commas, each between blanks.
    When one of the identifiers names no built-in default, the validator
    denies the create or update, and the message of the denial holds every
    such identifier and every name of the built-in set; when all of them
    name a default, the annotation is no ground for a denial.  The
    defaulting engine answers for the same catalog, whatever the
    identifiers: the list it stores is sorted by name, holds an entry
    under the name of every default that is written in the annotation,
    and nothing but entries of the user and those defaults; with an absent
    or empty list it holds exactly those defaults.  An identifier that
    names no default adds nothing, and an annotation in which nothing is
    written selects every default.  The blanks around an identifier do
    not count. *)
Theorem C8_annotation_strict_at_validation_lenient_at_defaulting
    (quote : string → string)
    (hv : validation.AdmissionHandler) (req : Request)
    (catalog : ApplicationCatalog) (helm : HelmSpec) (fields : list Field) :
  Operation req = Create ∨ Operation req = Update →
  validation.decoder hv req = inl catalog →
  Helm catalog = Some helm →
  IncludeDefaults helm = true →
  default EmptyString (ac_Annotations catalog !! includeAnnotation)
  = written fields →
  Forall wellWritten fields →
  let names := identifier <$> fields in
  let valid := ident <$> defaultCharts in
  let response := validation.Handle quote ident defaultCharts hv req in
  let result :=
    default []
      (GetHelmCharts (DefaultApplicationCatalog ident defaultCharts catalog)) in
  ((∃ name, name ∈ names ∧ name ∉ valid) →
   ∃ message,
     response = Denied message
     ∧ (∀ name, name ∈ names → name ∉ valid → occursIn name message)
     ∧ (∀ name, name ∈ valid → occursIn name message))
  ∧ ((∀ name, name ∈ names → name ∈ valid) →
     validation.detectConflicts quote (validation.h_client hv) catalog = [] →
     response = Allowed "no conflicts detected")
  ∧ (∀ chart, chart ∈ result →
       chart ∈ default [] (Charts helm)
       ∨ (chart ∈ defaultCharts ∧ (fields = [] ∨ ident chart ∈ names)))
  ∧ (∀ d, d ∈ defaultCharts → fields = [] ∨ ident d ∈ names →
       ident d ∈ ident <$> result)
  ∧ (Charts helm = None ∨ Charts helm = Some [] →
     ∀ chart, chart ∈ result ↔
              chart ∈ defaultCharts ∧ (fields = [] ∨ ident chart ∈ names))
  ∧ ascendingBy ident result.
Proof.
  intros Hop Hdec Hhelm Hinc Hann Hfields names valid response result.
  pose proof (λ chart, elem_of_filteredDefaults catalog fields chart Hann Hfields)
    as Hfiltered.
  assert (result
          = match Charts helm with
            | None | Some [] => filteredDefaults ident defaultCharts catalog
            | Some userCharts =>
                mergeCharts ident userCharts
                  (filteredDefaults ident defaultCharts catalog)
            end) as Hresult.
  { unfold result, DefaultApplicationCatalog. rewrite Hhelm, Hinc.
    by destruct (Charts helm) as [[|]|]. }
  assert (response
          = match ValidateIncludeAnnotation ident defaultCharts (written fields)
            with
            | [] =>
                match validation.detectConflicts quote (validation.h_client hv)
                        catalog with
                | [] => Allowed "no conflicts detected"
                | conflicts =>
                    Denied (validation.formatConflictMessage quote conflicts)
                end
            | invalid =>
                Denied (validation.invalidNamesMessage invalid
                          (GetDefaultChartNames ident defaultCharts))
            end) as Hresponse.
  { unfold response, validation.Handle, validation.handleValidation.
    assert (String.eqb (Operation req) Create || String.eqb (Operation req) Update
            = true) as ->.
    { destruct Hop as [-> | ->]; done. }
    rewrite Hdec, Hhelm, Hinc, Hann.
    by destruct (ValidateIncludeAnnotation ident defaultCharts (written fields)). }
  assert (fields ≠ [] →
          ValidateIncludeAnnotation ident defaultCharts (written fields)
          = filter (λ name, name ∉ GetDefaultChartNames ident defaultCharts) names)
    as Hinvalid.
  { intros Hne. unfold ValidateIncludeAnnotation.
    assert (nonEmpty (written fields) = true) as ->.
    { unfold nonEmpty. apply negb_true_iff, String.eqb_neq.
      intros Hempty. by apply written_empty in Hempty. }
    by rewrite parse_written. }
  split_and!.
  - intros (name & Hin & Hbad).
    assert (fields ≠ []) as Hne.
    { intros ->. by apply elem_of_nil in Hin. }
    rewrite Hresponse, (Hinvalid Hne).
    assert (∀ n, n ∈ names → n ∉ valid →
              n ∈ filter (λ name, name ∉ GetDefaultChartNames ident defaultCharts)
                    names) as Hlisted.
    { intros n Hn Hv. apply list_elem_of_filter. split; [|done].
      by rewrite GetDefaultChartNames_valid. }
    pose proof (Hlisted name Hin Hbad) as Hone.
    destruct (filter _ names) as [|n0 invalid] eqn:Hf;
      [by apply elem_of_nil in Hone|].
    eexists. split; [reflexivity|]. split.
    + intros n Hn Hv. unfold validation.invalidNamesMessage.
      eapply occursIn_trans;
        [apply occursIn_formatStrings, (Hlisted n Hn Hv)|].
      apply occursIn_concat. rewrite !elem_of_cons. tauto.
    + intros n Hn. unfold validation.invalidNamesMessage.
      eapply occursIn_trans;
        [apply occursIn_formatStrings, GetDefaultChartNames_valid, Hn|].
      apply occursIn_concat. rewrite !elem_of_cons. tauto.
  - intros Hall Hnone. rewrite Hresponse, Hnone.
    assert (ValidateIncludeAnnotation ident defaultCharts (written fields) = [])
      as ->; [|done].
    destruct (decide (fields = [])) as [->|Hne]; [done|].
    rewrite (Hinvalid Hne). apply filter_none. intros n Hn Hv. apply Hv.
    apply GetDefaultChartNames_valid. by apply Hall.
  - intros chart. rewrite Hresult.
    destruct (Charts helm) as [[|u userCharts]|]; simpl.
    + intros ?%Hfiltered. by right.
    + intros [k Hk]%elem_of_mergeCharts. rewrite merged_lookup in Hk.
      destruct (lastWithKey ident k (u :: userCharts)) as [c|] eqn:Hc.
      * injection Hk as <-. left. by apply lastWithKey_Some in Hc as [? _].
      * right. apply Hfiltered. by apply lastWithKey_Some in Hk as [? _].
    + intros ?%Hfiltered. by right.
  - intros d Hd Hsel.
    assert (d ∈ filteredDefaults ident defaultCharts catalog) as Hin
      by by apply Hfiltered.
    assert (ident d ∈ ident <$> filteredDefaults ident defaultCharts catalog)
      as Hkey by (apply list_elem_of_fmap; eauto).
    rewrite Hresult.
    destruct (Charts helm) as [[|u userCharts]|]; [done| |done].
    assert (∃ c, foldl (overwrite ident)
                   (foldl (overwrite ident) ∅
                      (filteredDefaults ident defaultCharts catalog))
                   (u :: userCharts) !! ident d = Some c) as [c Hc].
    { rewrite merged_lookup.
      destruct (lastWithKey ident (ident d) (u :: userCharts)); [by eexists|].
      by apply lastWithKey_is_Some. }
    apply list_elem_of_fmap. exists c. split.
    + symmetry. by eapply merged_key.
    + apply elem_of_mergeCharts. eauto.
  - intros Hlist chart. rewrite Hresult.
    destruct Hlist as [-> | ->]; apply Hfiltered.
  - rewrite Hresult.
    destruct (Charts helm) as [[|u userCharts]|]; apply sortBy_ascending.
Qed.

End AnnotationStrictness.

Lemma C8_annotation_strict_at_validation_lenient_at_defaulting_witness :
  (∃ message,
     validation.Handle sample.quote v1alpha1.ChartName sample.defaultCharts
       scene.validatorOfFilteredCatalog sample.createRequest
     = admission.Denied message
     ∧ gostrings.occursIn "non-existent" message)
  ∧ ∀ chart,
      chart
      ∈ default []
          (v1alpha1.GetHelmCharts
             (defaulting.DefaultApplicationCatalog v1alpha1.ChartName
                sample.defaultCharts scene.filteredCatalog))
      ↔ chart ∈ sample.defaultCharts
        ∧ (scene.filterFields = []
           ∨ v1alpha1.ChartName chart
             ∈ spec.identifier <$> scene.filterFields).
Proof.
  destruct (C8_annotation_strict_at_validation_lenient_at_defaulting
              v1alpha1.ChartName sample.defaultCharts sample.quote
              scene.validatorOfFilteredCatalog sample.createRequest
              scene.filteredCatalog
              {| v1alpha1.hs_RepositorySettings := None; v1alpha1.Charts := None;
                 v1alpha1.IncludeDefaults := true |}
              scene.filterFields)
    as (Hdenied & _ & _ & _ & Hexact & _).
  - left. reflexivity.
  - reflexivity.
  - reflexivity.
  - reflexivity.
  - vm_compute. reflexivity.
  - repeat constructor; try (vm_compute; reflexivity); discriminate.
  - split.
    + destruct Hdenied as (message & Hmessage & Hinvalid & _).
      * exists "non-existent"%string. split.
        -- vm_compute. right. left.
        -- apply (bool_decide_unpack _). vm_compute. exact I.
      * exists message. split; [done|]. apply Hinvalid.
        -- vm_compute. right. left.
        -- apply (bool_decide_unpack _). vm_compute. exact I.
    + apply Hexact. by left.
Defined.

(** ** Reconciling again *)

Section Again.
Import v1alpha1 appskubermaticv1 client synchronizer.

Lemma lastIndexBy_lastWithKey {A} (key : A → string) k (l : list A) i :
  lastIndexBy key k l = Some i → l !! i = lastWithKey key k l.
Proof.
  intros (x & Hx & Hk & Hlast)%lastIndexBy_Some.
  by rewrite Hx, (lastWithKey_at key k l i x).
Qed.

(** A list that already holds, as the last entry of each desired key, the
    last desired entry of that key is left as it is by the merge. *)
Lemma mergeVersions_absorbed (stored desired : list ApplicationVersion) :
  (∀ k, k ∈ Version <$> desired →
     lastWithKey Version k stored = lastWithKey Version k desired) →
  mergeVersions stored desired = stored.
Proof.
  intros Habs. rewrite mergeVersions_closed.
  pose proof (existingIndex_lookup stored) as Hidx.
  rewrite filter_none, app_nil_r.
  - apply list_eq. intros i.
    destruct (stored !! i) as [v|] eqn:Hv.
    + destruct (overwrite_keys stored _ Hidx desired i v Hv) as (w & Hw & Hk).
      rewrite Hw.
      destruct (overwrite_content stored _ Hidx desired i w Hw) as [Hs|[Hin Hi]];
        [congruence|].
      assert (Version w ∈ Version <$> desired) as Hkey
        by (apply list_elem_of_fmap; eauto).
      rewrite (overwrite_last stored _ Hidx desired (Version w) i Hi Hkey) in Hw.
      rewrite <-(Habs _ Hkey) in Hw. rewrite Hidx in Hi.
      rewrite <-(lastIndexBy_lastWithKey _ _ _ _ Hi) in Hw. congruence.
    + apply lookup_ge_None. rewrite overwrite_length. by apply lookup_ge_None.
  - intros d Hd Hnew.
    assert (Version d ∈ Version <$> desired) as Hkey
      by (apply list_elem_of_fmap; eauto).
    destruct (lastWithKey_is_Some Version _ _ Hkey) as [x Hx].
    rewrite <-(Habs _ Hkey) in Hx. apply lastWithKey_Some in Hx as [Hin Hk].
    apply (idx_None stored _ Hidx) in Hnew. apply Hnew.
    rewrite <-Hk. apply list_elem_of_fmap. eauto.
Qed.

(** Where neither list repeats a key, the versions stored by an update are
    left as they are by the next update with the same desired versions.
    Of the sort only this is used: it leaves a rearrangement that is
    ascending in the key. *)
Lemma storedVersions_fixed (existing desired : list ApplicationVersion) :
  NoDup (Version <$> existing) → NoDup (Version <$> desired) →
  let stored := sortVersions (mergeVersions existing desired) in
  NoDup (Version <$> stored)
  ∧ mergeVersions stored desired = stored
  ∧ sortVersions (mergeVersions stored desired) = stored.
Proof.
  intros He Hd stored.
  pose proof (mergeVersions_keys_NoDup existing desired He Hd) as Hnd.
  pose proof (sortVersions_sortedByKey (mergeVersions existing desired))
    as [Hperm Hasc].
  fold stored in Hperm, Hasc.
  assert (NoDup (Version <$> stored)) as Hstored by by rewrite Hperm.
  assert (mergeVersions stored desired = stored) as Habs.
  { apply mergeVersions_absorbed. intros k Hk.
    destruct (lastWithKey_is_Some Version k desired Hk) as [d Hlast].
    rewrite Hlast. pose proof (lastWithKey_Some _ _ _ _ Hlast) as [_ Hkey].
    apply (lastWithKey_NoDup Version); [done|]. split; [|done].
    rewrite Hperm. apply mergeVersions_desired. by rewrite Hkey. }
  split_and!; [done|done|]. rewrite Habs.
  apply (sortedByKey_unique stored); [done| |by split].
  apply sortVersions_sortedByKey.
Qed.

Lemma mergedSpec_idempotent (existing desired : ApplicationDefinitionSpec) :
  NoDup (Version <$> Versions existing) →
  NoDup (Version <$> Versions desired) →
  mergedSpec (mergedSpec existing desired) desired = mergedSpec existing desired.
Proof.
  intros He Hd. unfold mergedSpec; simpl. f_equal.
  - destruct (nonEmpty (DefaultValuesBlock existing)
              && negb (String.eqb (DefaultValuesBlock existing) "{}")) eqn:E;
      [by rewrite E|].
    by destruct (nonEmpty (DefaultValuesBlock desired)
                 && negb (String.eqb (DefaultValuesBlock desired) "{}")).
  - by destruct (Enforced existing), (Enforced desired).
  - by destruct (Default existing), (Default desired).
  - destruct (Datacenters (Selector existing)); [done|].
    by destruct (Selector desired) as [[dcs|]].
  - by apply storedVersions_fixed.
Qed.

(** Where neither object repeats a version key, the update path converges
    at once: what an update stores is a fixed point of the update with the
    same desired object. *)
Lemma updateModify_idempotent (desired existing : ApplicationDefinition) :
  NoDup (Version <$> Versions (Spec existing)) →
  NoDup (Version <$> Versions (Spec desired)) →
  updateModify desired (updateModify desired existing)
  = updateModify desired existing.
Proof.
  intros He Hd. unfold updateModify; simpl. f_equal.
  - by rewrite (assoc_L (∪)), (idemp_L (∪)).
  - by rewrite (assoc_L (∪)), (idemp_L (∪)).
  - by apply mergedSpec_idempotent.
Qed.

(** What an update stores repeats no version key when neither object
    does. *)
Lemma updateModify_keys_NoDup (desired existing : ApplicationDefinition) :
  NoDup (Version <$> Versions (Spec existing)) →
  NoDup (Version <$> Versions (Spec desired)) →
  NoDup (Version <$> Versions (Spec (updateModify desired existing))).
Proof.
  intros He Hd. unfold updateModify, mergedSpec; simpl.
  by apply storedVersions_fixed.
Qed.

(** What reconciling an existing resource sends and stores. *)
Lemma reconcileApplicationDefinition_existing
    (c : Client) (existing desired : ApplicationDefinition) :
  Get c (Name desired) = Some existing →
  isSystemApplication existing = false →
  reconcileApplicationDefinition c desired
  = (send c (<[Name desired := toStored (updateModify desired existing)]> (objects c))
       (PatchRequest existing (updateModify desired existing)), None).
Proof.
  intros Hget Hsys.
  assert (Name existing = Name desired) as Hname.
  { unfold Get in Hget. destruct (objects c !! Name desired); by simplify_eq/=. }
  unfold reconcileApplicationDefinition. rewrite Hget, Hsys.
  unfold updateApplicationDefinition, kubernetes.PatchObject, Patch.
  rewrite updateModify_name, Hname.
  unfold Get in Hget. by destruct (objects c !! Name desired).
Qed.

(** Reconciling an existing resource a second time with the same desired
    object stores nothing new: no request is sent, or a patch that is
    empty. *)
Lemma reconcileApplicationDefinition_again
    (c : Client) (existing desired : ApplicationDefinition) :
  Get c (Name desired) = Some existing →
  isSystemApplication existing = false →
  NoDup (Version <$> Versions (Spec existing)) →
  NoDup (Version <$> Versions (Spec desired)) →
  let c1 := (reconcileApplicationDefinition c desired).1 in
  let c2 := (reconcileApplicationDefinition c1 desired).1 in
  objects c2 = objects c1
  ∧ (requests c2 = requests c1
     ∨ ∃ request, requests c2 = requests c1 ++ [request] ∧ emptyPatch request).
Proof.
  intros Hget Hsys He Hd c1 c2.
  assert (Name existing = Name desired) as Hname.
  { unfold Get in Hget. destruct (objects c !! Name desired); by simplify_eq/=. }
  assert (Get c1 (Name desired) = Some (updateModify desired existing)) as Hget1.
  { unfold c1. rewrite (reconcileApplicationDefinition_existing c existing) by done.
    unfold Get, send; simpl. rewrite lookup_insert_eq.
    unfold toObject, toStored, updateModify; simpl. congruence. }
  unfold c2.
  destruct (isSystemApplication (updateModify desired existing)) eqn:Hsys1.
  - unfold reconcileApplicationDefinition. rewrite Hget1, Hsys1. by split; [|left].
  - rewrite (reconcileApplicationDefinition_existing c1 _ desired Hget1 Hsys1).
    rewrite updateModify_idempotent by done.
    unfold send; cbn [fst objects requests].
    split.
    + apply insert_id. unfold Get in Hget1.
      destruct (objects c1 !! Name desired) as [s|]; [|done].
      apply (f_equal (fmap toStored)) in Hget1.
      cbn [fmap option_fmap option_map] in Hget1.
      by rewrite toStored_toObject in Hget1.
    + right. eexists. split; [done|]. done.
Qed.

(** C9.  Code at the failing input: the catalog of [sample.catalogC4] on a
    cluster without downstream resources.  The first run creates the
    resource with the versions in the order of the chart; the second run,
    on the state the first one left, sends a patch that is not empty (it
    reorders the versions); only the third run sends an empty patch. *)
Theorem C9_second_run_patches_created_resource :
  let c1 := (reconcile sample.freshCluster "c4").1 in
  let c2 := (reconcile c1 "c4").1 in
  let c3 := (reconcile c2 "c4").1 in
  (∃ created,
     requests c1 = [CreateRequest created]
     ∧ Version <$> Versions (Spec created) = ["v0.18.0"; "v0.16.0"])
  ∧ (∃ old new,
       requests c2 = requests c1 ++ [PatchRequest old new]
       ∧ ¬ emptyPatch (PatchRequest old new)
       ∧ Version <$> Versions (Spec old) = ["v0.18.0"; "v0.16.0"]
       ∧ Version <$> Versions (Spec new) = ["v0.16.0"; "v0.18.0"])
  ∧ objects c2 ≠ objects c1
  ∧ (∃ request,
       requests c3 = requests c2 ++ [request] ∧ emptyPatch request)
  ∧ objects c3 = objects c2.
Proof.
  intros c1 c2 c3. split_and!.
  - eexists. split; vm_compute; reflexivity.
  - eexists _, _. split_and!; [vm_compute; reflexivity| |vm_compute; reflexivity..].
    simpl. intros H. apply (f_equal (λ o, Version <$> Versions (Spec o))) in H.
    vm_compute in H. discriminate H.
  - intros H.
    apply (f_equal (λ m : gmap string Stored,
                      (λ s, Version <$> Versions (st_Spec s)) <$> m !! "aikit")) in H.
    vm_compute in H. discriminate H.
  - eexists. split; vm_compute; reflexivity.
  - vm_compute. reflexivity.
Qed.

End Again.

(** ** The cases of the repository's tests, evaluated *)

Section Tests.
Import v1alpha1 appskubermaticv1 synchronizer.

Local Abbreviation version := sample.version.

(** TestMergeVersionsPreservesOrder *)
Example mergeVersions_preserves_order :
  Version <$> mergeVersions
    [version "v1.0.0" "a"; version "v2.0.0" "a"; version "v3.0.0" "a"]
    [version "v3.0.0" "b"; version "v4.0.0" "b"]
  = ["v1.0.0"; "v2.0.0"; "v3.0.0"; "v4.0.0"].
Proof. vm_compute. reflexivity. Qed.

(** TestMergeVersions, "duplicate versions in dst - last one wins" *)
Example mergeVersions_last_duplicate_wins :
  mergeVersions [version "v1.0.0" "https://original.example.com"]
    [version "v1.0.0" "https://first.example.com";
     version "v1.0.0" "https://second.example.com"]
  = [version "v1.0.0" "https://second.example.com"].
Proof. vm_compute. reflexivity. Qed.

(** TestMergeVersions, "existing versions are preserved when not in dst" *)
Example mergeVersions_keeps_undeclared :
  Version <$> mergeVersions [version "v1.0.0" "a"; version "v2.0.0" "a"]
                [version "v3.0.0" "b"]
  = ["v1.0.0"; "v2.0.0"; "v3.0.0"].
Proof. vm_compute. reflexivity. Qed.

(** TestGetAppName *)
Example GetAppName_override :
  GetAppName
    {| ChartName := "gpu-operator";
       Metadata := Some {| AppName := "nvidia-gpu-operator";
                           md_DisplayName := "NVIDIA GPU Operator";
                           md_Description := EmptyString;
                           md_DocumentationURL := EmptyString;
                           md_SourceURL := EmptyString;
                           md_Logo := EmptyString;
                           md_LogoFormat := EmptyString |};
       cc_RepositorySettings := None; cc_DefaultValuesBlock := EmptyString;
       ChartVersions := [] |}
  = "nvidia-gpu-operator"
  ∧ GetAppName sample.nginxChart = "nginx".
Proof. split; reflexivity. Qed.

(** The scenario of the specification: no repository settings anywhere. *)
Example resolve_without_settings :
  ResolveChartURL sample.catalogC2 sample.nginxChart
    {| cv_ChartVersion := "1.0.0"; AppVersion := "v1.0.0";
       cv_RepositorySettings := None |}
  = DefaultHelmRepository
  ∧ ResolveChartCredentials sample.catalogC2 sample.nginxChart
      {| cv_ChartVersion := "1.0.0"; AppVersion := "v1.0.0";
         cv_RepositorySettings := None |}
    = None.
Proof. split; reflexivity. Qed.

(** TestDefaultApplicationCatalog, "includeDefaults=true, annotation with
    whitespace, charts=nil" *)
Example defaulting_trims_annotation :
  ChartName <$>
    default []
      (GetHelmCharts
         (defaulting.DefaultApplicationCatalog ChartName sample.defaultCharts
            (sample.syncedCatalog
               (Some "ingress-nginx , cert-manager , argo-cd") None)))
  = ["argo-cd"; "cert-manager"; "ingress-nginx"].
Proof. vm_compute. reflexivity. Qed.

(** TestDefaultApplicationCatalog, "includeDefaults=true,
    annotation=non-existent, charts=nil" *)
Example defaulting_unknown_identifier :
  GetHelmCharts
    (defaulting.DefaultApplicationCatalog ChartName sample.defaultCharts
       (sample.syncedCatalog (Some "non-existent-app") None))
  = Some [].
Proof. vm_compute. reflexivity. Qed.

(** TestDefaultApplicationCatalog, "includeDefaults=true,
    annotation=nginx,cert-manager, charts=[nginx-with-override]" *)
Example defaulting_user_override_wins :
  let override :=
    {| ChartName := "ingress-nginx"; Metadata := None;
       cc_RepositorySettings :=
         Some {| BaseURL := "https://my-registry.com/charts"; Credentials := None |};
       cc_DefaultValuesBlock := EmptyString; ChartVersions := [] |} in
  default []
    (GetHelmCharts
       (defaulting.DefaultApplicationCatalog ChartName sample.defaultCharts
          (sample.syncedCatalog (Some "ingress-nginx,cert-manager")
             (Some [override]))))
  = [sample.plainChart "cert-manager"; override].
Proof. vm_compute. reflexivity. Qed.

End Tests.

(** * Further properties of the code *)

(** ** Resolver and converter *)

Section ConverterFacts.
Import v1alpha1 appskubermaticv1 client synchronizer.

Lemma nonEmpty_true s : nonEmpty s = true → s ≠ EmptyString.
Proof. unfold nonEmpty. intros H ->. done. Qed.

Lemma ResolveChartURL_nonempty ac chart version :
  ResolveChartURL ac chart version ≠ EmptyString.
Proof.
  unfold ResolveChartURL.
  destruct (cv_RepositorySettings version) as [vs|],
    (cc_RepositorySettings chart) as [cs|],
    (GetGlobalRepositorySettings ac) as [g|];
    repeat case_match; try (by apply nonEmpty_true); done.
Qed.

(** X1. The resolved repository URL is never the empty string, and
    credentials are resolved only together with the base URL of the very
    settings that hold them: when credentials come back, one of the three
    layers has settings with these credentials and with the resolved URL as
    its non-empty base URL. *)
Theorem X1_resolved_url_never_empty_credentials_with_their_url
    (ac : ApplicationCatalog) (chart : ChartConfig) (version : ChartVersion) :
  ResolveChartURL ac chart version ≠ EmptyString
  ∧ ∀ creds,
      ResolveChartCredentials ac chart version = Some creds →
      ∃ settings,
        Some settings ∈ [cv_RepositorySettings version;
                         cc_RepositorySettings chart;
                         GetGlobalRepositorySettings ac]
        ∧ Credentials settings = Some creds
        ∧ BaseURL settings = ResolveChartURL ac chart version
        ∧ BaseURL settings ≠ EmptyString.
Proof.
  split; [apply ResolveChartURL_nonempty|].
  intros creds. unfold ResolveChartCredentials, ResolveChartURL.
  destruct (cv_RepositorySettings version) as [vs|],
    (cc_RepositorySettings chart) as [cs|],
    (GetGlobalRepositorySettings ac) as [g|];
    repeat case_match; intros Hc; try discriminate Hc;
    match goal with
    | H : nonEmpty (BaseURL ?s) = true |- _ =>
        exists s; split_and!;
        [rewrite !elem_of_cons; tauto | done | done | by apply nonEmpty_true]
    end.
Qed.

Lemma convert_not_system catalog chart :
  isSystemApplication (convertChartToApplicationDefinition catalog chart) = false.
Proof.
  unfold isSystemApplication, convertChartToApplicationDefinition.
  apply bool_decide_eq_false_2. cbn [Labels].
  rewrite lookup_insert_ne by done. rewrite lookup_singleton_ne by done.
  by intros [? ?].
Qed.

(** X2. The converter names the downstream resource by the identity of the
    entry, labels it with managed-by "true" and the name of the catalog and
    with nothing else, never produces a system application, and produces
    one version per chart version, in the order of the chart: its key is
    the application version, its helm source is present with the chart
    name, the chart version and a non-empty URL. *)
Theorem X2_converter_names_labels_and_versions
    (catalog : ApplicationCatalog) (chart : ChartConfig) :
  let desired := convertChartToApplicationDefinition catalog chart in
  Name desired = GetAppName chart
  ∧ Labels desired !! LabelManagedByApplicationCatalog = Some "true"
  ∧ Labels desired !! LabelApplicationCatalogName = Some (ac_Name catalog)
  ∧ dom (Labels desired)
    = {[ LabelManagedByApplicationCatalog; LabelApplicationCatalogName ]}
  ∧ isSystemApplication desired = false
  ∧ Version <$> Versions (Spec desired) = AppVersion <$> ChartVersions chart
  ∧ ∀ i v, Versions (Spec desired) !! i = Some v →
      ∃ chartVersion helm,
        ChartVersions chart !! i = Some chartVersion
        ∧ src_Helm (Source (Template v)) = Some helm
        ∧ hs_ChartName helm = ChartName chart
        ∧ hs_ChartVersion helm = cv_ChartVersion chartVersion
        ∧ URL helm ≠ EmptyString.
Proof.
  intros desired. split_and!; try done.
  - unfold desired; simpl. unfold convertVersions.
    rewrite <-list_fmap_compose. done.
  - intros i v. unfold desired; simpl. unfold convertVersions.
    rewrite list_lookup_fmap.
    destruct (ChartVersions chart !! i) as [cv|]; [|done].
    intros [= <-]. eexists cv, _. split_and!; try done.
    apply ResolveChartURL_nonempty.
Qed.

End ConverterFacts.

(** ** More on merging versions *)

Section VersionMergeFacts.
Import appskubermaticv1 synchronizer.

Lemma overwrite_key_sequence (existing desired : list ApplicationVersion) :
  Version <$>
    foldl (λ P d, match buildIndex 0 existing ∅ !! Version d with
                  | Some i => <[i:=d]> P
                  | None => P
                  end) existing desired
  = Version <$> existing.
Proof.
  pose proof (existingIndex_lookup existing) as Hidx.
  apply list_eq. intros i. rewrite !list_lookup_fmap.
  destruct (existing !! i) as [v|] eqn:Hv.
  - destruct (overwrite_keys existing _ Hidx desired i v Hv) as (w & -> & Hk).
    simpl. by rewrite Hk.
  - simpl. apply fmap_None, lookup_ge_None. rewrite overwrite_length.
    by apply lookup_ge_None.
Qed.

(** X3. The keys of a version merge are the keys of the existing list in
    their order, followed by the keys the desired list adds, in the order
    in which it declares them.  So the merge is as long as the existing
    list plus the desired entries of new keys, and when neither list
    repeats a key the merge repeats none. *)
Theorem X3_merge_key_sequence (existing desired : list ApplicationVersion) :
  Version <$> mergeVersions existing desired
  = (Version <$> existing)
    ++ (Version <$> filter (λ d, Version d ∉ Version <$> existing) desired)
  ∧ length (mergeVersions existing desired)
    = length existing
      + length (filter (λ d, Version d ∉ Version <$> existing) desired)
  ∧ (NoDup (Version <$> existing) → NoDup (Version <$> desired) →
     NoDup (Version <$> mergeVersions existing desired)).
Proof.
  assert (Version <$> mergeVersions existing desired
          = (Version <$> existing)
            ++ (Version <$> filter (λ d, Version d ∉ Version <$> existing) desired))
    as Hkeys.
  { rewrite mergeVersions_closed, fmap_app, overwrite_key_sequence. f_equal.
    f_equal. apply list_filter_iff. intros d.
    apply (idx_None existing _ (existingIndex_lookup existing)). }
  split_and!; [done| |].
  - apply (f_equal length) in Hkeys.
    by rewrite length_app, !length_fmap in Hkeys.
  - intros He Hd. rewrite Hkeys. apply NoDup_app. split_and!; [done| |].
    + intros k Hk (d & -> & Hin)%list_elem_of_fmap.
      by apply list_elem_of_filter in Hin as [? _].
    + by apply NoDup_fmap_filter.
Qed.

(** X4. Merging is idempotent: a list merged with itself is that list,
    merging the same desired list a second time changes nothing, and an
    empty list on either side leaves the other list as it is. *)
Theorem X4_merge_idempotent (existing desired : list ApplicationVersion) :
  mergeVersions existing existing = existing
  ∧ mergeVersions (mergeVersions existing desired) desired
    = mergeVersions existing desired
  ∧ mergeVersions existing [] = existing
  ∧ mergeVersions [] desired = desired.
Proof.
  split_and!.
  - by apply mergeVersions_absorbed.
  - apply mergeVersions_absorbed. intros k Hk. by apply mergeVersions_last.
  - by destruct existing.
  - by destruct desired.
Qed.

End VersionMergeFacts.

(** ** One desired object *)

Section OneObject.
Import v1alpha1 appskubermaticv1 client synchronizer outcome.

(** What reconciling one desired object does to the client. *)
Lemma reconcileApplicationDefinition_spec (c : Client)
    (desired : ApplicationDefinition) :
  reconcileApplicationDefinition c desired
  = ({| catalogs := catalogs c;
        objects := <[Name desired :=
                       reconciled desired (objects c !! Name desired)]> (objects c);
        requests := requests c ++ requested desired (objects c !! Name desired) |},
     None).
Proof.
  unfold reconcileApplicationDefinition, Get, reconciled, requested.
  destruct (objects c !! Name desired) as [s|] eqn:Hs; simpl.
  - destruct (isSystemApplication (toObject (Name desired) s)) eqn:Hsys.
    + rewrite insert_id, app_nil_r by done. by destruct c.
    + unfold updateApplicationDefinition, kubernetes.PatchObject, Patch.
      rewrite updateModify_name. simpl. by rewrite Hs.
  - unfold Create. by rewrite Hs.
Qed.

(** X5. Reconciling one desired object never fails and never removes an
    object.  It writes the object of that name only: the desired object as
    converted, with one create request, when there was none; nothing, with
    no request at all, when the object found is a system application; the
    updated object, with one patch request, otherwise. *)
Theorem X5_one_object_create_skip_or_patch
    (c : Client) (desired : ApplicationDefinition) :
  ∃ c',
    reconcileApplicationDefinition c desired = (c', None)
    ∧ catalogs c' = catalogs c
    ∧ (∀ name, name ≠ Name desired → objects c' !! name = objects c !! name)
    ∧ dom (objects c) ⊆ dom (objects c')
    ∧ match Get c (Name desired) with
      | None =>
          Get c' (Name desired) = Some desired
          ∧ requests c' = requests c ++ [CreateRequest desired]
      | Some existing =>
          if isSystemApplication existing then c' = c
          else
            Get c' (Name desired) = Some (updateModify desired existing)
            ∧ requests c'
              = requests c
                ++ [PatchRequest existing (updateModify desired existing)]
      end.
Proof.
  eexists. split; [apply reconcileApplicationDefinition_spec|]. simpl.
  split_and!; [done| | |].
  - intros name Hne. by rewrite lookup_insert_ne.
  - rewrite dom_insert_L. apply union_subseteq_r.
  - unfold Get, reconciled, requested; simpl. rewrite lookup_insert_eq.
    destruct (objects c !! Name desired) as [s|] eqn:Hs; simpl.
    + destruct (isSystemApplication (toObject (Name desired) s)) eqn:Hsys.
      * rewrite insert_id, app_nil_r by done. by destruct c.
      * by split.
    + split; [|done]. by rewrite toObject_toStored.
Qed.

(** X6. The update path converges at once.  Take an existing resource
    that is no system application and a desired object, neither with two
    versions of one key.  The versions the update stores are then the only
    list a sort of the merge by the key can leave, and so are the versions
    a second update with the same desired object would store: reconciling
    again leaves the store as it is and sends nothing but, at most, one
    patch that is empty. *)
Theorem X6_update_path_converges
    (c : Client) (existing desired : ApplicationDefinition) :
  Get c (Name desired) = Some existing →
  isSystemApplication existing = false →
  NoDup (Version <$> Versions (Spec existing)) →
  NoDup (Version <$> Versions (Spec desired)) →
  let c1 := (reconcileApplicationDefinition c desired).1 in
  let c2 := (reconcileApplicationDefinition c1 desired).1 in
  let stored := Versions (Spec (updateModify desired existing)) in
  Get c1 (Name desired) = Some (updateModify desired existing)
  ∧ (∀ sorted,
       spec.sortedByKey
         (mergeVersions (Versions (Spec existing)) (Versions (Spec desired)))
         sorted →
       sorted = stored)
  ∧ (∀ sorted,
       spec.sortedByKey (mergeVersions stored (Versions (Spec desired))) sorted →
       sorted = stored)
  ∧ objects c2 = objects c1
  ∧ (requests c2 = requests c1
     ∨ ∃ request, requests c2 = requests c1 ++ [request] ∧ emptyPatch request).
Proof.
  intros Hget Hsys He Hd c1 c2 stored.
  destruct (storedVersions_fixed (Versions (Spec existing))
              (Versions (Spec desired)) He Hd) as (Hnd & Habs & _).
  change (sortVersions
            (mergeVersions (Versions (Spec existing)) (Versions (Spec desired))))
    with stored in Hnd, Habs.
  split_and!.
  - unfold c1. rewrite (reconcileApplicationDefinition_existing c existing) by done.
    unfold Get, send; simpl. rewrite lookup_insert_eq.
    assert (Name existing = Name desired) as Hname.
    { unfold Get in Hget. destruct (objects c !! Name desired); by simplify_eq/=. }
    unfold toObject, toStored, updateModify; simpl. congruence.
  - intros sorted Hsorted.
    apply (sortedByKey_unique
             (mergeVersions (Versions (Spec existing)) (Versions (Spec desired))));
      [by apply mergeVersions_keys_NoDup|done|].
    apply sortVersions_sortedByKey.
  - intros sorted. rewrite Habs. intros Hsorted.
    apply (sortedByKey_unique stored); [done|done|].
    split; [done|]. apply (sortVersions_sortedByKey _).
  - by apply (reconcileApplicationDefinition_again c existing desired).
  - by apply (reconcileApplicationDefinition_again c existing desired).
Qed.

End OneObject.

Lemma X6_update_path_converges_witness :
  let desired :=
    synchronizer.convertChartToApplicationDefinition sample.catalogC2
      sample.nginxChart in
  let c1 :=
    (synchronizer.reconcileApplicationDefinition sample.clientWithEditedNginx
       desired).1 in
  client.objects (synchronizer.reconcileApplicationDefinition c1 desired).1
  = client.objects c1.
Proof.
  intros desired c1.
  apply (X6_update_path_converges sample.clientWithEditedNginx
           sample.editedNginx desired).
  - vm_compute. reflexivity.
  - vm_compute. reflexivity.
  - apply (bool_decide_unpack _). vm_compute. exact I.
  - apply (bool_decide_unpack _). vm_compute. exact I.
Defined.

(** ** A whole pass over a catalog *)

Section WholePass.
Import v1alpha1 appskubermaticv1 client synchronizer spec outcome.

Lemma afterCharts_cons catalog chart rest m :
  afterCharts catalog (chart :: rest) m
  = afterCharts catalog rest
      (<[GetAppName chart :=
           reconciled (convertChartToApplicationDefinition catalog chart)
             (m !! GetAppName chart)]> m).
Proof. done. Qed.

Lemma afterCharts_other catalog charts :
  ∀ m n, n ∉ identities charts → afterCharts catalog charts m !! n = m !! n.
Proof.
  induction charts as [|chart rest IH]; intros m n Hn; [done|].
  unfold identities in Hn. rewrite fmap_cons, not_elem_of_cons in Hn.
  destruct Hn as [Hne Hn].
  rewrite afterCharts_cons, IH by done. by rewrite lookup_insert_ne.
Qed.

Lemma afterCharts_dom catalog charts :
  ∀ m, dom (afterCharts catalog charts m)
       = dom m ∪ list_to_set (identities charts).
Proof.
  induction charts as [|chart rest IH]; intros m.
  - simpl. by rewrite (right_id_L ∅ (∪)).
  - rewrite afterCharts_cons, IH, dom_insert_L. apply set_eq. intros x.
    unfold identities. rewrite fmap_cons, list_to_set_cons.
    rewrite !elem_of_union, elem_of_singleton. tauto.
Qed.

Lemma afterCharts_system catalog charts :
  ∀ m n s,
    m !! n = Some s → isSystemApplication (toObject n s) = true →
    afterCharts catalog charts m !! n = Some s.
Proof.
  induction charts as [|chart rest IH]; intros m n s Hs Hsys; [done|].
  rewrite afterCharts_cons. apply IH; [|done].
  destruct (decide (n = GetAppName chart)) as [->|Hne].
  - rewrite lookup_insert_eq, Hs. unfold reconciled. cbn [Name convertChartToApplicationDefinition].
    by rewrite Hsys.
  - by rewrite lookup_insert_ne.
Qed.

Lemma afterCharts_single catalog charts :
  NoDup (identities charts) →
  ∀ m chart,
    chart ∈ charts →
    afterCharts catalog charts m !! GetAppName chart
    = Some (reconciled (convertChartToApplicationDefinition catalog chart)
              (m !! GetAppName chart)).
Proof.
  induction charts as [|chart rest IH]; intros Hnd m x Hx;
    [by apply elem_of_nil in Hx|].
  unfold identities in Hnd. rewrite fmap_cons, NoDup_cons in Hnd.
  destruct Hnd as [Hfresh Hnd].
  rewrite afterCharts_cons. apply elem_of_cons in Hx as [->|Hx].
  - rewrite afterCharts_other by done. by rewrite lookup_insert_eq.
  - rewrite (IH Hnd) by done. rewrite lookup_insert_ne; [done|].
    intros Heq. apply Hfresh. rewrite Heq. apply list_elem_of_fmap. eauto.
Qed.

(** The loop over the charts collects no error; it leaves the catalogs,
    rewrites the store chart by chart and only adds to the requests. *)
Lemma reconcileCharts_spec catalog charts :
  ∀ c errs generatedApps,
    ∃ c',
      reconcileCharts catalog charts c errs generatedApps
      = (c', errs, list_to_set (identities charts) ∪ generatedApps)
      ∧ catalogs c' = catalogs c
      ∧ objects c' = afterCharts catalog charts (objects c)
      ∧ ∃ sent, requests c' = requests c ++ sent.
Proof.
  induction charts as [|chart rest IH]; intros c errs generatedApps.
  - exists c. simpl. rewrite (left_id_L ∅ (∪)). split_and!; try done.
    exists []. by rewrite app_nil_r.
  - cbn [reconcileCharts]. cbv zeta.
    rewrite reconcileApplicationDefinition_spec.
    match goal with
    | |- context [reconcileCharts catalog rest ?c1 errs ?g] =>
        destruct (IH c1 errs g) as (c' & Hrun & Hcat & Hobj & sent & Hreq)
    end.
    exists c'. rewrite Hrun. split_and!; try done.
    + f_equal. unfold identities. rewrite fmap_cons, list_to_set_cons.
      change (Name (convertChartToApplicationDefinition catalog chart))
        with (GetAppName chart).
      apply set_eq. intros x. rewrite !elem_of_union, elem_of_singleton. tauto.
    + simpl in Hreq. eexists. rewrite Hreq, <-(assoc_L (++)). done.
Qed.

(** A pass over a catalog that is found and does not wait for the
    defaults is the loop over its charts followed by the unmanaging of
    the orphans; it reports no error. *)
Lemma reconcile_found c name catalog :
  catalogs c !! name = Some catalog →
  awaitsDefaults catalog = false →
  ∃ c1 c2 sent1 sent2,
    reconcile c name = (c2, None)
    ∧ catalogs c1 = catalogs c ∧ catalogs c2 = catalogs c
    ∧ objects c1 = afterCharts catalog (chartsOf catalog) (objects c)
    ∧ requests c1 = requests c ++ sent1
    ∧ (∀ n,
         objects c2 !! n
         = (λ s, if orphanOf (ac_Name catalog)
                      (Some (list_to_set (identities (chartsOf catalog)))) n s
                 then stripped s else s) <$> objects c1 !! n)
    ∧ requests c2 = requests c1 ++ sent2
    ∧ reconcileCharts catalog (chartsOf catalog) c [] ∅
      = (c1, [], list_to_set (identities (chartsOf catalog)))
    ∧ sent2
      = (λ o, PatchRequest o (removeLabels o))
        <$> filter (λ o, isOrphan
                           (Some (list_to_set (identities (chartsOf catalog)))) o
                         = true)
              (List c1 LabelApplicationCatalogName (ac_Name catalog)).
Proof.
  intros Hfound Hwait.
  destruct (reconcileCharts_spec catalog (chartsOf catalog) c [] ∅)
    as (c1 & Hrun & Hcat1 & Hobj1 & sent1 & Hreq1).
  rewrite (right_id_L ∅ (∪)) in Hrun.
  destruct (unmanageOrphans_spec c1 (ac_Name catalog)
              (Some (list_to_set (identities (chartsOf catalog)))))
    as (c2 & Hun & Hcat2 & Hobj2 & Hreq2).
  exists c1, c2, sent1. eexists. split_and!; try done; [|congruence].
  unfold reconcile. rewrite Hfound. unfold awaitsDefaults in Hwait.
  unfold chartsOf in *.
  destruct (GetHelmCharts catalog) as [charts|];
    [|rewrite Hwait]; cbn [from_option id] in *; by rewrite Hrun, Hun.
Qed.

(** X7. A pass over a catalog that asks for the defaults and has no charts
    yet touches nothing and reports the requeue error.  Against a store
    that answers every request (it refuses no name and no label value, and
    the program is its only writer), any other pass over a catalog that is
    found reports no error, leaves the catalogs, deletes no object and
    only adds to the requests; afterwards the names in the store are the
    names there were before and the identities of the charts, so every
    chart has its resource.  The pass never asks the store to create a
    name that exists or to patch one that does not. *)
Theorem X7_pass_creates_under_chart_identities_only
    (c : Client) (name : string) (catalog : ApplicationCatalog) :
  catalogs c !! name = Some catalog →
  (awaitsDefaults catalog = true →
   reconcile c name = (c, Some RequeueAfter10Secs))
  ∧ (awaitsDefaults catalog = false →
     ∃ c',
       reconcile c name = (c', None)
       ∧ catalogs c' = catalogs c
       ∧ dom (objects c')
         = dom (objects c) ∪ list_to_set (identities (chartsOf catalog))
       ∧ (∀ chart, chart ∈ chartsOf catalog →
            is_Some (Get c' (GetAppName chart)))
       ∧ ∃ sent, requests c' = requests c ++ sent).
Proof.
  intros Hfound. split.
  - intros Hwait. unfold reconcile. rewrite Hfound.
    unfold awaitsDefaults in Hwait.
    destruct (GetHelmCharts catalog); [done|]. by rewrite Hwait.
  - intros Hwait.
    destruct (reconcile_found c name catalog Hfound Hwait)
      as (c1 & c2 & sent1 & sent2 & Hrun & _ & Hcat & Hobj1 & Hreq1 & Hobj2
          & Hreq2 & _).
    assert (dom (objects c2)
            = dom (objects c) ∪ list_to_set (identities (chartsOf catalog)))
      as Hdom.
    { rewrite <-afterCharts_dom with (catalog := catalog), <-Hobj1.
      apply set_eq. intros n. by rewrite !elem_of_dom, Hobj2, fmap_is_Some. }
    exists c2. split_and!; try done.
    + intros chart Hchart. unfold Get. rewrite fmap_is_Some.
      apply elem_of_dom. rewrite Hdom, elem_of_union, elem_of_list_to_set.
      right. apply list_elem_of_fmap. eauto.
    + exists (sent1 ++ sent2). by rewrite Hreq2, Hreq1, <-(assoc_L (++)).
Qed.

(** X8. A pass over a catalog that is found leaves every object that is
    none of its business as it is: an object whose name is no identity of
    the catalog's charts and whose catalog-name label does not name the
    catalog, and an object under one of the identities that is a system
    application. *)
Theorem X8_pass_leaves_foreign_and_system_objects
    (c : Client) (name : string) (catalog : ApplicationCatalog)
    (n : string) (s : Stored) :
  catalogs c !! name = Some catalog →
  objects c !! n = Some s →
  ((n ∉ identities (chartsOf catalog))
   ∧ st_Labels s !! LabelApplicationCatalogName ≠ Some (ac_Name catalog))
  ∨ (n ∈ identities (chartsOf catalog)
     ∧ isSystemApplication (toObject n s) = true) →
  objects (reconcile c name).1 !! n = Some s.
Proof.
  intros Hfound Hs Hcase.
  destruct (awaitsDefaults catalog) eqn:Hwait.
  - unfold reconcile. rewrite Hfound. unfold awaitsDefaults in Hwait.
    destruct (GetHelmCharts catalog); [done|]. by rewrite Hwait.
  - destruct (reconcile_found c name catalog Hfound Hwait)
      as (c1 & c2 & sent1 & sent2 & Hrun & _ & Hcat & Hobj1 & Hreq1 & Hobj2
          & Hreq2 & _).
    rewrite Hrun. cbn [fst]. rewrite Hobj2, Hobj1.
    destruct Hcase as [[Hn Hlab]|[Hn Hsys]].
    + rewrite afterCharts_other, Hs by done. simpl. unfold orphanOf.
      by rewrite bool_decide_eq_false_2.
    + rewrite (afterCharts_system _ _ _ _ _ Hs Hsys). simpl. unfold orphanOf.
      rewrite (bool_decide_eq_false_2 (n ∉ _)); [by rewrite andb_false_r|].
      intros Hnot. apply Hnot. by apply elem_of_list_to_set.
Qed.

(** Under pairwise distinct identities the object a pass leaves for a
    chart is what one call makes of the object found before the pass. *)
Lemma reconcile_chart_object c name catalog chart :
  catalogs c !! name = Some catalog →
  awaitsDefaults catalog = false →
  NoDup (identities (chartsOf catalog)) →
  chart ∈ chartsOf catalog →
  objects (reconcile c name).1 !! GetAppName chart
  = Some (reconciled (convertChartToApplicationDefinition catalog chart)
            (objects c !! GetAppName chart)).
Proof.
  intros Hfound Hwait Hnd Hchart.
  destruct (reconcile_found c name catalog Hfound Hwait)
    as (c1 & c2 & sent1 & sent2 & Hrun & _ & Hcat & Hobj1 & Hreq1 & Hobj2
        & Hreq2 & _).
  rewrite Hrun. cbn [fst]. rewrite Hobj2, Hobj1.
  rewrite (afterCharts_single catalog _ Hnd _ _ Hchart). simpl.
  unfold orphanOf.
  rewrite (bool_decide_eq_false_2 (GetAppName chart ∉ _)).
  2:{ intros Hnot. apply Hnot. apply elem_of_list_to_set.
      apply list_elem_of_fmap. eauto. }
  by rewrite andb_false_r.
Qed.

(** X9. When the identities of the charts are pairwise distinct, a pass
    leaves under the identity of each chart what reconciling the converted
    chart alone makes of the object found there before the pass: the
    converted chart when there was none, the object itself when it is a
    system application, the update of the object otherwise. *)
Theorem X9_pass_outcome_for_each_chart
    (c : Client) (name : string) (catalog : ApplicationCatalog)
    (chart : ChartConfig) :
  catalogs c !! name = Some catalog →
  awaitsDefaults catalog = false →
  NoDup (identities (chartsOf catalog)) →
  chart ∈ chartsOf catalog →
  let desired := convertChartToApplicationDefinition catalog chart in
  Get (reconcile c name).1 (GetAppName chart)
  = Some match Get c (GetAppName chart) with
         | None => desired
         | Some existing =>
             if isSystemApplication existing then existing
             else updateModify desired existing
         end.
Proof.
  intros Hfound Hwait Hnd Hchart desired. unfold Get.
  rewrite (reconcile_chart_object c name catalog chart) by done.
  simpl. f_equal. unfold reconciled. fold desired.
  destruct (objects c !! GetAppName chart) as [s|]; simpl.
  - change (Name desired) with (GetAppName chart).
    destruct (isSystemApplication (toObject (GetAppName chart) s));
      [done|].
    exact (toObject_toStored (updateModify desired (toObject (GetAppName chart) s))).
  - exact (toObject_toStored desired).
Qed.

End WholePass.

(** ** Passes one after the other *)

Section Lifecycle.
Import v1alpha1 appskubermaticv1 client synchronizer spec outcome.

Lemma ascendingBy_convertVersions catalog chart :
  versionsAscending chart →
  ascendingBy Version (convertVersions catalog chart).
Proof.
  unfold versionsAscending, ascendingBy, convertVersions.
  induction 1 as [|v vs Hs IH Hhd]; simpl; [constructor|].
  constructor; [done|]. destruct Hhd; simpl; by constructor.
Qed.

(** An object whose versions are ascending, no two of one key, is a fixed
    point of the update with itself as the desired object: its versions
    are the only list a sort by the key can leave of them. *)
Lemma updateModify_self (d : ApplicationDefinition) :
  ascendingBy Version (Versions (Spec d)) →
  NoDup (Version <$> Versions (Spec d)) →
  updateModify d d = d.
Proof.
  intros Hasc Hnd. destruct d as [n l a sp].
  unfold updateModify, kubernetes.EnsureAnnotations, kubernetes.EnsureLabels.
  simpl in *. f_equal; [apply (idemp_L (∪))..|].
  destruct sp as [? ? ? dvb ? enf def [dcs] ? ? ? ? vs].
  unfold mergedSpec; simpl in *. f_equal.
  - by destruct (nonEmpty dvb && negb (String.eqb dvb "{}")).
  - by destruct enf.
  - by destruct def.
  - by destruct dcs.
  - rewrite mergeVersions_absorbed by done.
    apply (sortedByKey_unique vs); [done| |by split].
    apply sortVersions_sortedByKey.
Qed.

Lemma convertVersions_keys catalog chart :
  Version <$> convertVersions catalog chart = AppVersion <$> ChartVersions chart.
Proof. unfold convertVersions. by rewrite <-list_fmap_compose. Qed.

(** What a call leaves is a fixed point of a second call with the same
    converted chart, when the chart repeats no application version and
    either there was an object before, a system application or one that
    repeats no version key, or there was none and the versions of the
    chart are ascending. *)
Lemma reconciled_settles catalog chart (found : option Stored) :
  NoDup (AppVersion <$> ChartVersions chart) →
  match found with
  | Some s =>
      isSystemApplication (toObject (GetAppName chart) s) = true
      ∨ NoDup (Version <$> Versions (st_Spec s))
  | None => versionsAscending chart
  end →
  let desired := convertChartToApplicationDefinition catalog chart in
  reconciled desired (Some (reconciled desired found))
  = reconciled desired found.
Proof.
  intros Hchart Hcase desired.
  assert (NoDup (Version <$> Versions (Spec desired))) as Hd.
  { unfold desired; simpl. by rewrite convertVersions_keys. }
  destruct found as [s|].
  - unfold reconciled. change (Name desired) with (GetAppName chart).
    destruct (isSystemApplication (toObject (GetAppName chart) s)) eqn:Hsys.
    + by rewrite Hsys.
    + destruct Hcase as [?|Hs]; [done|].
      change (toObject (GetAppName chart)
                (toStored (updateModify desired (toObject (GetAppName chart) s))))
        with (updateModify desired (toObject (GetAppName chart) s)).
      destruct (isSystemApplication
                  (updateModify desired (toObject (GetAppName chart) s)));
        [done|].
      by rewrite updateModify_idempotent.
  - unfold reconciled.
    change (toObject (Name desired) (toStored desired)) with desired.
    unfold desired at 1. rewrite convert_not_system. fold desired.
    rewrite updateModify_self; [done| |done].
    by apply ascendingBy_convertVersions.
Qed.

Lemma requested_settled (d : ApplicationDefinition) (s : Stored) :
  reconciled d (Some s) = s → Forall emptyPatch (requested d (Some s)).
Proof.
  unfold reconciled, requested.
  destruct (isSystemApplication (toObject (Name d) s)); [constructor|].
  intros Hfix. repeat constructor. simpl.
  apply (f_equal (toObject (Name d))) in Hfix. symmetry. exact Hfix.
Qed.

(** On a store in which every chart has found its fixed point, the loop
    over the charts stores nothing new and sends empty patches only. *)
Lemma reconcileCharts_settled catalog charts :
  ∀ c errs generatedApps,
    (∀ chart, chart ∈ charts →
       ∃ s, objects c !! GetAppName chart = Some s
            ∧ reconciled (convertChartToApplicationDefinition catalog chart)
                (Some s) = s) →
    ∃ sent,
      objects (reconcileCharts catalog charts c errs generatedApps).1.1
      = objects c
      ∧ requests (reconcileCharts catalog charts c errs generatedApps).1.1
        = requests c ++ sent
      ∧ Forall emptyPatch sent.
Proof.
  induction charts as [|chart rest IH]; intros c errs generatedApps Hset.
  - exists []. simpl. by rewrite app_nil_r.
  - cbn [reconcileCharts]. cbv zeta.
    rewrite reconcileApplicationDefinition_spec.
    change (Name (convertChartToApplicationDefinition catalog chart))
      with (GetAppName chart).
    destruct (Hset chart) as (s & Hs & Hfix); [by left|].
    rewrite Hs, Hfix, insert_id by done.
    match goal with
    | |- context [reconcileCharts catalog rest ?c1 ?e ?g] =>
        destruct (IH c1 e g) as (sent & Hobj & Hreq & Hempty)
    end.
    { intros x Hx. apply Hset. by right. }
    eexists. split_and!; [exact Hobj| |].
    + rewrite Hreq. simpl. by rewrite <-(assoc_L (++)).
    + apply Forall_app. split; [|done].
      exact (requested_settled _ s Hfix).
Qed.

(** X10. The counterpart of the second pass that patches.  Let the
    identities of the charts be pairwise distinct, let no chart repeat an
    application version, and let every chart either have had its resource
    before the first pass, a system application or a resource that
    repeats no version key, or list its versions in ascending order.  Then
    the pass that follows a pass changes no object and sends nothing but
    patches that are empty.  No two versions of an object sharing a key,
    the order a sort by the key leaves is the ascending one, whatever the
    sort. *)
Theorem X10_second_pass_changes_nothing
    (c : Client) (name : string) (catalog : ApplicationCatalog) :
  catalogs c !! name = Some catalog →
  awaitsDefaults catalog = false →
  NoDup (identities (chartsOf catalog)) →
  (∀ chart, chart ∈ chartsOf catalog →
     NoDup (AppVersion <$> ChartVersions chart)
     ∧ match Get c (GetAppName chart) with
       | Some existing =>
           isSystemApplication existing = true
           ∨ NoDup (Version <$> Versions (Spec existing))
       | None => versionsAscending chart
       end) →
  let c1 := (reconcile c name).1 in
  let c2 := (reconcile c1 name).1 in
  objects c2 = objects c1
  ∧ ∃ sent, requests c2 = requests c1 ++ sent ∧ Forall emptyPatch sent.
Proof.
  intros Hfound Hwait Hnd Hcharts c1 c2.
  destruct (reconcile_found c name catalog Hfound Hwait)
    as (b1 & b2 & sentb1 & sentb2 & Hrunb & _ & Hcatb & Hobjb1 & _ & Hobjb2
        & _).
  assert (c1 = b2) as Hc1 by (unfold c1; by rewrite Hrunb).
  clearbody c1. subst c1.
  (* after the first pass no object is an orphan of the catalog *)
  assert (∀ n s, objects b2 !! n = Some s →
            orphanOf (ac_Name catalog)
              (Some (list_to_set (identities (chartsOf catalog)))) n s = false)
    as Hnone.
  { intros n s. rewrite Hobjb2.
    destruct (objects b1 !! n) as [s0|]; [|done]. simpl.
    destruct (orphanOf _ _ n s0) eqn:Horph; intros [= <-]; [|done].
    unfold orphanOf, stripped; simpl.
    rewrite lookup_delete_eq. by rewrite bool_decide_eq_false_2. }
  (* every chart has found its fixed point *)
  assert (∀ chart, chart ∈ chartsOf catalog →
            ∃ s, objects b2 !! GetAppName chart = Some s
                 ∧ reconciled (convertChartToApplicationDefinition catalog chart)
                     (Some s) = s) as Hset.
  { intros chart Hchart. rewrite Hobjb2, Hobjb1.
    rewrite (afterCharts_single catalog _ Hnd _ _ Hchart). simpl.
    unfold orphanOf at 1.
    rewrite (bool_decide_eq_false_2 (GetAppName chart ∉ _)).
    2:{ intros Hnot. apply Hnot. apply elem_of_list_to_set.
        apply list_elem_of_fmap. eauto. }
    rewrite andb_false_r. eexists. split; [done|].
    destruct (Hcharts chart Hchart) as [Hversions Hcase].
    apply reconciled_settles; [done|].
    unfold Get in Hcase. by destruct (objects c !! GetAppName chart). }
  assert (catalogs b2 !! name = Some catalog) as Hfound2 by by rewrite Hcatb.
  destruct (reconcile_found b2 name catalog Hfound2 Hwait)
    as (d1 & d2 & sentd1 & sentd2 & Hrund & _ & _ & _ & _ & Hobjd2 & Hreqd2
        & Hloop & Hsent2).
  destruct (reconcileCharts_settled catalog (chartsOf catalog) b2 [] ∅ Hset)
    as (sent & Hobj & Hreq & Hempty).
  rewrite Hloop in Hobj, Hreq. cbn [fst] in Hobj, Hreq.
  assert (c2 = d2) as -> by (unfold c2; by rewrite Hrund).
  split.
  - apply map_eq. intros n. rewrite Hobjd2, Hobj.
    destruct (objects b2 !! n) as [s|] eqn:Hs; [|done]. simpl.
    by rewrite (Hnone n s Hs).
  - exists sent. split; [|done].
    rewrite Hreqd2, Hreq, Hsent2, filter_none; [by rewrite app_nil_r|].
    intros o Ho Horph. apply elem_of_List in Ho as [Hst Hlab].
    rewrite Hobj in Hst. apply Hnone in Hst.
    rewrite isOrphan_orphanOf in Hst.
    rewrite bool_decide_eq_true_2 in Hst by done.
    rewrite toObject_toStored in Hst. simpl in Hst, Horph. congruence.
Qed.

(** X11. A pass over a catalog that is gone releases everything it owned:
    afterwards no object carries the catalog-name label with its name, so
    no catalog is in conflict with it any more, and a further pass finds
    nothing to do: it leaves the client as it is, requests included. *)
Theorem X11_deleted_catalog_releases_its_resources
    (c : Client) (name : string) :
  catalogs c !! name = None →
  let c' := (reconcile c name).1 in
  (∀ n s, objects c' !! n = Some s →
     st_Labels s !! LabelApplicationCatalogName ≠ Some name)
  ∧ (∀ catalog appName, ¬ crossConflict c' catalog appName name)
  ∧ reconcile c' name = (c', None).
Proof.
  intros Hgone c'.
  destruct (unmanageOrphans_spec c name None)
    as (b & Hrun & Hcat & Hobj & Hreq).
  assert (c' = b) as ->.
  { unfold c', reconcile, handleDeletion. by rewrite Hgone, Hrun. }
  assert (∀ n s, objects b !! n = Some s →
            st_Labels s !! LabelApplicationCatalogName ≠ Some name) as Hfree.
  { intros n s. rewrite Hobj.
    destruct (objects c !! n) as [s0|]; [|done]. simpl.
    unfold orphanOf. rewrite andb_true_r.
    case_bool_decide as Hlab; intros [= <-]; [|done].
    unfold stripped; simpl. by rewrite lookup_delete_eq. }
  split_and!; [done| |].
  - intros catalog appName (_ & s & Hs & _ & Hlab & _).
    by apply (Hfree _ _ Hs).
  - unfold reconcile, handleDeletion, unmanageOrphans.
    rewrite Hcat, Hgone.
    assert (List b LabelApplicationCatalogName name = []) as ->; [|done].
    rewrite <-(filter_none (λ _, True) (List b LabelApplicationCatalogName name)).
    + symmetry. by apply filter_all.
    + intros o Ho _. apply elem_of_List in Ho as [Hst Hlab].
      by apply (Hfree _ _ Hst).
Qed.

End Lifecycle.

(** ** The reconciler and the validating webhook together *)

Section Admission.
Import v1alpha1 appskubermaticv1 client admission synchronizer spec outcome.
Variable quote : string → string.
Variable ident : ChartConfig → string.
Variable defaultCharts : list ChartConfig.

(** A create or update of a catalog for which conflicts are detected is
    denied, whatever its annotation. *)
Lemma Handle_denies_conflicts h req catalog :
  Operation req = Create ∨ Operation req = Update →
  validation.decoder h req = inl catalog →
  validation.detectConflicts quote (validation.h_client h) catalog ≠ [] →
  ∃ message,
    validation.Handle quote ident defaultCharts h req = Denied message.
Proof.
  intros Hop Hdec Hne. unfold validation.Handle, validation.handleValidation.
  assert (String.eqb (Operation req) Create || String.eqb (Operation req) Update
          = true) as -> by (destruct Hop as [-> | ->]; done).
  rewrite Hdec.
  destruct (validation.detectConflicts quote (validation.h_client h) catalog);
    [done|].
  destruct (Helm catalog) as [helm|];
    [destruct (IncludeDefaults helm);
     [destruct (defaulting.ValidateIncludeAnnotation _ _ _)|]|];
    eauto.
Qed.

(** X12. The reconciler and the validator agree on ownership.  Once a pass
    over a catalog with a non-empty name and pairwise distinct identities
    has created the resource of one of its charts, a create or update of a
    catalog of another name that declares a chart of the same identity is
    denied: the conflict that names the identity and the owning catalog is
    detected. *)
Theorem X12_created_resource_blocks_other_catalogs
    (c : Client) (name : string) (catalog : ApplicationCatalog)
    (chart : ChartConfig)
    (h : validation.AdmissionHandler) (req : Request)
    (other : ApplicationCatalog) (otherChart : ChartConfig) :
  catalogs c !! name = Some catalog →
  awaitsDefaults catalog = false →
  NoDup (identities (chartsOf catalog)) →
  chart ∈ chartsOf catalog →
  Get c (GetAppName chart) = None →
  ac_Name catalog ≠ EmptyString →
  validation.h_client h = (reconcile c name).1 →
  Operation req = Create ∨ Operation req = Update →
  validation.decoder h req = inl other →
  ac_Name other ≠ ac_Name catalog →
  otherChart ∈ chartsOf other →
  GetAppName otherChart = GetAppName chart →
  {| validation.AppDefName := GetAppName chart;
     validation.OwnerCatalog := ac_Name catalog |}
  ∈ validation.detectConflicts quote (reconcile c name).1 other
  ∧ ∃ message,
      validation.Handle quote ident defaultCharts h req = Denied message.
Proof.
  intros Hfound Hwait Hnd Hchart Hnew Hname Hclient Hop Hdec Hother Hin Hsame.
  assert ({| validation.AppDefName := GetAppName chart;
             validation.OwnerCatalog := ac_Name catalog |}
          ∈ validation.detectConflicts quote (reconcile c name).1 other)
    as Hconflict.
  { destruct (detectConflicts_external quote (reconcile c name).1 other)
      as (duplicates & external & -> & _ & Hext).
    apply elem_of_app. right. apply Hext. simpl. split; [by eauto|].
    eexists. split; [by apply reconcile_chart_object|].
    unfold Get in Hnew. destruct (objects c !! GetAppName chart); [done|].
    simpl. by split_and!. }
  split; [done|]. apply (Handle_denies_conflicts h req other); try done.
  rewrite Hclient. intros Hnil. rewrite Hnil in Hconflict.
  by apply elem_of_nil in Hconflict.
Qed.

(** X13. A create or update of a catalog in which two charts have the same
    identity is denied, whatever the cluster holds and whatever the
    annotation of the catalog says. *)
Theorem X13_duplicate_identities_always_denied
    (h : validation.AdmissionHandler) (req : Request)
    (catalog : ApplicationCatalog) :
  Operation req = Create ∨ Operation req = Update →
  validation.decoder h req = inl catalog →
  ¬ NoDup (identities (chartsOf catalog)) →
  ∃ message,
    validation.Handle quote ident defaultCharts h req = Denied message.
Proof.
  intros Hop Hdec Hdup. apply (Handle_denies_conflicts h req catalog); try done.
  unfold validation.detectConflicts. unfold chartsOf in Hdup.
  destruct (default [] (GetHelmCharts catalog)) as [|chart rest].
  { destruct Hdup. constructor. }
  destruct (collectAppNames_spec quote (chart :: rest) ∅ [])
    as (appNames & duplicates & Hrun & _ & Hnone).
  rewrite Hrun. simpl. intros [Hnil _]%app_eq_nil.
  apply Hnone in Hnil as [Hnd _]. by apply Hdup.
Qed.

(** X14. An object that does not decode is a bad request for both
    webhooks: a create or update is answered with an error of code 400
    whose message carries the decoder's error, and neither the cluster nor
    the defaults are looked at.  The mutating webhook never denies. *)
Theorem X14_undecodable_object_is_a_bad_request
    (hv : validation.AdmissionHandler) (hm : mutation.AdmissionHandler)
    (req : Request) :
  Operation req = Create ∨ Operation req = Update →
  (∀ err, validation.decoder hv req = inr err →
     validation.Handle quote ident defaultCharts hv req
     = Errored 400 (String.append "failed to decode request: " err))
  ∧ (∀ err, mutation.decoder hm req = inr err →
       mutation.Handle quote ident defaultCharts hm req
       = Errored 400 (String.append "failed to decode request: " err))
  ∧ (∀ catalog, mutation.decoder hm req = inl catalog →
       mutation.Handle quote ident defaultCharts hm req
       = PatchResponseFromRaw (Object req)
           (defaulting.DefaultApplicationCatalog ident defaultCharts catalog))
  ∧ ∀ message,
      mutation.Handle quote ident defaultCharts hm req ≠ Denied message.
Proof.
  intros Hop.
  assert (String.eqb (Operation req) Create || String.eqb (Operation req) Update
          = true) as Hops by (destruct Hop as [-> | ->]; done).
  unfold validation.Handle, validation.handleValidation, mutation.Handle,
    mutation.handleMutation.
  rewrite Hops. split_and!.
  - by intros err ->.
  - by intros err ->.
  - by intros catalog ->.
  - intros message. by destruct (mutation.decoder hm req).
Qed.

End Admission.

(** ** The controller around the reconciler *)

Section Controller.
Import v1alpha1 client synchronizer outcome controller.

(** X15. [Add] checks the configuration before it builds the controller.
    Without a configuration, without a logger or with a negative
    reconciliation interval it returns an error that says that the
    controller could not be instantiated, and the builder is not asked.
    Otherwise it returns what building the controller returns, as it is.
    So [Add] succeeds exactly when there is a configuration with a logger
    and an interval that is not negative, and building succeeds. *)
Theorem X15_configuration_checked_before_controller_is_built
    (build : ControllerConfig → option string) (cfg : option ControllerConfig) :
  (Add build cfg = None ↔
   ∃ config, cfg = Some config ∧ is_Some (Log config)
             ∧ (0 ≤ ReconciliationInterval config)%Z
             ∧ build config = None)
  ∧ (∀ config, cfg = Some config → is_Some (Log config) →
       (0 ≤ ReconciliationInterval config)%Z →
       Add build cfg = build config)
  ∧ ((∀ config, cfg = Some config →
        Log config = None ∨ (ReconciliationInterval config < 0)%Z) →
     (∃ cause,
        Add build cfg
        = Some (String.append "failed to instantiate controller: " cause))
     ∧ ∀ build', Add build' cfg = Add build cfg).
Proof.
  unfold Add, validate. split_and!.
  - destruct cfg as [[log interval]|]; simpl.
    + destruct log; simpl.
      * destruct (Z.ltb_spec interval 0); split; try done.
        -- intros (config & [= <-] & _ & Hle & _). simpl in Hle. lia.
        -- intros Hbuild. eexists. split_and!; [done|by eexists|simpl; lia|done].
        -- by intros (config & [= <-] & _ & _ & Hbuild).
      * split; [done|]. intros (config & [= <-] & [? Hlog] & _). done.
    + split; [done|]. by intros (config & [=] & _).
  - intros config -> [log Hlog] Hle. rewrite Hlog.
    by destruct (Z.ltb_spec (ReconciliationInterval config) 0); [lia|].
  - intros Hbad. destruct cfg as [config|]; [|split; [by eexists|done]].
    destruct (Hbad config eq_refl) as [Hlog|Hneg].
    + rewrite Hlog. split; [by eexists|done].
    + destruct (Log config); [|split; [by eexists|done]].
      destruct (Z.ltb_spec (ReconciliationInterval config) 0); [|lia].
      split; [by eexists|done].
Qed.

(** X16. What the controller hands back to the work queue.  For a catalog
    that waits for its defaults the client is left alone and the request
    comes back after ten seconds, without an error.  In every other case
    the pass of the reconciler is what is done, no error is returned, and
    the request comes back after the reconciliation interval when that is
    positive and is not requeued otherwise. *)
Theorem X16_controller_requeues_and_returns_no_error
    (cfg : ControllerConfig) (c : Client) (name : string) :
  match catalogs c !! name with
  | Some catalog =>
      if awaitsDefaults catalog
      then Reconcile cfg c name = (c, {| RequeueAfter := 10 * Second |}, None)
      else Reconcile cfg c name
           = ((reconcile c name).1,
              {| RequeueAfter := Z.max 0 (ReconciliationInterval cfg) |}, None)
  | None =>
      Reconcile cfg c name
      = ((handleDeletion c name).1,
         {| RequeueAfter := Z.max 0 (ReconciliationInterval cfg) |}, None)
  end.
Proof.
  assert (∀ c' : Client,
            (if (0 <? ReconciliationInterval cfg)%Z
             then (c', {| RequeueAfter := ReconciliationInterval cfg |},
                   None (A := error))
             else (c', {| RequeueAfter := 0 |}, None))
            = (c', {| RequeueAfter := Z.max 0 (ReconciliationInterval cfg) |},
               None)) as Hresult.
  { intros c'. destruct (Z.ltb_spec 0 (ReconciliationInterval cfg));
      do 3 f_equal; lia. }
  unfold Reconcile.
  destruct (catalogs c !! name) as [catalog|] eqn:Hfound.
  - destruct (awaitsDefaults catalog) eqn:Hwait.
    + unfold reconcile. rewrite Hfound. unfold awaitsDefaults in Hwait.
      destruct (GetHelmCharts catalog); [done|]. by rewrite Hwait.
    + destruct (reconcile_found c name catalog Hfound Hwait)
        as (c1 & c2 & ? & ? & -> & _).
      apply Hresult.
  - unfold reconcile. rewrite Hfound. unfold handleDeletion.
    destruct (unmanageOrphans_spec c name None) as (c' & -> & _).
    apply Hresult.
Qed.

End Controller.

(** ** The format flag of the logger *)

Section LogFormat.
Import aclog.

(** X17. Setting the format flag succeeds exactly when the value, read
    without regard to case, is json or console.  A success leaves one of
    the available formats, which the options validate; a failure leaves
    the format as it was.  The name of each available format sets that
    format, and the default options validate. *)
Theorem X17_format_flag_sets_available_formats_only
    (quote : string → string) (f s : string) (debug : bool) :
  ((Set_ f s).2 = None ↔ ToLower s = "json" ∨ ToLower s = "console")
  ∧ ((Set_ f s).2 = None →
     (Set_ f s).1 ∈ AvailableFormats
     ∧ Validate quote {| Debug := debug; Format := (Set_ f s).1 |} = None)
  ∧ ((Set_ f s).2 ≠ None → (Set_ f s).1 = f)
  ∧ (∀ format, format ∈ AvailableFormats → Set_ f format = (format, None))
  ∧ (Validate quote {| Debug := debug; Format := f |} = None
     ↔ f ∈ AvailableFormats)
  ∧ Validate quote NewDefaultOptions = None.
Proof.
  unfold Set_. split_and!.
  - destruct (String.eqb_spec (ToLower s) "json") as [->|Hj]; simpl.
    { split; [by left|done]. }
    destruct (String.eqb_spec (ToLower s) "console") as [->|Hc]; simpl.
    { split; [by right|done]. }
    split; [done|]. by intros [?|?].
  - destruct (String.eqb (ToLower s) "json"); simpl.
    { intros _. split; [|done]. unfold AvailableFormats.
      rewrite !elem_of_cons. tauto. }
    destruct (String.eqb (ToLower s) "console"); simpl; [|done].
    intros _. split; [|done]. unfold AvailableFormats.
    rewrite !elem_of_cons. tauto.
  - destruct (String.eqb (ToLower s) "json"); simpl; [done|].
    by destruct (String.eqb (ToLower s) "console").
  - intros format. unfold AvailableFormats.
    rewrite !elem_of_cons, elem_of_nil. by intros [->|[->|[]]].
  - unfold Validate, AvailableFormats; simpl.
    rewrite !elem_of_cons, elem_of_nil.
    destruct (String.eqb_spec f FormatJSON) as [->|Hj]; simpl.
    { split; [by left|done]. }
    destruct (String.eqb_spec f FormatConsole) as [->|Hc]; simpl.
    { split; [by right; left|done]. }
    split; [done|]. by intros [?|[?|[]]].
  - done.
Qed.

End LogFormat.

(** ** An admitted catalog and the resources of other catalogs *)

Section Takeover.
Import v1alpha1 appskubermaticv1 client admission synchronizer spec outcome.
Variable quote : string → string.
Variable ident : ChartConfig → string.
Variable defaultCharts : list ChartConfig.

(** X18. A catalog that the validator lets through takes nothing over.
    When a create or update of the catalog is allowed on a cluster, a pass
    of the reconciler over that catalog on that cluster leaves every
    resource that another catalog owns (managed-by "true", a catalog-name
    label that is non-empty and not the catalog's own name) exactly as it
    is. *)
Theorem X18_admitted_catalog_takes_nothing_over
    (c : Client) (name : string) (catalog : ApplicationCatalog)
    (h : validation.AdmissionHandler) (req : Request)
    (n : string) (s : Stored) (owner : string) :
  catalogs c !! name = Some catalog →
  validation.h_client h = c →
  Operation req = Create ∨ Operation req = Update →
  validation.decoder h req = inl catalog →
  allows (validation.Handle quote ident defaultCharts h req) = true →
  objects c !! n = Some s →
  st_Labels s !! LabelManagedByApplicationCatalog = Some "true" →
  st_Labels s !! LabelApplicationCatalogName = Some owner →
  owner ≠ EmptyString →
  owner ≠ ac_Name catalog →
  objects (reconcile c name).1 !! n = Some s.
Proof.
  intros Hfound Hclient Hop Hdec Hallowed Hs Hmanaged Howner Hne Hother.
  assert (n ∉ identities (chartsOf catalog)) as Hn.
  { intros (chart & -> & Hchart)%list_elem_of_fmap.
    destruct (detectConflicts_external quote c catalog)
      as (duplicates & external & Hdetect & _ & Hext).
    assert ({| validation.AppDefName := GetAppName chart;
               validation.OwnerCatalog := owner |} ∈ external) as Hin.
    { apply Hext. simpl. split; [by eauto|]. by exists s. }
    destruct (Handle_denies_conflicts quote ident defaultCharts h req catalog)
      as [message Hdenied]; try done.
    - rewrite Hclient, Hdetect. intros [_ Hnil]%app_eq_nil.
      rewrite Hnil in Hin. by apply elem_of_nil in Hin.
    - by rewrite Hdenied in Hallowed. }
  destruct (awaitsDefaults catalog) eqn:Hwait.
  - unfold reconcile. rewrite Hfound. unfold awaitsDefaults in Hwait.
    destruct (GetHelmCharts catalog); [done|]. by rewrite Hwait.
  - destruct (reconcile_found c name catalog Hfound Hwait)
      as (c1 & c2 & sent1 & sent2 & Hrun & _ & _ & Hobj1 & _ & Hobj2 & _).
    rewrite Hrun. cbn [fst]. rewrite Hobj2, Hobj1.
    rewrite afterCharts_other, Hs by done. simpl. unfold orphanOf.
    rewrite bool_decide_eq_false_2; [done|]. rewrite Howner. congruence.
Qed.

End Takeover.

(** ** Instances of the properties that have preconditions *)

Section Instances.
Import v1alpha1 appskubermaticv1 client admission synchronizer spec outcome.

Lemma X7_pass_creates_under_chart_identities_only_witness :
  ∃ c',
    reconcile scene.beforeFirstPass "c2" = (c', None)
    ∧ catalogs c' = catalogs scene.beforeFirstPass
    ∧ dom (objects c')
      = dom (objects scene.beforeFirstPass)
        ∪ list_to_set (identities (chartsOf sample.catalogC2))
    ∧ (∀ chart, chart ∈ chartsOf sample.catalogC2 →
         is_Some (Get c' (GetAppName chart)))
    ∧ ∃ sent, requests c' = requests scene.beforeFirstPass ++ sent.
Proof.
  apply (X7_pass_creates_under_chart_identities_only
           scene.beforeFirstPass "c2" sample.catalogC2).
  - vm_compute. reflexivity.
  - vm_compute. reflexivity.
Defined.

Lemma X8_pass_leaves_foreign_and_system_objects_witness :
  objects (reconcile scene.crowdedCluster "c2").1 !! "redis"
  = Some scene.foreignObject.
Proof.
  apply (X8_pass_leaves_foreign_and_system_objects
           scene.crowdedCluster "c2" sample.catalogC2).
  - vm_compute. reflexivity.
  - vm_compute. reflexivity.
  - left. split.
    + apply (bool_decide_unpack _). vm_compute. exact I.
    + vm_compute. discriminate.
Defined.

Lemma X9_pass_outcome_for_each_chart_witness :
  let desired :=
    convertChartToApplicationDefinition sample.catalogC2 sample.nginxChart in
  Get (reconcile scene.crowdedCluster "c2").1 (GetAppName sample.nginxChart)
  = Some match Get scene.crowdedCluster (GetAppName sample.nginxChart) with
         | None => desired
         | Some existing =>
             if isSystemApplication existing then existing
             else updateModify desired existing
         end.
Proof.
  apply (X9_pass_outcome_for_each_chart
           scene.crowdedCluster "c2" sample.catalogC2 sample.nginxChart).
  - vm_compute. reflexivity.
  - vm_compute. reflexivity.
  - apply (bool_decide_unpack _). vm_compute. exact I.
  - vm_compute. left.
Defined.

Lemma X10_second_pass_changes_nothing_witness :
  let c1 := (reconcile scene.beforeFirstPass "c2").1 in
  let c2 := (reconcile c1 "c2").1 in
  objects c2 = objects c1
  ∧ ∃ sent, requests c2 = requests c1 ++ sent ∧ Forall emptyPatch sent.
Proof.
  apply (X10_second_pass_changes_nothing
           scene.beforeFirstPass "c2" sample.catalogC2).
  - vm_compute. reflexivity.
  - vm_compute. reflexivity.
  - apply (bool_decide_unpack _). vm_compute. exact I.
  - intros chart Hchart.
    apply list_elem_of_singleton in Hchart as ->. split.
    + apply (bool_decide_unpack _). vm_compute. exact I.
    + vm_compute. repeat constructor.
Defined.

Lemma X11_deleted_catalog_releases_its_resources_witness :
  let c' := (reconcile scene.afterDeletion "c2").1 in
  (∀ n s, objects c' !! n = Some s →
     st_Labels s !! LabelApplicationCatalogName ≠ Some "c2")
  ∧ (∀ catalog appName, ¬ crossConflict c' catalog appName "c2")
  ∧ reconcile c' "c2" = (c', None).
Proof.
  apply (X11_deleted_catalog_releases_its_resources scene.afterDeletion "c2").
  vm_compute. reflexivity.
Defined.

Lemma X12_created_resource_blocks_other_catalogs_witness :
  {| validation.AppDefName := GetAppName sample.nginxChart;
     validation.OwnerCatalog := ac_Name sample.catalogC2 |}
  ∈ validation.detectConflicts sample.quote
      (reconcile scene.beforeFirstPass "c2").1 sample.catalogC3
  ∧ ∃ message,
      validation.Handle sample.quote ChartName [] scene.validatorAfterFirstPass
        sample.createRequest
      = Denied message.
Proof.
  apply (X12_created_resource_blocks_other_catalogs sample.quote ChartName []
           scene.beforeFirstPass "c2" sample.catalogC2 sample.nginxChart
           scene.validatorAfterFirstPass sample.createRequest
           sample.catalogC3 sample.nginxChart).
  - vm_compute. reflexivity.
  - vm_compute. reflexivity.
  - apply (bool_decide_unpack _). vm_compute. exact I.
  - vm_compute. left.
  - vm_compute. reflexivity.
  - vm_compute. discriminate.
  - reflexivity.
  - left. reflexivity.
  - reflexivity.
  - vm_compute. discriminate.
  - vm_compute. left.
  - reflexivity.
Defined.

Lemma X13_duplicate_identities_always_denied_witness :
  ∃ message,
    validation.Handle sample.quote ChartName [] scene.validatorOfDuplicates
      sample.createRequest
    = Denied message.
Proof.
  apply (X13_duplicate_identities_always_denied sample.quote ChartName []
           scene.validatorOfDuplicates sample.createRequest
           sample.duplicateCatalog).
  - left. reflexivity.
  - reflexivity.
  - apply (bool_decide_unpack _). vm_compute. exact I.
Defined.

Lemma X14_undecodable_object_is_a_bad_request_witness :
  validation.Handle sample.quote ChartName [] scene.deafValidator
    sample.createRequest
  = Errored 400 (String.append "failed to decode request: " "no object")
  ∧ mutation.Handle sample.quote ChartName [] scene.deafMutator
      sample.createRequest
    = Errored 400 (String.append "failed to decode request: " "no object").
Proof.
  destruct (X14_undecodable_object_is_a_bad_request sample.quote ChartName []
              scene.deafValidator scene.deafMutator sample.createRequest)
    as (Hv & Hm & _); [left; reflexivity|].
  split; [apply Hv|apply Hm]; reflexivity.
Defined.

Lemma X18_admitted_catalog_takes_nothing_over_witness :
  objects (reconcile scene.crowdedCluster "c2").1 !! "redis"
  = Some scene.foreignObject.
Proof.
  apply (X18_admitted_catalog_takes_nothing_over sample.quote ChartName []
           scene.crowdedCluster "c2" sample.catalogC2
           scene.validatorOfCrowdedCluster sample.createRequest
           "redis" scene.foreignObject "other").
  - vm_compute. reflexivity.
  - reflexivity.
  - left. reflexivity.
  - reflexivity.
  - vm_compute. reflexivity.
  - vm_compute. reflexivity.
  - vm_compute. reflexivity.
  - vm_compute. reflexivity.
  - discriminate.
  - vm_compute. discriminate.
Defined.

End Instances.
